(** * statping: the checker, the tray check loop and the configuration parsers

    A shallow embedding of the Go sources
    - [internal/config/config.go]   (constants),
    - [internal/storage]            (models and the record store),
    - [internal/checker/checker.go] (probe classification, status tracking),
    - [internal/tray/tray.go]       (the tray check loop),
    and the properties of the specification that are about them.

    Conventions.  Go's [int], [int64] and [time.Duration] are [Z] with the
    64-bit wrap-around written out where the code does arithmetic on them;
    [uint] primary keys are [N]; Go strings are byte strings, [string];
    a [time.Time] is the number of nanoseconds since the zero [Time], so
    that the zero value of the type is [0].  The record store, the map of
    scheduled monitors and the notifications handed to the notifier are
    the state threaded through every operation. *)

From Stdlib Require Import ZArith NArith List String Ascii Lia Bool DecimalString.
From stdpp Require Import base option list sorting gmap strings.

Local Open Scope string_scope.
Local Open Scope list_scope.
Local Open Scope Z_scope.

(** ** Machine integers and time *)

Definition wrap64 (z : Z) : Z := (z + 2 ^ 63) mod 2 ^ 64 - 2 ^ 63.

Definition maxInt64 : Z := 2 ^ 63 - 1.
Definition minInt64 : Z := - 2 ^ 63.

Definition Time := Z.
Definition Duration := Z.

Definition Second : Duration := 1000000000.

(** [t.Sub(u)]: the difference, saturated to the range of [Duration]. *)
Definition Sub (t u : Time) : Duration :=
  Z.max minInt64 (Z.min maxInt64 (t - u)).

(** [time.Since(t)] when the clock reads [clock]. *)
Definition Since (clock t : Time) : Duration := Sub clock t.

(** [d.Seconds() >= n] for an integer constant [n].  [Seconds] is
    [float64(d / Second) + float64(d % Second) / 1e9]; the quotient is
    exact and the fraction stays below one, so the comparison with a whole
    number of seconds is the comparison of the nanosecond counts. *)
Definition Seconds_ge (d : Duration) (n : Z) : bool := n * Second <=? d.

(** ** internal/config *)

Module config.
Definition DefaultCheckInterval : Z := 60.
Definition DefaultTimeout : Z := 10.
Definition DefaultMaxFailures : Z := 3.
Definition NotificationCooldown : Z := 300.
End config.

(** ** internal/storage: models

    The gorm bookkeeping columns [CreatedAt]/[UpdatedAt] of [Monitor] and
    [Incident] and the association slices of [Monitor] are left out: no
    code of the checker or of the tray reads them. *)

Module Monitor.
Record t := mk {
  ID : N;
  Name : string;
  URL : string;
  Enabled : bool;
  CheckInterval : Z;
  ExpectedCodes : string;
  Keywords : string;
  Timeout : Z;
  CurrentStatus : string;
  ConsecutiveFails : Z;
  LastCheckAt : option Time
}.

Definition set_ID (v : N) (m : t) : t :=
  mk v (Name m) (URL m) (Enabled m) (CheckInterval m) (ExpectedCodes m)
     (Keywords m) (Timeout m) (CurrentStatus m) (ConsecutiveFails m)
     (LastCheckAt m).
Definition set_Name (v : string) (m : t) : t :=
  mk (ID m) v (URL m) (Enabled m) (CheckInterval m) (ExpectedCodes m)
     (Keywords m) (Timeout m) (CurrentStatus m) (ConsecutiveFails m)
     (LastCheckAt m).
Definition set_Enabled (v : bool) (m : t) : t :=
  mk (ID m) (Name m) (URL m) v (CheckInterval m) (ExpectedCodes m)
     (Keywords m) (Timeout m) (CurrentStatus m) (ConsecutiveFails m)
     (LastCheckAt m).
Definition set_CheckInterval (v : Z) (m : t) : t :=
  mk (ID m) (Name m) (URL m) (Enabled m) v (ExpectedCodes m)
     (Keywords m) (Timeout m) (CurrentStatus m) (ConsecutiveFails m)
     (LastCheckAt m).
Definition set_ExpectedCodes (v : string) (m : t) : t :=
  mk (ID m) (Name m) (URL m) (Enabled m) (CheckInterval m) v
     (Keywords m) (Timeout m) (CurrentStatus m) (ConsecutiveFails m)
     (LastCheckAt m).
Definition set_Keywords (v : string) (m : t) : t :=
  mk (ID m) (Name m) (URL m) (Enabled m) (CheckInterval m) (ExpectedCodes m)
     v (Timeout m) (CurrentStatus m) (ConsecutiveFails m) (LastCheckAt m).
Definition set_Timeout (v : Z) (m : t) : t :=
  mk (ID m) (Name m) (URL m) (Enabled m) (CheckInterval m) (ExpectedCodes m)
     (Keywords m) v (CurrentStatus m) (ConsecutiveFails m) (LastCheckAt m).
Definition set_CurrentStatus (v : string) (m : t) : t :=
  mk (ID m) (Name m) (URL m) (Enabled m) (CheckInterval m) (ExpectedCodes m)
     (Keywords m) (Timeout m) v (ConsecutiveFails m) (LastCheckAt m).
Definition set_ConsecutiveFails (v : Z) (m : t) : t :=
  mk (ID m) (Name m) (URL m) (Enabled m) (CheckInterval m) (ExpectedCodes m)
     (Keywords m) (Timeout m) (CurrentStatus m) v (LastCheckAt m).
Definition set_LastCheckAt (v : option Time) (m : t) : t :=
  mk (ID m) (Name m) (URL m) (Enabled m) (CheckInterval m) (ExpectedCodes m)
     (Keywords m) (Timeout m) (CurrentStatus m) (ConsecutiveFails m) v.
End Monitor.

Module CheckResult.
Record t := mk {
  ID : N;
  CreatedAt : Time;
  MonitorID : N;
  StatusCode : Z;
  ResponseTime : Z;
  Success : bool;
  ErrorMessage : string
}.

Definition set_ID (v : N) (r : t) : t :=
  mk v (CreatedAt r) (MonitorID r) (StatusCode r) (ResponseTime r)
     (Success r) (ErrorMessage r).
End CheckResult.

Module Incident.
Record t := mk {
  ID : N;
  MonitorID : N;
  StartedAt : Time;
  ResolvedAt : option Time;
  ErrorMessage : string;
  Notified : bool;
  RecoveryNotified : bool
}.

Definition set_ID (v : N) (i : t) : t :=
  mk v (MonitorID i) (StartedAt i) (ResolvedAt i) (ErrorMessage i)
     (Notified i) (RecoveryNotified i).
Definition set_ResolvedAt (v : option Time) (i : t) : t :=
  mk (ID i) (MonitorID i) (StartedAt i) v (ErrorMessage i)
     (Notified i) (RecoveryNotified i).
Definition set_ErrorMessage (v : string) (i : t) : t :=
  mk (ID i) (MonitorID i) (StartedAt i) (ResolvedAt i) v
     (Notified i) (RecoveryNotified i).
Definition set_RecoveryNotified (v : bool) (i : t) : t :=
  mk (ID i) (MonitorID i) (StartedAt i) (ResolvedAt i) (ErrorMessage i)
     (Notified i) v.

(** [func (i *Incident) IsResolved() bool] *)
Definition IsResolved (i : t) : bool :=
  match ResolvedAt i with Some _ => true | None => false end.
End Incident.

(** ** The Go library functions the parsers call

    [strings.Split], [strings.TrimSpace], [fmt.Sscanf] with the verb
    [%d], and the regular-expression match of a quoted keyword. *)

Definition byte (n : N) (c : ascii) : bool := N.eqb (N_of_ascii c) n.

Definition byte_in (lo hi : N) (c : ascii) : bool :=
  N.leb lo (N_of_ascii c) && N.leb (N_of_ascii c) hi.

Module strings.

(** [strings.Split(s, sep)] for a separator of one byte: the pieces
    between the separators, one more than there are separators. *)
Fixpoint Split (s : string) (sep : ascii) : list string :=
  match s with
  | EmptyString => [""]
  | String c s' =>
      if Ascii.eqb c sep then "" :: Split s' sep
      else match Split s' sep with
           | p :: ps => String c p :: ps
           | [] => [String c ""]
           end
  end.

(** [strings.Join(parts, sep)] *)
Fixpoint Join (parts : list string) (sep : string) : string :=
  match parts with
  | [] => ""
  | [p] => p
  | p :: ps => p ++ sep ++ Join ps sep
  end.

(** The white space of [unicode.IsSpace], by its UTF-8 encodings: the
    six ASCII characters of [asciiSpace], U+0085 and U+00A0 on two
    bytes, and U+1680, U+2000 to U+200A, U+2028, U+2029, U+202F, U+205F
    and U+3000 on three. *)
Definition asciiSpace (c : ascii) : bool :=
  byte_in 9 13 c || byte 32 c.

Definition space2 (a b : ascii) : bool :=
  byte 194 a && (byte 133 b || byte 160 b).

Definition space3 (a b c : ascii) : bool :=
  (byte 225 a && byte 154 b && byte 128 c)
  || (byte 226 a && byte 128 b
      && (byte_in 128 138 c || byte 168 c || byte 169 c || byte 175 c))
  || (byte 226 a && byte 129 b && byte 159 c)
  || (byte 227 a && byte 128 b && byte 128 c).

(** Drop white-space characters from the front of a byte sequence, the
    encodings being recognised by [two] and [three]. *)
Fixpoint trim_front (two : ascii → ascii → bool)
    (three : ascii → ascii → ascii → bool) (s : list ascii) : list ascii :=
  match s with
  | [] => []
  | a :: s1 =>
      if asciiSpace a then trim_front two three s1
      else match s1 with
           | [] => s
           | b :: s2 =>
               if two a b then trim_front two three s2
               else match s2 with
                    | [] => s
                    | c :: s3 =>
                        if three a b c then trim_front two three s3 else s
                    end
           end
  end.

(** [strings.TrimLeftFunc(s, unicode.IsSpace)] *)
Definition trim_left (s : list ascii) : list ascii :=
  trim_front space2 space3 s.

(** [strings.TrimRightFunc(s, unicode.IsSpace)]: the same scan from the
    last byte backwards, where the encodings are met in reverse. *)
Definition trim_right (s : list ascii) : list ascii :=
  rev (trim_front (λ b a, space2 a b) (λ c b a, space3 a b c) (rev s)).

(** [strings.TrimSpace(s)] *)
Definition TrimSpace (s : string) : string :=
  string_of_list_ascii (trim_right (trim_left (list_ascii_of_string s))).

End strings.

Module fmt.

Definition is_digit (c : ascii) : bool := byte_in 48 57 c.

Definition digit_value (c : ascii) : Z := Z.of_N (N_of_ascii c) - 48.

(** The run of decimal digits at the front of [s], as a number on top
    of [acc]. *)
Fixpoint scanNumber (s : string) (acc : Z) : Z :=
  match s with
  | EmptyString => acc
  | String c s' =>
      if is_digit c then scanNumber s' (10 * acc + digit_value c) else acc
  end.

(** [fmt.Sscanf(p, "%d", &code)] on a string that does not begin with
    white space: an optional sign, then at least one decimal digit, read
    up to the first byte that is not a digit; what follows is left
    unread.  [None] when there is no digit to read or when the number
    does not fit an [int], in which cases [code] is not assigned. *)
Definition Sscanf_d (p : string) : option Z :=
  let '(negative, rest) :=
    match p with
    | String c r =>
        if byte 43 c then (false, r)
        else if byte 45 c then (true, r)
        else (false, p)
    | EmptyString => (false, p)
    end in
  match rest with
  | String c _ =>
      if is_digit c then
        let v := scanNumber rest 0 in
        let i := if negative then - v else v in
        if (minInt64 <=? i) && (i <=? maxInt64) then Some i else None
      else None
  | EmptyString => None
  end.

(** [fmt.Sprintf("%d", i)] *)
Definition Sprint_d (i : Z) : string :=
  DecimalString.NilZero.string_of_int (Z.to_int i).

(** [fmt.Sprintf("%v", codes)] for a slice of integers. *)
Definition Sprint_v (codes : list Z) : string :=
  "[" ++ strings.Join (map Sprint_d codes) " " ++ "]".

End fmt.

Module regexp.

(** Lower case of an ASCII letter; other bytes are left as they are. *)
Definition fold_case (c : ascii) : ascii :=
  if byte_in 65 90 c then ascii_of_N (N_of_ascii c + 32) else c.

Fixpoint has_prefix_fold (keyword body : string) : bool :=
  match keyword, body with
  | EmptyString, _ => true
  | String _ _, EmptyString => false
  | String k keyword', String b body' =>
      Ascii.eqb (fold_case k) (fold_case b)
      && has_prefix_fold keyword' body'
  end.

(** [regexp.MatchString("(?i)" + regexp.QuoteMeta(keyword), body)]
    for a keyword and a body of ASCII characters.  The quoted keyword
    is then a pattern that compiles, so that the call reports no error,
    and a literal: it is searched anywhere in the body, a letter A to Z
    matching its lower case.  Outside ASCII the library folds the case
    of other letters too and refuses a keyword that is not UTF-8; what
    is proved below of the result of a match is proved of ASCII
    keywords and bodies. *)
Fixpoint MatchString_quoted_fold (keyword body : string) : bool :=
  has_prefix_fold keyword body
  || match body with
     | EmptyString => false
     | String _ body' => MatchString_quoted_fold keyword body'
     end.

End regexp.

(** ** internal/storage: the parsers of the monitor's configuration *)

Module storage.

(** One turn of the loop of [ParseExpectedCodes]: [code] starts at [0]
    and is kept only if the scan leaves it positive. *)
Definition scan_code (p : string) : Z :=
  default 0 (fmt.Sscanf_d (strings.TrimSpace p)).

Definition ParseExpectedCodes (codes : string) : list Z :=
  if String.eqb codes "" then [200]
  else
    let parts := strings.Split codes ","%char in
    let result :=
      foldl (λ result p,
               let code := scan_code p in
               if 0 <? code then result ++ [code] else result)
            [] parts in
    if Nat.eqb (length result) 0 then [200] else result.

Definition ParseKeywords (keywords : string) : list string :=
  if String.eqb keywords "" then []
  else
    let parts := strings.Split keywords ","%char in
    foldl (λ result p,
             let p := strings.TrimSpace p in
             if negb (String.eqb p "") then result ++ [p] else result)
          [] parts.

End storage.

(** ** The record store

    Three tables, each a list of rows in primary-key order, and for each
    table the largest key it has given out: the keys are
    [AUTOINCREMENT], so that [Create] gives a row a key larger than
    every key of the table and than every key the table ever had, the
    keys of deleted rows among them.  The operations mirror the methods
    of [storage.Database]; they are the error-free runs of the queries
    ([GetActiveIncident] and [GetMonitor] alone report a missing row,
    as [None]). *)

Record Store := {
  monitor_rows : list Monitor.t;
  check_result_rows : list CheckResult.t;
  incident_rows : list Incident.t;
  monitor_seq : N;
  check_result_seq : N;
  incident_seq : N
}.

Definition largest (keys : list N) : N := foldr N.max 0%N keys.

(** The key of a new row of a table whose sequence is at [seq] and whose
    rows have the keys [keys]. *)
Definition next_key (seq : N) (keys : list N) : N :=
  N.succ (N.max seq (largest keys)).

(** A store in which no table has lost the row of its largest key: the
    sequences are at the largest keys. *)
Definition mkStore (ms : list Monitor.t) (cs : list CheckResult.t)
    (incidents : list Incident.t) : Store :=
  Build_Store ms cs incidents
    (largest (map Monitor.ID ms)) (largest (map CheckResult.ID cs))
    (largest (map Incident.ID incidents)).

Module Database.

(** [d.db.Create(cr)] *)
Definition CreateCheckResult (cr : CheckResult.t) (d : Store) : Store :=
  let key :=
    next_key (check_result_seq d)
      (map CheckResult.ID (check_result_rows d)) in
  Build_Store (monitor_rows d)
    (check_result_rows d ++ [CheckResult.set_ID key cr]) (incident_rows d)
    (monitor_seq d) key (incident_seq d).

(** [d.db.Save(m)] for a monitor that has its row in the store: every
    column of the row whose key is [m.ID] is overwritten with the fields
    of [m].  (For a value whose key is in no row [Save] inserts a row;
    that case is left out, and what is proved of the rows of a monitor
    is proved of a monitor that has one.) *)
Definition UpdateMonitor (m : Monitor.t) (d : Store) : Store :=
  Build_Store
    (map (fun r => if N.eqb (Monitor.ID r) (Monitor.ID m) then m else r)
         (monitor_rows d))
    (check_result_rows d) (incident_rows d)
    (monitor_seq d) (check_result_seq d) (incident_seq d).

(** [d.db.Where("enabled = ?", true).Order("id asc").Find(&monitors)] *)
Definition ListEnabledMonitors (d : Store) : list Monitor.t :=
  List.filter Monitor.Enabled (monitor_rows d).

(** [d.db.Create(i)] *)
Definition CreateIncident (i : Incident.t) (d : Store) : Store :=
  let key :=
    next_key (incident_seq d) (map Incident.ID (incident_rows d)) in
  Build_Store (monitor_rows d) (check_result_rows d)
    (incident_rows d ++ [Incident.set_ID key i])
    (monitor_seq d) (check_result_seq d) key.

Definition is_active (monitorID : N) (i : Incident.t) : bool :=
  N.eqb (Incident.MonitorID i) monitorID && negb (Incident.IsResolved i).

(** [d.db.Where("monitor_id = ? AND resolved_at IS NULL", monitorID).First(&i)]:
    the matching row of least key, [None] when no row matches. *)
Definition GetActiveIncident (monitorID : N) (d : Store)
  : option Incident.t :=
  List.find (is_active monitorID) (incident_rows d).

(** [d.db.Model(&Incident{}).Where("id = ?", id).Update("resolved_at", now)] *)
Definition ResolveIncident (id : N) (now : Time) (d : Store) : Store :=
  Build_Store (monitor_rows d) (check_result_rows d)
    (map (fun r => if N.eqb (Incident.ID r) id
                   then Incident.set_ResolvedAt (Some now) r else r)
         (incident_rows d))
    (monitor_seq d) (check_result_seq d) (incident_seq d).

(** [d.db.Save(i)] for an incident that has its row in the store, as
    every incident the checker saves has, having read it just before:
    every column of the row, the resolution time included, is
    overwritten with the fields of [i]. *)
Definition UpdateIncident (i : Incident.t) (d : Store) : Store :=
  Build_Store (monitor_rows d) (check_result_rows d)
    (map (fun r => if N.eqb (Incident.ID r) (Incident.ID i) then i else r)
         (incident_rows d))
    (monitor_seq d) (check_result_seq d) (incident_seq d).

(** The unresolved incidents of a monitor. *)
Definition active_incidents (monitorID : N) (d : Store)
  : list Incident.t :=
  List.filter (is_active monitorID) (incident_rows d).

(** [d.db.Order("id asc").Find(&monitors)] *)
Definition ListMonitors (d : Store) : list Monitor.t := monitor_rows d.

(** [d.db.First(&m, id)]; [None] is the error of a missing row. *)
Definition GetMonitor (id : N) (d : Store) : option Monitor.t :=
  List.find (λ r, N.eqb (Monitor.ID r) id) (monitor_rows d).

(** [DeleteMonitor]: the check results and the incidents of the monitor
    are deleted, then the monitor.  The sequences stay: the keys of the
    deleted rows are not given out again. *)
Definition DeleteMonitor (id : N) (d : Store) : Store :=
  Build_Store
    (List.filter (λ r, negb (N.eqb (Monitor.ID r) id)) (monitor_rows d))
    (List.filter (λ r, negb (N.eqb (CheckResult.MonitorID r) id))
       (check_result_rows d))
    (List.filter (λ r, negb (N.eqb (Incident.MonitorID r) id))
       (incident_rows d))
    (monitor_seq d) (check_result_seq d) (incident_seq d).

(** [d.db.Model(&Monitor{}).Where("id = ?", id).Update("enabled", enabled)] *)
Definition ToggleMonitor (id : N) (enabled : bool) (d : Store) : Store :=
  Build_Store
    (map (λ r, if N.eqb (Monitor.ID r) id
               then Monitor.set_Enabled enabled r else r)
         (monitor_rows d))
    (check_result_rows d) (incident_rows d)
    (monitor_seq d) (check_result_seq d) (incident_seq d).

(** The order of [Order("created_at desc")]. *)
Definition newer (a b : CheckResult.t) : Prop :=
  CheckResult.CreatedAt b ≤ CheckResult.CreatedAt a.

#[global] Instance newer_dec : RelDecision newer :=
  λ a b, decide (CheckResult.CreatedAt b ≤ CheckResult.CreatedAt a).

(** [GetRecentCheckResults], for a positive [limit]: the check results
    of the monitor, the newest first, [limit] of them at most.  Among
    results of one creation time the database is free to choose the
    order; the sort chooses one. *)
Definition GetRecentCheckResults (monitorID : N) (limit : nat) (d : Store)
  : list CheckResult.t :=
  take limit
    (merge_sort newer
       (List.filter (λ r, N.eqb (CheckResult.MonitorID r) monitorID)
          (check_result_rows d))).

(** The two counts of [GetCheckResultStats]: the check results of the
    monitor created since [since], and the successful ones among them.
    The average of the response times, a [float64], is left out. *)
Definition counted (monitorID : N) (since : Time) (r : CheckResult.t)
  : bool :=
  N.eqb (CheckResult.MonitorID r) monitorID
  && (since <=? CheckResult.CreatedAt r).

Definition GetCheckResultStats (monitorID : N) (since : Time) (d : Store)
  : nat * nat :=
  (length (List.filter (counted monitorID since) (check_result_rows d)),
   length (List.filter
             (λ r, counted monitorID since r && CheckResult.Success r)
             (check_result_rows d))).

End Database.

(** ** The notifier and the world

    [NotifyDown] and [NotifyRecovery] are fire-and-forget; what matters
    is which calls are made and when.  A [Sent] entry keeps the call with
    two clock readings of the evaluation that made it: [started], the
    [time.Now()] the evaluation opened with, and [at_time], the last
    reading taken before the call. *)

Inductive Notification :=
| NotifyDown (name url errorMsg : string)
| NotifyRecovery (name url : string).

Record Sent := mkSent {
  started : Time;
  at_time : Time;
  call : Notification
}.

Definition is_down_call (s : Sent) : bool :=
  match call s with NotifyDown _ _ _ => true | NotifyRecovery _ _ => false end.

(** [checker.monitorState].  The stop channel and the pointer to the
    monitor belong to the goroutine that runs the checks; of the ticker
    its period is kept.  The status tracker reads and writes
    [lastNotified] alone. *)
Record monitorState := mkMonitorState {
  ticker : Duration;
  lastNotified : Time
}.

Record World := mkWorld {
  db : Store;
  monitors : gmap N monitorState;
  sent : list Sent
}.

(** State passing, with stdpp's monad notation. *)
Definition M (A : Type) : Type := World → A * World.

#[global] Instance M_ret : MRet M := λ A (a : A) (w : World), (a, w).
#[global] Instance M_bind : MBind M :=
  λ A B (f : A → M B) (c : M A) (w : World),
    let r := c w in f r.1 r.2.

Definition on_db (f : Store → Store) : M unit :=
  λ w, (tt, mkWorld (f (db w)) (monitors w) (sent w)).

Definition read_db {A : Type} (f : Store → A) : M A :=
  λ w, (f (db w), w).

Definition notify (t0 t1 : Time) (n : Notification) : M unit :=
  λ w, (tt, mkWorld (db w) (monitors w) (sent w ++ [mkSent t0 t1 n])).

Definition get_monitorState (id : N) : M (option monitorState) :=
  λ w, (monitors w !! id, w).

Definition set_lastNotified (id : N) (t : Time) : M unit :=
  λ w, (tt, mkWorld (db w)
              (alter (λ ms, mkMonitorState (ticker ms) t) id (monitors w))
              (sent w)).

Definition on_monitors (f : gmap N monitorState → gmap N monitorState)
  : M unit :=
  λ w, (tt, mkWorld (db w) (f (monitors w)) (sent w)).

Definition skip : M unit := mret tt.

(** ** internal/checker: the status tracker *)

Module checker.

(** [recordSuccess].  [m] is the monitor behind the pointer the
    goroutine holds; the updated monitor is returned.  [now] is the
    [time.Now()] the function opens with, [later] the clock reading
    [ResolveIncident] takes. *)
Definition recordSuccess (m : Monitor.t) (statusCode responseTime : Z)
    (now later : Time) : M Monitor.t :=
  let result :=
    CheckResult.mk 0%N now (Monitor.ID m) statusCode responseTime true "" in
  _ ← on_db (Database.CreateCheckResult result);
  let wasDown := String.eqb (Monitor.CurrentStatus m) "down" in
  let m := Monitor.set_CurrentStatus "up" m in
  let m := Monitor.set_ConsecutiveFails 0 m in
  let m := Monitor.set_LastCheckAt (Some now) m in
  _ ← on_db (Database.UpdateMonitor m);
  _ ← (if wasDown then
         found ← read_db (Database.GetActiveIncident (Monitor.ID m));
         match found with
         | Some incident =>
             _ ← on_db (Database.ResolveIncident (Incident.ID incident) later);
             if negb (Incident.RecoveryNotified incident) then
               _ ← notify now later
                     (NotifyRecovery (Monitor.Name m) (Monitor.URL m));
               let incident := Incident.set_RecoveryNotified true incident in
               on_db (Database.UpdateIncident incident)
             else skip
         | None => skip
         end
       else skip);
  mret m.

(** The cooldown gate shared by the two branches of [recordFailure]:
    [time.Since(ms.lastNotified).Seconds() >= config.NotificationCooldown],
    then the call and [ms.lastNotified = now]. *)
Definition notifyDown_gated (ms : monitorState) (m : Monitor.t)
    (errorMsg : string) (now later : Time) : M unit :=
  if Seconds_ge (Since later (lastNotified ms)) config.NotificationCooldown
  then
    _ ← notify now later
          (NotifyDown (Monitor.Name m) (Monitor.URL m) errorMsg);
    set_lastNotified (Monitor.ID m) now
  else skip.

(** [recordFailure].  [errorMsg] is [err.Error()]; [later] is the clock
    reading of [time.Since]. *)
Definition recordFailure (m : Monitor.t) (statusCode : Z)
    (errorMsg : string) (now later : Time) : M Monitor.t :=
  let result :=
    CheckResult.mk 0%N now (Monitor.ID m) statusCode 0 false errorMsg in
  _ ← on_db (Database.CreateCheckResult result);
  let m := Monitor.set_ConsecutiveFails
             (wrap64 (Monitor.ConsecutiveFails m + 1)) m in
  let m := Monitor.set_LastCheckAt (Some now) m in
  m ← (if config.DefaultMaxFailures <=? Monitor.ConsecutiveFails m then
         let wasUp := negb (String.eqb (Monitor.CurrentStatus m) "down") in
         let m := Monitor.set_CurrentStatus "down" m in
         _ ← (if wasUp then
                let incident :=
                  Incident.mk 0%N (Monitor.ID m) now None errorMsg
                              false false in
                _ ← on_db (Database.CreateIncident incident);
                ms ← get_monitorState (Monitor.ID m);
                match ms with
                | Some ms => notifyDown_gated ms m errorMsg now later
                | None => skip
                end
              else
                found ← read_db (Database.GetActiveIncident (Monitor.ID m));
                match found with
                | Some incident =>
                    let incident :=
                      Incident.set_ErrorMessage errorMsg incident in
                    _ ← on_db (Database.UpdateIncident incident);
                    ms ← get_monitorState (Monitor.ID m);
                    match ms with
                    | Some ms => notifyDown_gated ms m errorMsg now later
                    | None => skip
                    end
                | None => skip
                end);
         mret m
       else mret m);
  _ ← on_db (Database.UpdateMonitor m);
  mret m.

(** What [performCheck] hands to the status tracker. *)
Inductive Outcome :=
| Succeeded (statusCode responseTime : Z)
| Failed (statusCode : Z) (errorMsg : string).

(** One evaluation: the outcome of a probe with the two clock readings
    taken while it is recorded. *)
Record Tick := mkTick {
  outcome : Outcome;
  now : Time;
  later : Time
}.

Definition evaluate (m : Monitor.t) (k : Tick) : M Monitor.t :=
  match outcome k with
  | Succeeded statusCode responseTime =>
      recordSuccess m statusCode responseTime (now k) (later k)
  | Failed statusCode errorMsg =>
      recordFailure m statusCode errorMsg (now k) (later k)
  end.

(** The evaluations of one monitor, in the order its goroutine makes
    them. *)
Fixpoint run (m : Monitor.t) (ks : list Tick) : M Monitor.t :=
  match ks with
  | [] => mret m
  | k :: ks => m' ← evaluate m k; run m' ks
  end.

(** *** The probe executor *)

(** What the HTTP exchange of [performCheck] comes to: the request
    cannot be built, [client.Do] fails, the body cannot be read, or a
    response arrives with its status code, the elapsed milliseconds and
    its body. *)
Inductive Exchange :=
| RequestError (err : string)
| DoError (err : string)
| ReadError (statusCode : Z) (err : string)
| Response (statusCode responseTime : Z) (body : string).

(** The timeout [performCheck] gives the context of the request:
    [time.Duration(m.Timeout) * time.Second], replaced by the default
    when it is [0]. *)
Definition request_timeout (m : Monitor.t) : Duration :=
  let timeout := wrap64 (Monitor.Timeout m * Second) in
  if timeout =? 0 then wrap64 (config.DefaultTimeout * Second) else timeout.

(** The [Timeout] of the client [New] gives the checker, which every
    request goes through. *)
Definition client_Timeout : Duration := 30 * Second.

(** The time the exchange of [performCheck] is given: it is cut when
    the context of the request or the client times out, whichever
    comes first. *)
Definition deadline (m : Monitor.t) : Duration :=
  Z.min (request_timeout m) client_Timeout.

(** The loop over [expectedCodes]. *)
Definition statusOK (statusCode : Z) (expectedCodes : list Z) : bool :=
  existsb (Z.eqb statusCode) expectedCodes.

(** The loop over the keywords: the first keyword for which the match
    fails, if there is one. *)
Fixpoint missing_keyword (keywords : list string) (bodyStr : string)
  : option string :=
  match keywords with
  | [] => None
  | keyword :: keywords =>
      if negb (regexp.MatchString_quoted_fold keyword bodyStr)
      then Some keyword
      else missing_keyword keywords bodyStr
  end.

(** The checks [performCheck] makes on the exchange, in its order, each
    ending in the call of [recordFailure] or of [recordSuccess] that
    [Outcome] stands for. *)
Definition classify (m : Monitor.t) (x : Exchange) : Outcome :=
  match x with
  | RequestError err => Failed 0 err
  | DoError err => Failed 0 err
  | ReadError statusCode err =>
      Failed statusCode ("failed to read response body: " ++ err)
  | Response statusCode responseTime body =>
      let expectedCodes :=
        storage.ParseExpectedCodes (Monitor.ExpectedCodes m) in
      if negb (statusOK statusCode expectedCodes) then
        Failed statusCode
          ("unexpected status code: got " ++ fmt.Sprint_d statusCode
           ++ ", expected one of " ++ fmt.Sprint_v expectedCodes)
      else
        let keywords := storage.ParseKeywords (Monitor.Keywords m) in
        match missing_keyword keywords body with
        | Some keyword =>
            Failed statusCode
              ("keyword '" ++ keyword ++ "' not found in response")
        | None => Succeeded statusCode responseTime
        end
  end.

(** [performCheck]: [http] is the network, asked with the timeout of
    the client, the timeout of the context and the URL; [now] and
    [later] are the clock readings of the recording. *)
Definition performCheck (http : Duration → Duration → string → Exchange)
    (m : Monitor.t) (now later : Time) : M Monitor.t :=
  let x := http client_Timeout (request_timeout m) (Monitor.URL m) in
  evaluate m (mkTick (classify m x) now later).

(** *** The scheduler's map *)

(** The period [startMonitor] gives the ticker. *)
Definition ticker_interval (m : Monitor.t) : Duration :=
  let interval := wrap64 (Monitor.CheckInterval m * Second) in
  if interval <? Second
  then wrap64 (config.DefaultCheckInterval * Second)
  else interval.

(** What [go c.runMonitor(ms)] starts: the goroutine of a monitor,
    which holds the pointer to the monitor and the ticker. *)
Record Goroutine := mkGoroutine {
  monitor : Monitor.t;
  period : Duration
}.

(** [startMonitor]: a fresh [monitorState], its [lastNotified] the zero
    [Time], replaces the entry of the monitor, and the goroutine of the
    monitor is started; it is the result.  What the goroutine does it
    does on its own, after this: see [runMonitor]. *)
Definition startMonitor (m : Monitor.t) : M Goroutine :=
  _ ← on_monitors
        (insert (Monitor.ID m) (mkMonitorState (ticker_interval m) 0));
  mret (mkGoroutine m (ticker_interval m)).

(** [runMonitor]: the goroutine checks its monitor at once, and then
    again at every tick of its ticker until it is told to stop.
    [first] and [ticks] are the clock readings, [now] and [later], of
    the checks it makes. *)
Fixpoint check_at_ticks (http : Duration → Duration → string → Exchange)
    (m : Monitor.t) (ticks : list (Time * Time)) : M Monitor.t :=
  match ticks with
  | [] => mret m
  | tick :: ticks =>
      m' ← performCheck http m tick.1 tick.2;
      check_at_ticks http m' ticks
  end.

Definition runMonitor (http : Duration → Duration → string → Exchange)
    (g : Goroutine) (first : Time * Time) (ticks : list (Time * Time))
  : M Monitor.t :=
  m ← performCheck http (monitor g) first.1 first.2;
  check_at_ticks http m ticks.

(** [RemoveMonitor], without the signal to the goroutine. *)
Definition RemoveMonitor (id : N) : M unit :=
  on_monitors (delete id).

(** [UpdateMonitor]; the result is the goroutine it starts, if it
    starts one. *)
Definition UpdateMonitor (m : Monitor.t) : M (option Goroutine) :=
  _ ← RemoveMonitor (Monitor.ID m);
  if Monitor.Enabled m then g ← startMonitor m; mret (Some g)
  else mret None.

(** [AddMonitor] *)
Definition AddMonitor (m : Monitor.t) : M (option Goroutine) :=
  if Monitor.Enabled m then g ← startMonitor m; mret (Some g)
  else mret None.

(** The loop of [Start] over the enabled monitors. *)
Fixpoint start_each (ms : list Monitor.t) : M (list Goroutine) :=
  match ms with
  | [] => mret []
  | m :: ms =>
      g ← startMonitor m;
      gs ← start_each ms;
      mret (g :: gs)
  end.

(** [Start]: a goroutine is started for every enabled monitor of the
    store; the result is the goroutines, in the order in which they
    are started. *)
Definition Start : M (list Goroutine) :=
  enabled ← read_db Database.ListEnabledMonitors;
  start_each enabled.

End checker.

(** ** internal/tray: the tray check loop *)

Module tray.

(** What [checkMonitor] returns. *)
Record Probe := mkProbe {
  statusCode : Z;
  responseTime : Z;
  checkErr : option string
}.

(** The status bookkeeping of the two branches without error. *)
Definition mark_up (mon : Monitor.t) (now : Time) : M Monitor.t :=
  let wasDown := String.eqb (Monitor.CurrentStatus mon) "down" in
  let mon := Monitor.set_CurrentStatus "up" mon in
  let mon := Monitor.set_ConsecutiveFails 0 mon in
  _ ← (if wasDown
       then notify now now
              (NotifyRecovery (Monitor.Name mon) (Monitor.URL mon))
       else skip);
  mret mon.

(** The body of the loop of [checkAllMonitors] for one monitor, the
    menu labels and the counters of the summary apart.  [mon] is the
    loop's copy of the row; [now] is the [time.Now()] of the turn. *)
Definition check_one (mon : Monitor.t) (p : Probe) (now : Time) : M unit :=
  let result :=
    CheckResult.mk 0%N now (Monitor.ID mon) (statusCode p) (responseTime p)
      (match checkErr p with None => true | Some _ => false end)
      (match checkErr p with None => "" | Some e => e end) in
  _ ← on_db (Database.CreateCheckResult result);
  mon ← match checkErr p with
        | Some e =>
            let mon := Monitor.set_ConsecutiveFails
                         (wrap64 (Monitor.ConsecutiveFails mon + 1)) mon in
            if config.DefaultMaxFailures <=? Monitor.ConsecutiveFails mon
            then
              let wasUp :=
                negb (String.eqb (Monitor.CurrentStatus mon) "down") in
              let mon := Monitor.set_CurrentStatus "down" mon in
              _ ← (if wasUp
                   then notify now now
                          (NotifyDown (Monitor.Name mon) (Monitor.URL mon) e)
                   else skip);
              mret mon
            else mret mon
        | None =>
            if 1000 <? responseTime p then mark_up mon now
            else mark_up mon now
        end;
  let mon := Monitor.set_LastCheckAt (Some now) mon in
  on_db (Database.UpdateMonitor mon).

(** One call of [checkAllMonitors]: [probe] is the answer of
    [checkMonitor] for each monitor, [clock] the reading of the clock
    in each turn of the loop. *)
Record Round := mkRound {
  probe : Monitor.t → Probe;
  clock : nat → Time
}.

Fixpoint check_each (r : Round) (i : nat) (mons : list Monitor.t)
  : M unit :=
  match mons with
  | [] => skip
  | mon :: mons =>
      _ ← check_one mon (probe r mon) (clock r i);
      check_each r (S i) mons
  end.

Definition checkAllMonitors (r : Round) : M unit :=
  mons ← read_db Database.ListEnabledMonitors;
  if Nat.eqb (length mons) 0 then skip else check_each r 0 mons.

(** [runChecker]: one call after the other. *)
Fixpoint runChecker (rs : list Round) : M unit :=
  match rs with
  | [] => skip
  | r :: rs => _ ← checkAllMonitors r; runChecker rs
  end.

(** What the HTTP exchange of [checkMonitor] comes to; the elapsed
    milliseconds are known once a response has arrived. *)
Inductive Exchange :=
| RequestError (err : string)
| DoError (err : string)
| ReadError (statusCode responseTime : Z) (err : string)
| Response (statusCode responseTime : Z) (body : string).

(** The timeout of [checkMonitor], which it gives to its client and to
    the context of the request alike. *)
Definition checkMonitor_timeout (mon : Monitor.t) : Duration :=
  let timeout := wrap64 (Monitor.Timeout mon * Second) in
  if timeout =? 0 then wrap64 (config.DefaultTimeout * Second) else timeout.

(** The loop of [checkMonitor] over the keywords. *)
Fixpoint missing_keyword (keywords : list string) (bodyStr : string)
  : option string :=
  match keywords with
  | [] => None
  | keyword :: keywords =>
      if negb (regexp.MatchString_quoted_fold keyword bodyStr)
      then Some keyword
      else missing_keyword keywords bodyStr
  end.

(** [checkMonitor], on the exchange. *)
Definition checkMonitor (mon : Monitor.t) (x : Exchange) : Probe :=
  match x with
  | RequestError err => mkProbe 0 0 (Some err)
  | DoError err => mkProbe 0 0 (Some err)
  | ReadError statusCode responseTime err =>
      mkProbe statusCode responseTime (Some ("failed to read body: " ++ err)%string)
  | Response statusCode responseTime body =>
      let expectedCodes :=
        storage.ParseExpectedCodes (Monitor.ExpectedCodes mon) in
      if negb (existsb (Z.eqb statusCode) expectedCodes) then
        mkProbe statusCode responseTime
          (Some ("status " ++ fmt.Sprint_d statusCode)%string)
      else
        let keywords := storage.ParseKeywords (Monitor.Keywords mon) in
        match missing_keyword keywords body with
        | Some keyword =>
            mkProbe statusCode responseTime
              (Some ("keyword '" ++ keyword ++ "' not found")%string)
        | None => mkProbe statusCode responseTime None
        end
  end.

(** The flags and the counters of [checkAllMonitors]. *)
Record Tally := mkTally {
  hasDown : bool;
  hasSlow : bool;
  downCount : Z;
  slowCount : Z;
  upCount : Z
}.

(** What one turn of the loop does to them. *)
Definition tally_one (t : Tally) (p : Probe) : Tally :=
  match checkErr p with
  | Some _ =>
      mkTally true (hasSlow t) (wrap64 (downCount t + 1)) (slowCount t)
        (upCount t)
  | None =>
      if 1000 <? responseTime p
      then mkTally (hasDown t) true (downCount t)
             (wrap64 (slowCount t + 1)) (upCount t)
      else mkTally (hasDown t) (hasSlow t) (downCount t) (slowCount t)
             (wrap64 (upCount t + 1))
  end.

Definition tally (ps : list Probe) : Tally :=
  foldl tally_one (mkTally false false 0 0 0) ps.

(** The status and the message [checkAllMonitors] hands to
    [updateStatus]. *)
Definition summary (ps : list Probe) : string * string :=
  if Nat.eqb (length ps) 0 then ("green", "No monitors configured")
  else
    let t := tally ps in
    if hasDown t then
      ("red",
       (fmt.Sprint_d (downCount t) ++ " down, " ++ fmt.Sprint_d (upCount t)
        ++ " up")%string)
    else if hasSlow t then
      ("yellow",
       (fmt.Sprint_d (slowCount t) ++ " slow, " ++ fmt.Sprint_d (upCount t)
        ++ " up")%string)
    else
      ("green",
       ("All " ++ fmt.Sprint_d (upCount t) ++ " monitors operational")%string).

(** The menu.  [loadMonitors], called once when the tray is ready,
    adds one item for each enabled monitor, its title the icon of the
    status and the name; [t.mMonitors] is kept here by the titles of
    its items. *)
Definition statusIcon (mon : Monitor.t) : string :=
  if String.eqb (Monitor.CurrentStatus mon) "up" then "✓"
  else if String.eqb (Monitor.CurrentStatus mon) "down" then "✗"
  else "○".

Definition loadMonitors (mons : list Monitor.t) : list string :=
  map (λ mon, (statusIcon mon ++ " " ++ Monitor.Name mon)%string) mons.

(** The label [checkAllMonitors] makes for a monitor in its turn. *)
Definition label (mon : Monitor.t) (p : Probe) : string :=
  match checkErr p with
  | Some _ => ("✗ " ++ Monitor.Name mon ++ " (DOWN)")%string
  | None =>
      if 1000 <? responseTime p
      then ("◐ " ++ Monitor.Name mon ++ " ("
            ++ fmt.Sprint_d (responseTime p) ++ "ms)")%string
      else ("✓ " ++ Monitor.Name mon ++ " ("
            ++ fmt.Sprint_d (responseTime p) ++ "ms)")%string
  end.

(** What the loop of [checkAllMonitors] does to the titles:
    [if i < len(t.mMonitors) { t.mMonitors[i].SetTitle(label) }] in the
    turn of index [i]. *)
Fixpoint set_titles (r : Round) (i : nat) (mons : list Monitor.t)
    (titles : list string) : list string :=
  match mons with
  | [] => titles
  | mon :: mons =>
      set_titles r (S i) mons (<[i := label mon (probe r mon)]> titles)
  end.

(** The defaults [SettingsServer.handleAddMonitor] puts in the place
    of the interval and of the timeout of a request. *)
Definition handleAddMonitor_interval (interval : Z) : Z :=
  if interval <=? 0 then 60 else interval.

Definition handleAddMonitor_timeout (timeout : Z) : Z :=
  if timeout <=? 0 then 10 else timeout.

(** The request [handleAddMonitor] decodes, and the monitor it hands to
    [CreateMonitor]: [None] when the URL is missing, the answer 400. *)
Module AddRequest.
Record t := mk {
  Name : string;
  URL : string;
  Interval : Z;
  Timeout : Z;
  ExpectedCodes : string;
  Keywords : string
}.
End AddRequest.

Definition handleAddMonitor_monitor (req : AddRequest.t) : option Monitor.t :=
  if String.eqb (AddRequest.URL req) "" then None
  else
    let name :=
      if String.eqb (AddRequest.Name req) "" then AddRequest.URL req
      else AddRequest.Name req in
    let interval := handleAddMonitor_interval (AddRequest.Interval req) in
    let timeout := handleAddMonitor_timeout (AddRequest.Timeout req) in
    let codes :=
      if String.eqb (AddRequest.ExpectedCodes req) "" then "200"
      else AddRequest.ExpectedCodes req in
    Some (Monitor.mk 0 name (AddRequest.URL req) true interval codes
            (AddRequest.Keywords req) timeout "" 0 None).

End tray.

(** ** Sample data

    A monitor with the defaults of the command line, a store that holds
    it, and probes that fail and succeed. *)

Module sample.

Definition api : Monitor.t :=
  Monitor.mk 1 "api" "http://api.test/health" true 60 "200" "" 10 "up" 0 None.

Definition scheduled : gmap N monitorState :=
  {[ 1%N := mkMonitorState (60 * Second) 0 ]}.

Definition world : World :=
  mkWorld (mkStore [api] [] []) scheduled [].

(** A clock reading late in the year 2025, and [s] seconds after it. *)
Definition at_second (s : Z) : Time := (63900000000 + s) * Second.

Definition failing (s : Z) : checker.Tick :=
  checker.mkTick (checker.Failed 503 "unexpected status code: got 503, expected one of [200]")
    (at_second s) (at_second s).

Definition succeeding (s : Z) : checker.Tick :=
  checker.mkTick (checker.Succeeded 200 40) (at_second s) (at_second s).

(** An outage of three failed checks, a recovery, a second outage. *)
Definition two_outages : list checker.Tick :=
  [failing 0; failing 60; failing 120; succeeding 180;
   failing 240; failing 300; failing 360].

(** A failed check with another error text. *)
Definition refused_at (s : Z) : checker.Tick :=
  checker.mkTick (checker.Failed 0 "connection refused")
    (at_second s) (at_second s).

(** The two outages, the second going on for one more failed check. *)
Definition outage_goes_on : list checker.Tick :=
  two_outages ++ [refused_at 420].

(** A failed check whose recording takes a second. *)
Definition failing_slowly (s : Z) : checker.Tick :=
  checker.mkTick (checker.Failed 0 "connection refused")
    (at_second s) (at_second (s + 1)).

(** The same outage, the third check being recorded slowly. *)
Definition slow_outage : list checker.Tick :=
  [failing 0; failing 60; failing_slowly 120; failing 180; failing 240;
   failing 300; failing 360; failing 420].

(** An outage of eight failed checks, a minute apart. *)
Definition long_outage : list checker.Tick :=
  map failing [0; 60; 120; 180; 240; 300; 360; 420].

(** The monitor after two failed checks, and after three. *)
Definition api_failing : Monitor.t :=
  Monitor.set_ConsecutiveFails 2 api.

Definition api_down : Monitor.t :=
  Monitor.set_CurrentStatus "down" (Monitor.set_ConsecutiveFails 3 api).

Definition outage : Incident.t :=
  Incident.mk 1 1 (at_second 120) None "connection refused" false false.

Definition world_down : World :=
  mkWorld (mkStore [api_down] [] [outage]) scheduled [].

(** The monitor with two required keywords. *)
Definition api_keywords : Monitor.t :=
  Monitor.set_Keywords "ok,ready" api.

(** Rounds of the tray loop, thirty seconds apart: three in which the
    probe fails, one in which it succeeds, three more in which it
    fails. *)
Definition refused (s : Z) : tray.Round :=
  tray.mkRound (λ _, tray.mkProbe 0 0 (Some "connection refused"))
               (λ _, at_second s).

Definition answered (s : Z) : tray.Round :=
  tray.mkRound (λ _, tray.mkProbe 200 40 None) (λ _, at_second s).

Definition flapping : list tray.Round :=
  [refused 0; refused 30; refused 60; answered 90;
   refused 120; refused 150; refused 180].

End sample.

(** ** The properties of the notification log *)

(** The cooldown window, as a [Duration]. *)
Definition cooldown : Duration := config.NotificationCooldown * Second.

Definition down_call_for (url : string) (s : Sent) : bool :=
  match call s with
  | NotifyDown _ u _ => String.eqb u url
  | NotifyRecovery _ _ => false
  end.

(** No two [NotifyDown] calls for the monitor at [url] are closer to
    each other than the cooldown window. *)
Definition down_calls_spaced (url : string) (log : list Sent) : Prop :=
  ∀ (i j : nat) (a b : Sent),
    (i < j)%nat → log !! i = Some a → log !! j = Some b →
    down_call_for url a = true → down_call_for url b = true →
    cooldown ≤ at_time b - at_time a.

(** What the gate of the checker gives: a [NotifyDown] call is made at
    least the window after the opening of every evaluation that made
    one before. *)
Definition down_calls_gated (url : string) (log : list Sent) : Prop :=
  ∀ (i j : nat) (a b : Sent),
    (i < j)%nat → log !! i = Some a → log !! j = Some b →
    down_call_for url a = true → down_call_for url b = true →
    cooldown ≤ at_time b - started a.

(** The evaluations open at clock readings that do not go back. *)
Fixpoint opens_after (t : Time) (ks : list checker.Tick) : Prop :=
  match ks with
  | [] => True
  | k :: ks => t ≤ checker.now k ∧ opens_after (checker.now k) ks
  end.

Definition clock_ordered (ks : list checker.Tick) : Prop :=
  match ks with
  | [] => True
  | k :: ks => opens_after (checker.now k) ks
  end.

(** Every evaluation is recorded at the clock reading it opens with. *)
Definition instantaneous (ks : list checker.Tick) : Prop :=
  Forall (λ k, checker.later k = checker.now k) ks.

(** ** The words of the specification about the parsers *)

(** "Case-insensitive substring search", on ASCII text: the keyword
    in lower case occurs in the body in lower case. *)
Definition lower_case (c : ascii) : ascii :=
  let n := N_of_ascii c in
  if (N.leb 65 n && N.leb n 90)%bool then ascii_of_N (n + 32) else c.

Fixpoint to_lower (s : string) : string :=
  match s with
  | EmptyString => EmptyString
  | String c s' => String (lower_case c) (to_lower s')
  end.

Definition occurs_in (keyword body : string) : Prop :=
  ∃ before after : string, body = (before ++ keyword ++ after)%string.

Definition matches (keyword body : string) : Prop :=
  occurs_in (to_lower keyword) (to_lower body).

Definition is_ascii (s : string) : bool :=
  forallb (λ c, N.ltb (N_of_ascii c) 128) (list_ascii_of_string s).

Fixpoint all_digits (s : string) : bool :=
  match s with
  | EmptyString => true
  | String c s' => fmt.is_digit c && all_digits s'
  end.

(** A decimal numeral and its value: an optional sign, then digits, at
    least one, and nothing else. *)
Definition numeral (s : string) : option Z :=
  let '(negative, rest) :=
    match s with
    | String c r =>
        if byte 43 c then (false, r)
        else if byte 45 c then (true, r)
        else (false, s)
    | EmptyString => (false, s)
    end in
  match rest with
  | EmptyString => None
  | String _ _ =>
      if all_digits rest
      then Some (if negative then - fmt.scanNumber rest 0
                 else fmt.scanNumber rest 0)
      else None
  end.

(** The string begins with a number: a digit, after a sign if there is
    one. *)
Definition begins_with_number (s : string) : bool :=
  match s with
  | String c r =>
      if byte 43 c || byte 45 c
      then match r with String d _ => fmt.is_digit d | EmptyString => false end
      else fmt.is_digit c
  | EmptyString => false
  end.

(** The entries of a list of codes, between the commas. *)
Definition entries (codes : string) : list string :=
  strings.Split codes ","%char.

(** The value of an entry that is a positive integer, the white space
    around it apart; the other entries, which are not numbers or are
    not positive, are the invalid ones. *)
Definition positive_entry (e : string) : option Z :=
  match numeral (strings.TrimSpace e) with
  | Some v => if 0 <? v then Some v else None
  | None => None
  end.

(** The same, for the integers that fit an [int]. *)
Definition positive_int_entry (e : string) : option Z :=
  match positive_entry e with
  | Some v => if v <=? maxInt64 then Some v else None
  | None => None
  end.

(** The positive codes read from the entries, in their order. *)
Definition positive_codes (es : list string) : list Z :=
  List.filter (λ code, 0 <? code) (map storage.scan_code es).

(** An entry that, white space apart, does not begin with a number or is
    a number that is not positive. *)
Definition unreadable_or_nonpositive (e : string) : Prop :=
  begins_with_number (strings.TrimSpace e) = false
  ∨ ∃ v, numeral (strings.TrimSpace e) = Some v ∧ v ≤ 0.

(** "Any input whose entries are all invalid returns exactly {200}." *)
Definition all_invalid_give_default : Prop :=
  ∀ codes : string,
    Forall (λ e, positive_entry e = None) (entries codes) →
    storage.ParseExpectedCodes codes = [200].

(** "Every valid entry of the input appears in the output in order." *)
Definition valid_entries_kept : Prop :=
  ∀ codes : string,
    sublist (omap positive_entry (entries codes))
            (storage.ParseExpectedCodes codes).

(** White space: a sequence of encoded white-space characters. *)
Inductive white : list ascii → Prop :=
| white_nil : white []
| white_ascii a s :
    strings.asciiSpace a = true → white s → white (a :: s)
| white_two a b s :
    strings.space2 a b = true → white s → white (a :: b :: s)
| white_three a b c s :
    strings.space3 a b c = true → white s → white (a :: b :: c :: s).

Definition white_string (s : string) : Prop :=
  white (list_ascii_of_string s).

Definition no_comma (s : string) : Prop :=
  ","%char ∉ list_ascii_of_string s.

(** An entry with white space before and after it. *)
Record Padded := mkPadded {
  before : string;
  entry : string;
  after : string
}.

Definition padded (p : Padded) : string := before p ++ entry p ++ after p.

Definition well_padded (p : Padded) : Prop :=
  white_string (before p) ∧ white_string (after p) ∧ no_comma (entry p).

(** ** Notions used in the proofs *)

(** Failing ticks in a row. *)
Definition is_failure (k : checker.Tick) : bool :=
  match checker.outcome k with
  | checker.Failed _ _ => true
  | checker.Succeeded _ _ => false
  end.

(** What one evaluation does to the log and to the scheduler's map:
    nothing, or a recovery call, or a down call that has passed the gate
    and has moved [lastNotified] to the opening of the evaluation. *)
Inductive log_step (m : Monitor.t) (k : checker.Tick) (w w' : World) : Prop :=
| log_same :
    sent w' = sent w → monitors w' = monitors w → log_step m k w w'
| log_recovery s :
    sent w' = sent w ++ [s] → is_down_call s = false →
    monitors w' = monitors w → log_step m k w w'
| log_down ms errorMsg :
    monitors w !! Monitor.ID m = Some ms →
    cooldown ≤ checker.later k - lastNotified ms →
    sent w' =
      sent w ++ [mkSent (checker.now k) (checker.later k)
                   (NotifyDown (Monitor.Name m) (Monitor.URL m) errorMsg)] →
    monitors w' =
      alter (λ ms, mkMonitorState (ticker ms) (checker.now k))
        (Monitor.ID m) (monitors w) →
    log_step m k w w'.

(** The invariant of a run: the down calls made so far are gated, they
    were made in evaluations that opened no later than [lastNotified]
    and no later than the last evaluation. *)
Record log_ok (id : N) (t : Time) (w : World) : Prop := mk_log_ok {
  ok_gated : ∀ (i j : nat) (a b : Sent),
    (i < j)%nat → sent w !! i = Some a → sent w !! j = Some b →
    is_down_call a = true → is_down_call b = true →
    cooldown ≤ at_time b - started a;
  ok_last : ∀ a, a ∈ sent w → is_down_call a = true →
    ∃ ms, monitors w !! id = Some ms ∧ started a ≤ lastNotified ms;
  ok_past : ∀ a, a ∈ sent w → is_down_call a = true → started a ≤ t
}.

(** A byte that can begin an encoded white-space character is no second
    or third byte of one. *)
Definition may_begin (c : ascii) : Prop :=
  (N_of_ascii c ≤ 32 ∨ 194 ≤ N_of_ascii c)%N.


(** ** Notions for the properties of the store, the scheduler and the tray *)

(** Primary keys in ascending order. *)
Definition ascending (keys : list N) : Prop := StronglySorted N.lt keys.

Record store_keyed (d : Store) : Prop := mk_store_keyed {
  monitors_keyed : ascending (map Monitor.ID (monitor_rows d));
  check_results_keyed : ascending (map CheckResult.ID (check_result_rows d));
  incidents_keyed : ascending (map Incident.ID (incident_rows d))
}.

(** The check results of a monitor, and its incidents. *)
Definition results_of (id : N) (d : Store) : list CheckResult.t :=
  List.filter (λ r, N.eqb (CheckResult.MonitorID r) id) (check_result_rows d).

Definition incidents_of (id : N) (d : Store) : list Incident.t :=
  List.filter (λ i, N.eqb (Incident.MonitorID i) id) (incident_rows d).

(** The recovery calls of a log. *)
Definition recoveries (log : list Sent) : nat :=
  length (List.filter (λ s, negb (is_down_call s)) log).

(** The answer of [checkMonitor] as the outcome the checker would
    record, and the exchange of the tray as the exchange of the
    checker. *)
Definition outcome_of (p : tray.Probe) : checker.Outcome :=
  match tray.checkErr p with
  | None => checker.Succeeded (tray.statusCode p) (tray.responseTime p)
  | Some e => checker.Failed (tray.statusCode p) e
  end.

Definition as_checker_exchange (x : tray.Exchange) : checker.Exchange :=
  match x with
  | tray.RequestError err => checker.RequestError err
  | tray.DoError err => checker.DoError err
  | tray.ReadError statusCode _ err => checker.ReadError statusCode err
  | tray.Response statusCode responseTime body =>
      checker.Response statusCode responseTime body
  end.

Definition succeeded (o : checker.Outcome) : bool :=
  match o with
  | checker.Succeeded _ _ => true
  | checker.Failed _ _ => false
  end.

Definition outcome_code (o : checker.Outcome) : Z :=
  match o with
  | checker.Succeeded statusCode _ => statusCode
  | checker.Failed statusCode _ => statusCode
  end.

(** Down calls and recovery calls take turns. *)
Fixpoint alternating (log : list Sent) : Prop :=
  match log with
  | a :: rest =>
      match rest with
      | b :: _ => is_down_call a ≠ is_down_call b
      | [] => True
      end ∧ alternating rest
  | [] => True
  end.

(** The failures in a row a run of evaluations ends with. *)
Definition streak_step (c : Z) (k : checker.Tick) : Z :=
  if is_failure k then c + 1 else 0.

Definition streak (ks : list checker.Tick) : Z := foldl streak_step 0 ks.

(** The fields an evaluation leaves as they are in the goroutine's copy
    of the monitor. *)
Definition same_configuration (m m' : Monitor.t) : Prop :=
  Monitor.ID m' = Monitor.ID m ∧ Monitor.Name m' = Monitor.Name m ∧
  Monitor.URL m' = Monitor.URL m ∧ Monitor.Enabled m' = Monitor.Enabled m ∧
  Monitor.CheckInterval m' = Monitor.CheckInterval m ∧
  Monitor.ExpectedCodes m' = Monitor.ExpectedCodes m ∧
  Monitor.Keywords m' = Monitor.Keywords m ∧
  Monitor.Timeout m' = Monitor.Timeout m.

(** The incident [GetActiveIncident] finds for the monitor is one whose
    recovery has been notified. *)
Definition found_flagged (id : N) (d : Store) : Prop :=
  ∃ i, Database.GetActiveIncident id d = Some i ∧
       Incident.RecoveryNotified i = true.

(** A store with two monitors, their check results and an incident. *)
Definition two_monitors : Store :=
  mkStore
    [sample.api;
     Monitor.mk 2 "web" "http://web.test/" true 30 "200,204" "" 5 "down" 3
       None]
    [CheckResult.mk 1 (sample.at_second 0) 1 200 35 true "";
     CheckResult.mk 2 (sample.at_second 0) 2 500 0 false "status 500";
     CheckResult.mk 3 (sample.at_second 60) 1 200 31 true ""]
    [Incident.mk 1 2 (sample.at_second 0) None "status 500" false false].

(** The entries of a list of keywords with the white space around them
    taken off, the blank ones dropped. *)
Definition trimmed_entries (keywords : string) : list string :=
  List.filter (λ p, negb (String.eqb p ""))
    (map strings.TrimSpace (strings.Split keywords ","%char)).

(** A probe of the tray that failed, one that succeeded in more than a
    second, and one that succeeded in a second or less. *)
Definition probe_failed (p : tray.Probe) : bool :=
  match tray.checkErr p with Some _ => true | None => false end.

Definition probe_slow (p : tray.Probe) : bool :=
  negb (probe_failed p) && (1000 <? tray.responseTime p).

Definition probe_fast (p : tray.Probe) : bool :=
  negb (probe_failed p) && negb (1000 <? tray.responseTime p).

Definition count_of (f : tray.Probe → bool) (ps : list tray.Probe) : Z :=
  Z.of_nat (length (List.filter f ps)).

(** The state of the tray loop over a store with one monitor: the log
    alternates, and the monitor is down exactly when the last call of
    the log is a down call. *)
Definition in_step (w : World) : Prop :=
  ∃ mon,
    monitor_rows (db w) = [mon] ∧
    alternating (sent w) ∧
    (∀ s, head (sent w) = Some s → is_down_call s = true) ∧
    (Monitor.CurrentStatus mon = "down" ↔
     ∃ s, last (sent w) = Some s ∧ is_down_call s = true).

(** * Properties *)

(** ** Frame lemmas of the record store *)

Section store_frames.
Variable d : Store.

Lemma incident_rows_CreateCheckResult cr :
  incident_rows (Database.CreateCheckResult cr d) = incident_rows d.
Proof. reflexivity. Qed.

Lemma incident_rows_UpdateMonitor m :
  incident_rows (Database.UpdateMonitor m d) = incident_rows d.
Proof. reflexivity. Qed.

Lemma incident_rows_CreateIncident i :
  incident_rows (Database.CreateIncident i d) =
  incident_rows d ++
    [Incident.set_ID (next_key (incident_seq d)
           (map Incident.ID (incident_rows d))) i].
Proof. reflexivity. Qed.

Lemma incident_rows_ResolveIncident id t :
  incident_rows (Database.ResolveIncident id t d) =
  map (λ r, if N.eqb (Incident.ID r) id
            then Incident.set_ResolvedAt (Some t) r else r)
      (incident_rows d).
Proof. reflexivity. Qed.

Lemma incident_rows_UpdateIncident i :
  incident_rows (Database.UpdateIncident i d) =
  map (λ r, if N.eqb (Incident.ID r) (Incident.ID i) then i else r)
      (incident_rows d).
Proof. reflexivity. Qed.

Lemma GetActiveIncident_CreateCheckResult id cr :
  Database.GetActiveIncident id (Database.CreateCheckResult cr d) =
  Database.GetActiveIncident id d.
Proof. reflexivity. Qed.

Lemma GetActiveIncident_UpdateMonitor id m :
  Database.GetActiveIncident id (Database.UpdateMonitor m d) =
  Database.GetActiveIncident id d.
Proof. reflexivity. Qed.
End store_frames.

Create Rewrite HintDb store.
#[local] Hint Rewrite incident_rows_CreateCheckResult
  incident_rows_UpdateMonitor incident_rows_CreateIncident
  incident_rows_ResolveIncident incident_rows_UpdateIncident
  GetActiveIncident_CreateCheckResult GetActiveIncident_UpdateMonitor : store.

#[local] Arguments Database.GetActiveIncident : simpl never.
#[local] Arguments Database.CreateCheckResult : simpl never.
#[local] Arguments Database.UpdateMonitor : simpl never.
#[local] Arguments Database.CreateIncident : simpl never.
#[local] Arguments Database.ResolveIncident : simpl never.
#[local] Arguments Database.UpdateIncident : simpl never.
#[local] Arguments Seconds_ge : simpl never.
#[local] Arguments Z.leb : simpl never.
#[local] Arguments Z.ltb : simpl never.
#[local] Arguments wrap64 : simpl never.

(** Unfold the state monad. *)
Ltac run_m :=
  unfold mbind, mret, M_bind, M_ret, on_db, read_db, notify,
    get_monitorState, set_lastNotified, on_monitors, skip in *;
  cbn [fst snd db monitors sent] in *.

(** Unfold the status tracker and split on every test it makes. *)
Ltac tracker_cases :=
  unfold checker.recordFailure, checker.recordSuccess,
    checker.notifyDown_gated;
  run_m; cbn; autorewrite with store in *;
  repeat (case_match; simplify_eq; cbn in *; run_m;
          autorewrite with store in *).

(** Keys given out by the store are new. *)
Lemma largest_bound keys k : k ∈ keys → (k ≤ largest keys)%N.
Proof.
  unfold largest. induction keys as [|a keys IH]; intros Hk;
    [by apply elem_of_nil in Hk|].
  cbn. apply elem_of_cons in Hk as [->|Hk]; [lia|].
  specialize (IH Hk). lia.
Qed.

Lemma next_key_fresh seq keys : next_key seq keys ∉ keys.
Proof.
  intros Hin. apply largest_bound in Hin. unfold next_key in Hin. lia.
Qed.

(** ** The status tracker of the checker *)

Section recordFailure_facts.
Variables (m : Monitor.t) (statusCode : Z) (errorMsg : string).
Variables (now later : Time) (w : World).

Let r := checker.recordFailure m statusCode errorMsg now later w.

Lemma recordFailure_fails :
  Monitor.ConsecutiveFails r.1 = wrap64 (Monitor.ConsecutiveFails m + 1).
Proof. subst r. tracker_cases; reflexivity. Qed.

Lemma recordFailure_status :
  Monitor.CurrentStatus r.1 =
  if config.DefaultMaxFailures <=? wrap64 (Monitor.ConsecutiveFails m + 1)
  then "down" else Monitor.CurrentStatus m.
Proof. subst r. tracker_cases; reflexivity. Qed.

Lemma recordFailure_incidents :
  incident_rows (db r.2) =
  if config.DefaultMaxFailures <=? wrap64 (Monitor.ConsecutiveFails m + 1)
  then
    if String.eqb (Monitor.CurrentStatus m) "down" then
      match Database.GetActiveIncident (Monitor.ID m) (db w) with
      | Some i =>
          map (λ row, if N.eqb (Incident.ID row) (Incident.ID i)
                      then Incident.set_ErrorMessage errorMsg i else row)
              (incident_rows (db w))
      | None => incident_rows (db w)
      end
    else
      incident_rows (db w) ++
        [Incident.mk (next_key (incident_seq (db w))
           (map Incident.ID (incident_rows (db w))))
           (Monitor.ID m) now None errorMsg false false]
  else incident_rows (db w).
Proof. subst r. tracker_cases; reflexivity. Qed.
End recordFailure_facts.

Section recordSuccess_facts.
Variables (m : Monitor.t) (statusCode responseTime : Z).
Variables (now later : Time) (w : World).

Let r := checker.recordSuccess m statusCode responseTime now later w.

Lemma recordSuccess_monitor :
  r.1 = Monitor.set_LastCheckAt (Some now)
          (Monitor.set_ConsecutiveFails 0
             (Monitor.set_CurrentStatus "up" m)).
Proof. subst r. tracker_cases; reflexivity. Qed.

Lemma recordSuccess_monitors : monitors r.2 = monitors w.
Proof. subst r. tracker_cases; reflexivity. Qed.

Lemma recordSuccess_not_down :
  Monitor.CurrentStatus m ≠ "down" →
  incident_rows (db r.2) = incident_rows (db w) ∧ sent r.2 = sent w.
Proof.
  intros Hs. apply String.eqb_neq in Hs. subst r.
  tracker_cases; try congruence; split; reflexivity.
Qed.
End recordSuccess_facts.

Lemma wrap64_small z : minInt64 ≤ z ≤ maxInt64 → wrap64 z = z.
Proof.
  unfold wrap64, minInt64, maxInt64. intros H.
  rewrite Z.mod_small; lia.
Qed.

(** While the monitor is down, failing ticks keep it down and keep the
    number of incidents. *)
Lemma run_failures_down ks : ∀ m w,
  forallb is_failure ks = true →
  Monitor.CurrentStatus m = "down" →
  Monitor.CurrentStatus (checker.run m ks w).1 = "down" ∧
  length (incident_rows (db (checker.run m ks w).2)) =
  length (incident_rows (db w)).
Proof.
  induction ks as [|k ks IH]; intros m w Hf Hd; [done|].
  cbn in Hf. apply andb_prop in Hf as [Hk Hf].
  unfold is_failure in Hk.
  cbn [checker.run]. unfold mbind, M_bind. cbn [fst snd].
  unfold checker.evaluate.
  destruct (checker.outcome k) as [|c e]; [done|].
  set (r := checker.recordFailure m c e (checker.now k) (checker.later k) w).
  destruct (IH r.1 r.2 Hf) as [Hs Hl].
  - subst r. rewrite recordFailure_status, Hd. by case_match.
  - split; [done|]. rewrite Hl. subst r.
    rewrite recordFailure_incidents, Hd. cbn.
    repeat case_match; try done. apply length_map.
Qed.

(** From a monitor that is not down and has no failure counted, [n]
    failing ticks bring it down exactly when [n] reaches the threshold,
    and open one incident then. *)
Lemma run_failures_fresh ks : ∀ m w,
  forallb is_failure ks = true →
  Monitor.CurrentStatus m ≠ "down" →
  0 ≤ Monitor.ConsecutiveFails m < config.DefaultMaxFailures →
  (Monitor.CurrentStatus (checker.run m ks w).1 = "down" ↔
   config.DefaultMaxFailures ≤
     Monitor.ConsecutiveFails m + Z.of_nat (length ks)) ∧
  length (incident_rows (db (checker.run m ks w).2)) =
  (length (incident_rows (db w)) +
   if (config.DefaultMaxFailures <=?
         Monitor.ConsecutiveFails m + Z.of_nat (length ks))%Z
   then 1 else 0)%nat.
Proof.
  unfold config.DefaultMaxFailures.
  induction ks as [|k ks IH]; intros m w Hf Hd Hc.
  - cbn. rewrite Z.add_0_r. split; [split; [done|lia]|].
    case_match; lia.
  - cbn in Hf. apply andb_prop in Hf as [Hk Hf].
    unfold is_failure in Hk.
    cbn [checker.run]. unfold mbind, M_bind. cbn [fst snd].
    unfold checker.evaluate.
    destruct (checker.outcome k) as [|c e]; [done|].
    set (r := checker.recordFailure m c e (checker.now k) (checker.later k) w).
    assert (Hfails : Monitor.ConsecutiveFails r.1 =
                     Monitor.ConsecutiveFails m + 1).
    { subst r. rewrite recordFailure_fails.
      apply wrap64_small. unfold minInt64, maxInt64. lia. }
    assert (Hst := recordFailure_status m c e (checker.now k)
                     (checker.later k) w).
    assert (Hin := recordFailure_incidents m c e (checker.now k)
                     (checker.later k) w).
    fold r in Hst, Hin.
    rewrite wrap64_small in Hst, Hin
      by (unfold minInt64, maxInt64; lia).
    unfold config.DefaultMaxFailures in Hst, Hin.
    apply String.eqb_neq in Hd as Hd'. rewrite Hd' in Hin.
    cbn [length]. rewrite Nat2Z.inj_succ.
    destruct (Z.leb_spec 3 (Monitor.ConsecutiveFails m + 1)) as [Hge|Hlt].
    + destruct (run_failures_down ks r.1 r.2 Hf Hst) as [Hs Hl].
      rewrite Hs, Hl, Hin, length_app. cbn [length].
      split; [split; [lia|done]|].
      case_match; [lia|]. apply Z.leb_gt in H. lia.
    + destruct (IH r.1 r.2 Hf) as [Hs Hl].
      * by rewrite Hst.
      * lia.
      * rewrite Hfails in Hs, Hl. rewrite Hin in Hl.
        replace (Monitor.ConsecutiveFails m + Z.succ (Z.of_nat (length ks)))
          with (Monitor.ConsecutiveFails m + 1 + Z.of_nat (length ks)) by lia.
        done.
Qed.

(** The first unresolved incident of a monitor is the one
    [GetActiveIncident] finds, and saving a copy of it rewrites its row
    and no other. *)
Lemma find_first_active id (pre post : list Incident.t) i :
  Database.is_active id i = true →
  Forall (λ row, Database.is_active id row = false) pre →
  List.find (Database.is_active id) (pre ++ i :: post) = Some i.
Proof.
  intros Hi Hpre. induction Hpre as [|row pre Hrow _ IH]; cbn.
  - by rewrite Hi.
  - by rewrite Hrow.
Qed.

Lemma find_no_active id (rows : list Incident.t) :
  Forall (λ row, Database.is_active id row = false) rows →
  List.find (Database.is_active id) rows = None.
Proof.
  intros Hrows. induction Hrows as [|row rows Hrow _ IH]; cbn; [done|].
  by rewrite Hrow.
Qed.

Lemma save_other_rows (i : Incident.t) id (rows : list Incident.t) :
  id ∉ map Incident.ID rows →
  map (λ row, if N.eqb (Incident.ID row) id then i else row) rows = rows.
Proof.
  induction rows as [|row rows IH]; cbn; [done|].
  intros Hid. apply not_elem_of_cons in Hid as [Hne Hid].
  destruct (N.eqb_spec (Incident.ID row) id) as [Heq|_]; [congruence|].
  by rewrite IH.
Qed.

Lemma save_one_row (i i' : Incident.t) (pre post : list Incident.t) :
  Incident.ID i ∉ map Incident.ID (pre ++ post) →
  map (λ row, if N.eqb (Incident.ID row) (Incident.ID i) then i' else row)
      (pre ++ i :: post) = pre ++ i' :: post.
Proof.
  rewrite map_app. intros Hid.
  apply not_elem_of_app in Hid as [Hpre Hpost].
  rewrite map_app. cbn. rewrite N.eqb_refl.
  by rewrite !save_other_rows.
Qed.

Lemma save_keeps_keys (i : Incident.t) (rows : list Incident.t) :
  map Incident.ID
    (map (λ row, if N.eqb (Incident.ID row) (Incident.ID i)
                 then Incident.set_ErrorMessage
                        (Incident.ErrorMessage i) i
                 else row) rows) = map Incident.ID rows.
Proof.
  induction rows as [|row rows IH]; cbn; [done|]. rewrite IH. f_equal.
  by destruct (N.eqb_spec (Incident.ID row) (Incident.ID i)).
Qed.

(** C1.  A failing tick of the primary checker counts one more failure.
    A monitor that is not down goes down exactly when the count reaches
    the threshold of three, and at that tick one incident is appended
    to the incidents: it is of this monitor, starts at the tick, is
    unresolved, carries the error text of the tick, and has a key that
    no incident had.  A failing tick on a monitor that is down with the
    count at the threshold or above leaves it down and creates no
    incident; it writes the error text on the first unresolved incident
    of the monitor, in the order of the keys, and changes no other row,
    and changes nothing when the monitor has no unresolved incident.  A
    failing tick that leaves the count below the threshold changes
    neither the status nor the incidents, and a success never puts the
    status to down.  So, from a monitor that is not down with no
    failure counted, any number of failing ticks in a row bring it down
    exactly when there are at least three of them, and create one
    incident if so and none otherwise.

    The first unresolved incident is not always the incident opened at
    the crossing.  After an outage, a recovery and a second outage of a
    monitor that started up with no incident, the incident of the first
    outage is still unresolved (the recovery saves it as it was read
    before its resolution), and one more failing tick writes its error
    text on that incident, the first: the incident opened at the second
    crossing keeps the text it was opened with. *)
Theorem recordFailure_threshold_incident :
  ∀ (m : Monitor.t) (statusCode : Z) (errorMsg : string) (now later : Time)
    (w : World),
    let r := checker.recordFailure m statusCode errorMsg now later w in
    let fails := Monitor.ConsecutiveFails r.1 in
    let rows := incident_rows (db w) in
    let rows' := incident_rows (db r.2) in
    config.DefaultMaxFailures = 3 ∧
    fails = wrap64 (Monitor.ConsecutiveFails m + 1) ∧
    (Monitor.CurrentStatus m ≠ "down" →
       (Monitor.CurrentStatus r.1 = "down" ↔
        config.DefaultMaxFailures ≤ fails)) ∧
    (Monitor.CurrentStatus m ≠ "down" →
     config.DefaultMaxFailures ≤ fails →
       ∃ opened : Incident.t,
         rows' = rows ++ [opened] ∧
         (Incident.ID opened ∉ map Incident.ID rows) ∧
         Incident.MonitorID opened = Monitor.ID m ∧
         Incident.StartedAt opened = now ∧
         Incident.ResolvedAt opened = None ∧
         Incident.ErrorMessage opened = errorMsg ∧
         Incident.Notified opened = false ∧
         Incident.RecoveryNotified opened = false) ∧
    (Monitor.CurrentStatus m = "down" →
     config.DefaultMaxFailures ≤ fails →
       Monitor.CurrentStatus r.1 = "down" ∧
       map Incident.ID rows' = map Incident.ID rows ∧
       (∀ (pre post : list Incident.t) (i : Incident.t),
          rows = pre ++ i :: post →
          Database.is_active (Monitor.ID m) i = true →
          Forall (λ row, Database.is_active (Monitor.ID m) row = false) pre →
          Incident.ID i ∉ map Incident.ID (pre ++ post) →
          rows' = pre ++ Incident.set_ErrorMessage errorMsg i :: post) ∧
       (Forall (λ row, Database.is_active (Monitor.ID m) row = false) rows →
          rows' = rows)) ∧
    (fails < config.DefaultMaxFailures →
       Monitor.CurrentStatus r.1 = Monitor.CurrentStatus m ∧
       rows' = rows) ∧
    (∀ code responseTime,
       Monitor.CurrentStatus
         (checker.recordSuccess m code responseTime now later w).1 = "up") ∧
    (∀ ks : list checker.Tick,
       forallb is_failure ks = true →
       Monitor.CurrentStatus m ≠ "down" →
       Monitor.ConsecutiveFails m = 0 →
       (Monitor.CurrentStatus (checker.run m ks w).1 = "down" ↔
        (3 ≤ length ks)%nat) ∧
       length (incident_rows (db (checker.run m ks w).2)) =
       (length rows + if (3 <=? length ks)%nat then 1 else 0)%nat) ∧
    (let before :=
       checker.run sample.api sample.two_outages sample.world in
     let after :=
       checker.run sample.api sample.outage_goes_on sample.world in
     let first_outage :=
       Incident.mk 1 1 (sample.at_second 120) None
         "unexpected status code: got 503, expected one of [200]"
         false true in
     let second_outage :=
       Incident.mk 2 1 (sample.at_second 360) None
         "unexpected status code: got 503, expected one of [200]"
         false false in
     incident_rows (db sample.world) = [] ∧
     Monitor.CurrentStatus before.1 = "down" ∧
     incident_rows (db before.2) = [first_outage; second_outage] ∧
     after = checker.recordFailure before.1 0 "connection refused"
               (sample.at_second 420) (sample.at_second 420) before.2 ∧
     incident_rows (db after.2) =
       [Incident.set_ErrorMessage "connection refused" first_outage;
        second_outage]).
Proof.
  intros m statusCode errorMsg now later w r fails rows rows'.
  assert (Hfails := recordFailure_fails m statusCode errorMsg now later w).
  assert (Hst := recordFailure_status m statusCode errorMsg now later w).
  assert (Hin := recordFailure_incidents m statusCode errorMsg now later w).
  cbv zeta in Hfails, Hst, Hin. fold r in Hfails, Hst, Hin.
  fold fails in Hfails. fold rows rows' in Hin. rewrite <- Hfails in Hst, Hin.
  assert (Hfresh : ∀ ks, forallb is_failure ks = true →
            Monitor.CurrentStatus m ≠ "down" →
            Monitor.ConsecutiveFails m = 0 →
            (Monitor.CurrentStatus (checker.run m ks w).1 = "down" ↔
             3 ≤ Z.of_nat (length ks)) ∧
            length (incident_rows (db (checker.run m ks w).2)) =
            (length (incident_rows (db w)) +
             if (3 <=? Z.of_nat (length ks))%Z then 1 else 0)%nat).
  { intros ks Hf Hd H0.
    destruct (run_failures_fresh ks m w Hf Hd) as [Hs Hl].
    { rewrite H0. unfold config.DefaultMaxFailures. lia. }
    rewrite H0 in Hs, Hl. unfold config.DefaultMaxFailures in Hs, Hl.
    rewrite Z.add_0_l in Hs, Hl. done. }
  split_and!.
  - reflexivity.
  - exact Hfails.
  - intros Hd. rewrite Hst.
    destruct (Z.leb_spec config.DefaultMaxFailures fails); [done|].
    split; [done|lia].
  - intros Hd Hge. rewrite Hin.
    apply String.eqb_neq in Hd. rewrite Hd.
    destruct (Z.leb_spec config.DefaultMaxFailures fails); [|lia].
    eexists. split; [reflexivity|]. cbn. split_and!; try done.
    apply next_key_fresh.
  - intros Hd Hge. rewrite Hst, Hin, Hd, String.eqb_refl.
    destruct (Z.leb_spec config.DefaultMaxFailures fails); [|lia].
    unfold Database.GetActiveIncident. fold rows. split_and!.
    + done.
    + destruct (List.find _ rows) as [i|]; [|done].
      apply (save_keeps_keys (Incident.set_ErrorMessage errorMsg i)).
    + intros pre post i Hrows Hi Hpre Hid.
      rewrite Hrows, (find_first_active _ _ _ _ Hi Hpre).
      by apply save_one_row.
    + intros Hnone. by rewrite (find_no_active _ _ Hnone).
  - intros Hlt. rewrite Hst, Hin.
    by destruct (Z.leb_spec config.DefaultMaxFailures fails); [lia|].
  - intros code responseTime. by rewrite recordSuccess_monitor.
  - intros ks Hf Hd H0. destruct (Hfresh ks Hf Hd H0) as [Hs Hl].
    split; [rewrite Hs; lia|]. fold rows in Hl. rewrite Hl.
    destruct (Z.leb_spec 3 (Z.of_nat (length ks)));
      destruct (Nat.leb_spec 3 (length ks)); lia.
  - clear. cbv zeta. split_and!; vm_compute; reflexivity.
Qed.

Lemma recordFailure_threshold_incident_witness :
  Monitor.CurrentStatus
    (checker.recordFailure sample.api_failing 503 "timeout"
       (sample.at_second 120) (sample.at_second 120) sample.world).1 = "down"
  ∧ map Incident.ErrorMessage
      (incident_rows
         (db (checker.recordFailure sample.api_failing 503 "timeout"
                (sample.at_second 120) (sample.at_second 120)
                sample.world).2)) = ["timeout"]
  ∧ incident_rows
      (db (checker.recordFailure sample.api_down 503 "timeout"
             (sample.at_second 180) (sample.at_second 180)
             sample.world_down).2) =
    [Incident.set_ErrorMessage "timeout" sample.outage].
Proof.
  destruct (recordFailure_threshold_incident sample.api_failing 503 "timeout"
              (sample.at_second 120) (sample.at_second 120) sample.world)
    as (_ & Hfails & Hdown & Hopen & _).
  destruct (recordFailure_threshold_incident sample.api_down 503 "timeout"
              (sample.at_second 180) (sample.at_second 180) sample.world_down)
    as (_ & Hfails' & _ & _ & Hwrite & _).
  split_and!.
  - apply Hdown; [discriminate|]. rewrite Hfails. vm_compute. discriminate.
  - destruct Hopen as (opened & Hrows & _ & _ & _ & _ & Htext & _);
      [discriminate|rewrite Hfails; vm_compute; discriminate|].
    rewrite Hrows. cbn. by rewrite Htext.
  - destruct Hwrite as (_ & _ & Hrow & _);
      [reflexivity|rewrite Hfails'; vm_compute; discriminate|].
    apply (Hrow [] [] sample.outage).
    + reflexivity.
    + reflexivity.
    + constructor.
    + cbn. apply not_elem_of_nil.
Defined.

(** C8.  A success recorded for a monitor that is not down (up, unknown)
    creates, updates and resolves no incident and sends no notification;
    of the monitor it sets the status to up, the failure count to 0 and
    the time of the last check, and nothing else.  Recorded again, it
    has the same effect: the incidents and the notifications stay as
    they were and only the time of the last check is refreshed, so that
    with the same clock reading the monitor is the same. *)
Theorem recordSuccess_idempotent_when_not_down :
  ∀ (m : Monitor.t) (statusCode responseTime : Z) (now later : Time)
    (w : World),
    Monitor.CurrentStatus m ≠ "down" →
    let r := checker.recordSuccess m statusCode responseTime now later w in
    r.1 = Monitor.set_LastCheckAt (Some now)
            (Monitor.set_ConsecutiveFails 0
               (Monitor.set_CurrentStatus "up" m)) ∧
    incident_rows (db r.2) = incident_rows (db w) ∧
    sent r.2 = sent w ∧
    monitors r.2 = monitors w ∧
    ∀ (statusCode' responseTime' : Z) (now' later' : Time),
      let r' :=
        checker.recordSuccess r.1 statusCode' responseTime' now' later' r.2 in
      r'.1 = Monitor.set_LastCheckAt (Some now') r.1 ∧
      Monitor.CurrentStatus r'.1 = "up" ∧
      Monitor.ConsecutiveFails r'.1 = 0 ∧
      incident_rows (db r'.2) = incident_rows (db w) ∧
      sent r'.2 = sent w ∧
      (now' = now → r'.1 = r.1).
Proof.
  intros m statusCode responseTime now later w Hs r.
  assert (Hm := recordSuccess_monitor m statusCode responseTime now later w).
  destruct (recordSuccess_not_down m statusCode responseTime now later w Hs)
    as [Hi Hn].
  cbv zeta in Hm, Hi, Hn. fold r in Hm, Hi, Hn.
  split_and!; [done|done|done|apply recordSuccess_monitors|].
  intros statusCode' responseTime' now' later' r'.
  assert (Hup : Monitor.CurrentStatus r.1 ≠ "down") by (by rewrite Hm).
  assert (Hm' := recordSuccess_monitor r.1 statusCode' responseTime'
                   now' later' r.2).
  destruct (recordSuccess_not_down r.1 statusCode' responseTime'
              now' later' r.2 Hup) as [Hi' Hn'].
  cbv zeta in Hm', Hi', Hn'. fold r' in Hm', Hi', Hn'.
  rewrite Hm', Hi', Hn', Hi, Hn, Hm.
  split_and!; try done. by intros ->.
Qed.

Lemma recordSuccess_idempotent_when_not_down_witness :
  incident_rows
    (db (checker.recordSuccess sample.api 200 40 (sample.at_second 60)
           (sample.at_second 60) sample.world).2) = []
  ∧ sent (checker.recordSuccess sample.api 200 40 (sample.at_second 60)
            (sample.at_second 60) sample.world).2 = [].
Proof.
  destruct (recordSuccess_idempotent_when_not_down sample.api 200 40
              (sample.at_second 60) (sample.at_second 60) sample.world)
    as (_ & Hi & Hn & _); [discriminate|].
  split; [exact Hi|exact Hn].
Defined.

(** ** Recovery and the resolution of the incident *)

Lemma is_active_set_RecoveryNotified id b i :
  Database.is_active id (Incident.set_RecoveryNotified b i) =
  Database.is_active id i.
Proof. reflexivity. Qed.

Lemma is_active_set_ResolvedAt id t i :
  Database.is_active id (Incident.set_ResolvedAt (Some t) i) = false.
Proof. unfold Database.is_active. cbn. apply andb_false_r. Qed.

(** The row [ResolveIncident] resolves is the row the following
    [UpdateIncident] overwrites with the copy read before, in which
    [ResolvedAt] is still [nil]. *)
Lemma find_active_resolve_then_save id t i rows :
  find (Database.is_active id) rows = Some i →
  find (Database.is_active id)
    (map (λ r, if N.eqb (Incident.ID r) (Incident.ID i)
               then Incident.set_RecoveryNotified true i else r)
       (map (λ r, if N.eqb (Incident.ID r) (Incident.ID i)
                  then Incident.set_ResolvedAt (Some t) r else r) rows)) =
  Some (Incident.set_RecoveryNotified true i).
Proof.
  intros Hfind.
  assert (Hact : Database.is_active id i = true)
    by (apply find_some in Hfind; tauto).
  induction rows as [|a rows IH]; [done|].
  cbn in Hfind. cbn [map find].
  destruct (N.eqb_spec (Incident.ID a) (Incident.ID i)) as [Heq|Hne].
  - cbn [Incident.set_ResolvedAt Incident.ID]. rewrite Heq, N.eqb_refl.
    by rewrite is_active_set_RecoveryNotified, Hact.
  - destruct (Database.is_active id a) eqn:Ha.
    + congruence.
    + apply N.eqb_neq in Hne. rewrite Hne, Ha. by apply IH.
Qed.

(** C3, at the recovery of any monitor that is down: when the active
    incident has not been notified yet, [recordSuccess] sets the status
    to up and the count to 0 and sends one recovery notification, and
    the incident it has just resolved is active again in the store, with
    no resolution time, once the copy read before the resolution has
    been saved with the flag set. *)
Theorem recordSuccess_recovery_leaves_incident_active :
  ∀ (m : Monitor.t) (statusCode responseTime : Z) (now later : Time)
    (w : World) (incident : Incident.t),
    Monitor.CurrentStatus m = "down" →
    Database.GetActiveIncident (Monitor.ID m) (db w) = Some incident →
    Incident.RecoveryNotified incident = false →
    let r := checker.recordSuccess m statusCode responseTime now later w in
    Monitor.CurrentStatus r.1 = "up" ∧
    Monitor.ConsecutiveFails r.1 = 0 ∧
    sent r.2 =
      sent w ++ [mkSent now later
                   (NotifyRecovery (Monitor.Name m) (Monitor.URL m))] ∧
    Database.GetActiveIncident (Monitor.ID m) (db r.2) =
      Some (Incident.set_RecoveryNotified true incident) ∧
    Incident.IsResolved (Incident.set_RecoveryNotified true incident) = false.
Proof.
  intros m statusCode responseTime now later w incident Hd Hact Hflag r.
  assert (Hm := recordSuccess_monitor m statusCode responseTime now later w).
  cbv zeta in Hm. fold r in Hm. rewrite Hm.
  split_and!; [done|done| | |].
  - subst r. apply String.eqb_eq in Hd.
    tracker_cases; try congruence; try reflexivity;
      rewrite Hflag in *; discriminate.
  - subst r. apply String.eqb_eq in Hd.
    tracker_cases; try congruence;
      try (rewrite Hflag in *; discriminate).
    unfold Database.GetActiveIncident in *.
    autorewrite with store.
    change (Incident.ID (Incident.set_RecoveryNotified true incident))
      with (Incident.ID incident).
    by apply find_active_resolve_then_save.
  - unfold Database.GetActiveIncident in Hact.
    apply find_some in Hact as [_ Ha].
    unfold Database.is_active in Ha. apply andb_prop in Ha as [_ Ha].
    cbn. by apply negb_true_iff in Ha.
Qed.

Lemma recordSuccess_recovery_leaves_incident_active_witness :
  Database.GetActiveIncident 1
    (db (checker.recordSuccess sample.api_down 200 40 (sample.at_second 180)
           (sample.at_second 181) sample.world_down).2) =
  Some (Incident.set_RecoveryNotified true sample.outage).
Proof.
  destruct (recordSuccess_recovery_leaves_incident_active sample.api_down
              200 40 (sample.at_second 180) (sample.at_second 181)
              sample.world_down sample.outage)
    as (_ & _ & _ & Hactive & _); [reflexivity|reflexivity|reflexivity|].
  exact Hactive.
Defined.

(** An incident that has been notified is resolved without a second
    notification, and stays resolved. *)
Lemma recordSuccess_already_notified m statusCode responseTime now later w
    incident :
  Monitor.CurrentStatus m = "down" →
  Database.GetActiveIncident (Monitor.ID m) (db w) = Some incident →
  Incident.RecoveryNotified incident = true →
  let r := checker.recordSuccess m statusCode responseTime now later w in
  sent r.2 = sent w ∧
  incident_rows (db r.2) =
    map (λ row, if N.eqb (Incident.ID row) (Incident.ID incident)
                then Incident.set_ResolvedAt (Some later) row else row)
        (incident_rows (db w)).
Proof.
  intros Hd Hact Hflag r. subst r. apply String.eqb_eq in Hd.
  tracker_cases; try congruence; try (split; reflexivity);
    rewrite Hflag in *; discriminate.
Qed.

(** C2, on an outage, a recovery and a second outage of a monitor that
    starts up with no incident at all: the incident of the first outage,
    saved unresolved at the recovery, and the incident of the second
    outage are both unresolved. *)
Theorem two_unresolved_incidents_after_second_outage :
  Database.active_incidents 1 (db sample.world) = [] ∧
  map Incident.ID
    (Database.active_incidents 1
       (db (checker.run sample.api sample.two_outages sample.world).2)) =
  [1%N; 2%N].
Proof. split; vm_compute; reflexivity. Qed.

(** ** The cooldown of down notifications *)

Lemma gate_open later last :
  Seconds_ge (Since later last) config.NotificationCooldown = true →
  cooldown ≤ later - last.
Proof.
  unfold Seconds_ge, Since, Sub, cooldown, config.NotificationCooldown,
    Second, minInt64, maxInt64.
  intros H. apply Z.leb_le in H. lia.
Qed.

Lemma evaluate_log_step m k w :
  log_step m k w (checker.evaluate m k w).2.
Proof.
  unfold checker.evaluate. destruct k as [[c rt|c e] t1 t2]; cbn.
  - tracker_cases;
      solve [ by apply log_same
            | by eapply log_recovery ].
  - tracker_cases;
      solve [ by apply log_same
            | eapply log_down; eauto using gate_open ].
Qed.

Lemma evaluate_ID m k w :
  Monitor.ID (checker.evaluate m k w).1 = Monitor.ID m.
Proof.
  unfold checker.evaluate. destruct k as [[c rt|c e] t1 t2]; cbn.
  - by rewrite recordSuccess_monitor.
  - tracker_cases; reflexivity.
Qed.

Lemma down_call_for_is_down url s :
  down_call_for url s = true → is_down_call s = true.
Proof. unfold down_call_for, is_down_call. by destruct (call s). Qed.

Lemma log_ok_step m k t w w' :
  log_step m k w w' → t ≤ checker.now k →
  log_ok (Monitor.ID m) t w → log_ok (Monitor.ID m) (checker.now k) w'.
Proof.
  intros Hstep Ht [Hg Hl Hp]. destruct Hstep as [Hs Hm|s Hs Hr Hm|ms e Hms Hgate Hs Hm].
  - split; rewrite ?Hs, ?Hm; try done.
    intros a Ha Hd. specialize (Hp a Ha Hd). lia.
  - split; rewrite ?Hs, ?Hm.
    + intros i j a b Hij Ha Hb Hda Hdb.
      destruct (decide (j < length (sent w))%nat) as [Hj|Hj].
      * rewrite lookup_app_l in Ha, Hb by lia. eauto.
      * rewrite lookup_app_r in Hb by lia.
        destruct (j - length (sent w))%nat; cbn in Hb; [|done].
        simplify_eq. congruence.
    + intros a Ha Hd. apply elem_of_app in Ha as [Ha|Ha]; [eauto|].
      apply list_elem_of_singleton in Ha. subst. congruence.
    + intros a Ha Hd. apply elem_of_app in Ha as [Ha|Ha].
      * specialize (Hp a Ha Hd). lia.
      * apply list_elem_of_singleton in Ha. subst. congruence.
  - split; rewrite ?Hs, ?Hm.
    + intros i j a b Hij Ha Hb Hda Hdb.
      destruct (decide (j < length (sent w))%nat) as [Hj|Hj].
      * rewrite lookup_app_l in Ha, Hb by lia. eauto.
      * rewrite lookup_app_r in Hb by lia.
        destruct (j - length (sent w))%nat eqn:Hjl; cbn in Hb; [|done].
        simplify_eq. cbn [at_time].
        rewrite lookup_app_l in Ha by lia.
        destruct (Hl a) as (ms' & Hms' & Hle);
          [by eapply list_elem_of_lookup_2|done|].
        simplify_eq. lia.
    + intros a Ha Hd. rewrite lookup_alter_eq, Hms. cbn.
      eexists; split; [done|]. cbn [lastNotified].
      apply elem_of_app in Ha as [Ha|Ha].
      * specialize (Hp a Ha Hd). lia.
      * apply list_elem_of_singleton in Ha. subst. cbn. lia.
    + intros a Ha Hd. apply elem_of_app in Ha as [Ha|Ha].
      * specialize (Hp a Ha Hd). lia.
      * apply list_elem_of_singleton in Ha. subst. cbn. lia.
Qed.

Lemma log_ok_run ks : ∀ m t w,
  opens_after t ks → log_ok (Monitor.ID m) t w →
  ∃ t', log_ok (Monitor.ID m) t' (checker.run m ks w).2.
Proof.
  induction ks as [|k ks IH]; intros m t w Ho Hok; [by exists t|].
  destruct Ho as [Ht Ho].
  cbn [checker.run]. unfold mbind, M_bind. cbn [fst snd].
  rewrite <- (evaluate_ID m k w).
  apply (IH _ (checker.now k)); [done|].
  rewrite evaluate_ID.
  eapply log_ok_step; eauto using evaluate_log_step.
Qed.

Lemma log_ok_empty id t w : sent w = [] → log_ok id t w.
Proof.
  intros Hs. split; rewrite Hs; intros; try done;
    exfalso; eapply not_elem_of_nil; eauto.
Qed.

(** The log entries of instantaneous evaluations carry one clock
    reading. *)
Lemma instantaneous_run ks : ∀ m w,
  instantaneous ks →
  Forall (λ s, is_down_call s = true → at_time s = started s) (sent w) →
  Forall (λ s, is_down_call s = true → at_time s = started s)
    (sent (checker.run m ks w).2).
Proof.
  induction ks as [|k ks IH]; intros m w Hi Hw; [done|].
  apply Forall_cons in Hi as [Hk Hi].
  cbn [checker.run]. unfold mbind, M_bind. cbn [fst snd].
  apply IH; [done|].
  destruct (evaluate_log_step m k w) as [Hs _|s Hs Hr _|ms e _ _ Hs _];
    rewrite Hs; [done| |]; apply Forall_app; split; try done;
    apply Forall_singleton; [congruence|done].
Qed.

(** C4, for the primary checker.  The gate of [recordFailure] sends a
    down notification only when the time since the [lastNotified] of
    the monitor's entry is at least the cooldown window of 300 seconds,
    and then sets [lastNotified] to the opening of the evaluation.  So,
    over every sequence of evaluations of a monitor that open at clock
    readings that do not go back, starting with an empty log, every
    [NotifyDown] call is made at least the window after the opening of
    each evaluation that made one before; when every evaluation is
    recorded at the clock reading it opens with, no two [NotifyDown]
    calls are closer to each other than the window. *)
Theorem checker_down_calls_respect_cooldown :
  ∀ (m : Monitor.t) (ks : list checker.Tick) (w : World) (url : string),
    sent w = [] → clock_ordered ks →
    cooldown = 300 * Second ∧
    (∀ ms errorMsg now later w0,
       let r := checker.notifyDown_gated ms m errorMsg now later w0 in
       if cooldown <=? Since later (lastNotified ms) then
         sent r.2 =
           sent w0 ++ [mkSent now later
                         (NotifyDown (Monitor.Name m) (Monitor.URL m)
                            errorMsg)] ∧
         monitors r.2 =
           alter (λ ms, mkMonitorState (ticker ms) now) (Monitor.ID m)
             (monitors w0)
       else r.2 = w0) ∧
    down_calls_gated url (sent (checker.run m ks w).2) ∧
    (instantaneous ks → down_calls_spaced url (sent (checker.run m ks w).2)).
Proof.
  intros m ks w url Hw Hord.
  assert (Hok : ∃ t, log_ok (Monitor.ID m) t (checker.run m ks w).2).
  { destruct ks as [|k ks]; [exists 0; by apply log_ok_empty|].
    apply (log_ok_run (k :: ks) m (checker.now k)).
    - split; [lia|exact Hord].
    - by apply log_ok_empty. }
  destruct Hok as [t [Hg _ _]].
  assert (Hgated : down_calls_gated url (sent (checker.run m ks w).2)).
  { intros i j a b Hij Ha Hb Hda Hdb.
    eauto using down_call_for_is_down. }
  split_and!; [reflexivity| |exact Hgated|].
  - intros ms errorMsg now later w0 r. subst r.
    unfold checker.notifyDown_gated, Seconds_ge.
    fold cooldown. destruct (cooldown <=? Since later (lastNotified ms));
      run_m; [done|by destruct w0].
  - intros Hinst i j a b Hij Ha Hb Hda Hdb.
    assert (Hat : at_time a = started a).
    { assert (HF := instantaneous_run ks m w Hinst).
      rewrite Hw in HF. specialize (HF (Forall_nil_2 _)).
      rewrite Forall_forall in HF.
      apply HF; [by eapply list_elem_of_lookup_2|].
      by eapply down_call_for_is_down. }
    rewrite Hat. eauto.
Qed.

Lemma checker_down_calls_respect_cooldown_witness :
  map at_time
    (sent (checker.run sample.api sample.long_outage sample.world).2) =
  [sample.at_second 120; sample.at_second 420]
  ∧ down_calls_spaced (Monitor.URL sample.api)
      (sent (checker.run sample.api sample.long_outage sample.world).2).
Proof.
  split; [vm_compute; reflexivity|].
  apply (checker_down_calls_respect_cooldown sample.api sample.long_outage
           sample.world (Monitor.URL sample.api)).
  - reflexivity.
  - vm_compute. repeat split; discriminate.
  - repeat constructor.
Defined.

(** The cooldown is kept in the entry of the scheduler's map:
    [UpdateMonitor] puts a fresh entry in its place, so that the failed
    check that follows it sends a down notification a minute after the
    last one. *)
Remark UpdateMonitor_resets_cooldown :
  let r := checker.run sample.api (take 3 sample.long_outage) sample.world in
  let r' := checker.UpdateMonitor r.1 r.2 in
  let r'' := checker.evaluate r.1 (sample.failing 180) r'.2 in
  map at_time (List.filter is_down_call (sent r''.2)) =
  [sample.at_second 120; sample.at_second 180].
Proof. vm_compute. reflexivity. Qed.

(** The window is counted from the opening of the evaluation that sent
    the last notification, not from the call: when the recording of that
    evaluation takes a second, the next call is made 299 seconds after
    it. *)
Remark gap_is_counted_from_the_opening :
  clock_ordered sample.slow_outage ∧
  map (λ s, (started s, at_time s))
    (sent (checker.run sample.api sample.slow_outage sample.world).2) =
  [(sample.at_second 120, sample.at_second 121);
   (sample.at_second 420, sample.at_second 420)].
Proof.
  split; [|vm_compute; reflexivity].
  vm_compute. repeat split; discriminate.
Qed.

(** ** The tray check loop *)

Ltac tray_cases :=
  unfold tray.check_one, tray.mark_up; run_m; cbn;
  autorewrite with store in *;
  repeat (case_match; simplify_eq; cbn in *; run_m;
          autorewrite with store in *).

Lemma check_one_incidents mon p now w :
  incident_rows (db (tray.check_one mon p now w).2) = incident_rows (db w).
Proof. tray_cases; reflexivity. Qed.

Lemma check_each_incidents r mons : ∀ i w,
  incident_rows (db (tray.check_each r i mons w).2) = incident_rows (db w).
Proof.
  induction mons as [|mon mons IH]; intros i w; [done|].
  cbn [tray.check_each]. unfold mbind, M_bind. cbn [fst snd].
  by rewrite IH, check_one_incidents.
Qed.

Lemma checkAllMonitors_incidents r w :
  incident_rows (db (tray.checkAllMonitors r w).2) = incident_rows (db w).
Proof.
  unfold tray.checkAllMonitors, mbind, M_bind, read_db. cbn [fst snd].
  case_match; [done|apply check_each_incidents].
Qed.

(** C4, as it is stated.  In seven rounds of the tray loop, thirty
    seconds apart, in which the probe of the one monitor fails three
    times, succeeds once and fails three times again, [NotifyDown] is
    called in the third round and in the seventh, 120 seconds later.
    And in the primary checker, when the recording of the evaluation
    that sends a notification takes a second, the next [NotifyDown] is
    called 299 seconds after it, at evaluations that open in the order
    of the clock. *)
Lemma down_calls_closer_than_cooldown :
  ¬ down_calls_spaced (Monitor.URL sample.api)
      (sent (tray.runChecker sample.flapping sample.world).2) ∧
  (clock_ordered sample.slow_outage ∧
   ¬ down_calls_spaced (Monitor.URL sample.api)
       (sent (checker.run sample.api sample.slow_outage sample.world).2)).
Proof.
  split_and!.
  - intros Hspaced.
    assert (H : cooldown ≤ sample.at_second 180 - sample.at_second 60).
    { apply (Hspaced 0%nat 2%nat
         (mkSent (sample.at_second 60) (sample.at_second 60)
            (NotifyDown "api" "http://api.test/health" "connection refused"))
         (mkSent (sample.at_second 180) (sample.at_second 180)
            (NotifyDown "api" "http://api.test/health" "connection refused")));
        [lia|vm_compute; reflexivity..]. }
    vm_compute in H. apply H. reflexivity.
  - apply gap_is_counted_from_the_opening.
  - intros Hspaced.
    assert (H : cooldown ≤ sample.at_second 420 - sample.at_second 121).
    { apply (Hspaced 0%nat 1%nat
         (mkSent (sample.at_second 120) (sample.at_second 121)
            (NotifyDown "api" "http://api.test/health" "connection refused"))
         (mkSent (sample.at_second 420) (sample.at_second 420)
            (NotifyDown "api" "http://api.test/health"
               "unexpected status code: got 503, expected one of [200]")));
        [lia|vm_compute; reflexivity..]. }
    vm_compute in H. apply H. reflexivity.
Qed.

(** C10.  No call of [checkAllMonitors], whatever the probes answer,
    changes the table of incidents: the tray loop creates, updates and
    resolves none.  This is so when it puts a monitor down and when it
    puts it up again: after three rounds of failed probes the sample
    monitor is down, after the next, successful, round it is up, and
    there is no incident. *)
Theorem tray_never_touches_incidents :
  (∀ (rs : list tray.Round) (w : World),
     incident_rows (db (tray.runChecker rs w).2) = incident_rows (db w)) ∧
  (∀ (mon : Monitor.t) (p : tray.Probe) (now : Time) (w : World),
     incident_rows (db (tray.check_one mon p now w).2) =
     incident_rows (db w)) ∧
  (let r := tray.runChecker (take 3 sample.flapping) sample.world in
   map Monitor.CurrentStatus (monitor_rows (db r.2)) = ["down"] ∧
   map is_down_call (sent r.2) = [true] ∧
   incident_rows (db r.2) = []) ∧
  (let r := tray.runChecker (take 4 sample.flapping) sample.world in
   map Monitor.CurrentStatus (monitor_rows (db r.2)) = ["up"] ∧
   map is_down_call (sent r.2) = [true; false] ∧
   incident_rows (db r.2) = []).
Proof.
  split_and!.
  - induction rs as [|r rs IH]; intros w; [done|].
    cbn [tray.runChecker]. unfold mbind, M_bind. cbn [fst snd].
    by rewrite IH, checkAllMonitors_incidents.
  - apply check_one_incidents.
  - vm_compute. done.
  - vm_compute. done.
Qed.

(** ** The probe executor: timeouts, intervals and keywords *)

Lemma wrap64_seconds z :
  -9223372036 ≤ z ≤ 9223372036 → wrap64 (z * Second) = z * Second.
Proof.
  intros H. apply wrap64_small. unfold minInt64, maxInt64, Second. lia.
Qed.

(** A timeout of [0] is replaced by the default. *)
Lemma request_timeout_zero m :
  Monitor.Timeout m = 0 →
  checker.request_timeout m = config.DefaultTimeout * Second.
Proof. intros H. unfold checker.request_timeout. by rewrite H. Qed.

(** A negative timeout is kept as it is. *)
Lemma request_timeout_negative m :
  -9223372036 ≤ Monitor.Timeout m < 0 →
  checker.request_timeout m = Monitor.Timeout m * Second.
Proof.
  intros H. unfold checker.request_timeout.
  rewrite wrap64_seconds by lia.
  destruct (Z.eqb_spec (Monitor.Timeout m * Second) 0) as [H0|]; [|done].
  unfold Second in H0. lia.
Qed.

(** An interval that is not positive is replaced by the default. *)
Lemma ticker_interval_nonpositive m :
  -9223372036 ≤ Monitor.CheckInterval m ≤ 0 →
  checker.ticker_interval m = config.DefaultCheckInterval * Second.
Proof.
  intros H. unfold checker.ticker_interval.
  rewrite wrap64_seconds by lia.
  destruct (Z.ltb_spec (Monitor.CheckInterval m * Second) Second) as [|H1].
  - reflexivity.
  - unfold Second in H1. lia.
Qed.

(** Beyond the range in which the multiplication by [time.Second] fits
    an [int64], the product wraps around: an interval of -9223372037
    seconds becomes a period of some 292 years. *)
Remark ticker_interval_wraps :
  checker.ticker_interval
    (Monitor.set_CheckInterval (-9223372037) sample.api) =
  9223372036709551616.
Proof. vm_compute. reflexivity. Qed.

(** C5, at a monitor whose timeout is -1: [performCheck] replaces a
    timeout of 0 by the default of 10 seconds and keeps the negative
    timeout, a deadline that has passed before the request is sent,
    where [startMonitor] replaces the interval of -1 by the default of
    60 seconds and the settings handler replaces the timeout of -1 by
    10 seconds. *)
Theorem negative_timeout_is_not_normalized :
  checker.request_timeout (Monitor.set_Timeout (-1) sample.api) = - Second ∧
  checker.request_timeout (Monitor.set_Timeout 0 sample.api) = 10 * Second ∧
  tray.handleAddMonitor_timeout (-1) = 10 ∧
  checker.ticker_interval (Monitor.set_CheckInterval (-1) sample.api) =
    60 * Second ∧
  checker.ticker_interval (Monitor.set_CheckInterval 0 sample.api) =
    60 * Second ∧
  storage.ParseExpectedCodes "" = [200].
Proof. split_and!; vm_compute; reflexivity. Qed.

(** The loop over the keywords. *)
Lemma missing_keyword_None keywords body :
  checker.missing_keyword keywords body = None ↔
  Forall (λ keyword, regexp.MatchString_quoted_fold keyword body = true)
    keywords.
Proof.
  induction keywords as [|k ks IH]; cbn.
  - split; [constructor|done].
  - destruct (regexp.MatchString_quoted_fold k body) eqn:Hk; cbn.
    + rewrite IH. split; [by constructor|by inversion 1].
    + split; [done|]. inversion 1. congruence.
Qed.


(** The match is the search of the keyword in the body, both in lower
    case. *)
Lemma fold_case_lower_case c : regexp.fold_case c = lower_case c.
Proof. reflexivity. Qed.

Lemma append_cons c (s1 s2 : string) :
  (String c s1 ++ s2)%string = String c (s1 ++ s2)%string.
Proof. reflexivity. Qed.

Lemma append_nil (s : string) : ("" ++ s)%string = s.
Proof. reflexivity. Qed.

Lemma has_prefix_fold_begins keyword : ∀ body,
  regexp.has_prefix_fold keyword body = true ↔
  ∃ after, to_lower body = (to_lower keyword ++ after)%string.
Proof.
  induction keyword as [|k keyword IH]; intros [|b body];
    cbn [regexp.has_prefix_fold to_lower].
  - split; [by exists ""|done].
  - split; [|done]. intros _. eexists. by rewrite append_nil.
  - split; [done|]. intros (after & H). by rewrite append_cons in H.
  - rewrite andb_true_iff, IH, !fold_case_lower_case. split.
    + intros [Hc%Ascii.eqb_eq (after & Hbody)]. exists after.
      by rewrite append_cons, Hc, Hbody.
    + intros (after & H). rewrite append_cons in H.
      injection H as Hc Hbody. split; [by apply Ascii.eqb_eq|].
      by exists after.
Qed.

Lemma MatchString_matches keyword body :
  regexp.MatchString_quoted_fold keyword body = true ↔ matches keyword body.
Proof.
  unfold matches, occurs_in.
  induction body as [|b body IH];
    cbn [regexp.MatchString_quoted_fold to_lower];
    rewrite orb_true_iff, has_prefix_fold_begins.
  - split.
    + intros [(after & H)|H]; [|done]. exists "", after.
      by rewrite append_nil.
    + intros (before & after & H). left.
      destruct before as [|c before]; [|by rewrite append_cons in H].
      rewrite append_nil in H. by exists after.
  - rewrite IH. cbn [to_lower]. split.
    + intros [(after & H)|(before & after & H)].
      * exists "", after. by rewrite append_nil.
      * exists (String (lower_case b) before), after.
        by rewrite append_cons, H.
    + intros (before & after & H).
      destruct before as [|c before].
      * left. rewrite append_nil in H. by exists after.
      * right. rewrite append_cons in H. injection H as _ H.
        by exists before, after.
Qed.

Lemma missing_keyword_None_matches keywords body :
  checker.missing_keyword keywords body = None ↔
  Forall (λ keyword, matches keyword body) keywords.
Proof.
  rewrite missing_keyword_None. apply Forall_iff. intros k.
  apply MatchString_matches.
Qed.



(** ** The parser of the expected codes *)

(** *** Bytes of the white-space encodings *)

Ltac bytes :=
  unfold strings.asciiSpace, strings.space2, strings.space3, byte, byte_in
    in *;
  repeat (progress
            rewrite ?andb_true_iff, ?orb_true_iff, ?andb_false_iff,
              ?orb_false_iff, ?N.eqb_eq, ?N.eqb_neq, ?N.leb_le, ?N.leb_gt
              in *);
  lia.

Lemma asciiSpace_may_begin a : strings.asciiSpace a = true → may_begin a.
Proof. unfold may_begin. bytes. Qed.

Lemma space2_may_begin a b : strings.space2 a b = true → may_begin a.
Proof. unfold may_begin. bytes. Qed.

Lemma space3_may_begin a b c : strings.space3 a b c = true → may_begin a.
Proof. unfold may_begin. bytes. Qed.

Lemma space2_first a b :
  strings.space2 a b = true → strings.asciiSpace a = false.
Proof. intros H. apply not_true_is_false. intros H'. bytes. Qed.

Lemma space3_first a b c :
  strings.space3 a b c = true →
  strings.asciiSpace a = false ∧ strings.space2 a b = false.
Proof.
  intros H. split; apply not_true_is_false; intros H'; bytes.
Qed.

Lemma space2_last a b :
  strings.space2 a b = true → strings.asciiSpace b = false.
Proof. intros H. apply not_true_is_false. intros H'. bytes. Qed.

Lemma space3_last a b c :
  strings.space3 a b c = true →
  strings.asciiSpace c = false ∧ strings.space2 b c = false.
Proof.
  intros H. split; apply not_true_is_false; intros H'; bytes.
Qed.

Lemma space2_second a b : may_begin b → strings.space2 a b = false.
Proof.
  unfold may_begin. intros H. apply not_true_is_false. intros H'. bytes.
Qed.

Lemma space3_second a b c : may_begin b → strings.space3 a b c = false.
Proof.
  unfold may_begin. intros H. apply not_true_is_false. intros H'. bytes.
Qed.

Lemma space3_third a b c : may_begin c → strings.space3 a b c = false.
Proof.
  unfold may_begin. intros H. apply not_true_is_false. intros H'. bytes.
Qed.

Lemma white_begins c s : white (c :: s) → may_begin c.
Proof.
  inversion 1; subst;
    eauto using asciiSpace_may_begin, space2_may_begin, space3_may_begin.
Qed.

Lemma white_app s1 s2 : white s1 → white s2 → white (s1 ++ s2).
Proof. induction 1; cbn; eauto using white. Qed.

(** *** Trimming *)

Lemma trim_left_white l : ∀ s,
  white l → strings.trim_left (l ++ s) = strings.trim_left s.
Proof.
  unfold strings.trim_left. intros s Hl.
  induction Hl as [|a l Ha _ IH|a b l Hab _ IH|a b c l Habc _ IH];
    cbn [app strings.trim_front]; [done|..].
  - by rewrite Ha.
  - by rewrite (space2_first a b Hab), Hab.
  - destruct (space3_first a b c Habc) as [-> ->]. by rewrite Habc.
Qed.

Lemma trim_back_white r : ∀ s,
  white r →
  strings.trim_front (λ b a, strings.space2 a b)
    (λ c b a, strings.space3 a b c) (rev r ++ s) =
  strings.trim_front (λ b a, strings.space2 a b)
    (λ c b a, strings.space3 a b c) s.
Proof.
  intros s Hr. revert s.
  induction Hr as [|a r Ha _ IH|a b r Hab _ IH|a b c r Habc _ IH];
    intros s; [done|..]; cbn [rev]; rewrite <- ?app_assoc, IH;
    cbn [app strings.trim_front].
  - by rewrite Ha.
  - by rewrite (space2_last a b Hab), Hab.
  - destruct (space3_last a b c Habc) as [-> ->]. by rewrite Habc.
Qed.

Lemma trim_right_white s r :
  white r → strings.trim_right (s ++ r) = strings.trim_right s.
Proof.
  intros Hr. unfold strings.trim_right.
  by rewrite rev_app_distr, trim_back_white.
Qed.

Lemma trim_right_all_white r : white r → strings.trim_right r = [].
Proof.
  intros Hr. rewrite <- (app_nil_l r), trim_right_white by done. done.
Qed.

(** What is left of a sequence trimmed on the left, when something is
    left, is not changed by white space put after it. *)
Lemma trim_left_app_white r : white r → ∀ n s,
  (length s ≤ n)%nat →
  strings.trim_left (s ++ r) =
  match strings.trim_left s with
  | [] => []
  | t => t ++ r
  end.
Proof.
  intros Hr. unfold strings.trim_left.
  assert (Hnil : strings.trim_front strings.space2 strings.space3 r = []).
  { rewrite <- (app_nil_r r). fold (strings.trim_left (r ++ [])).
    by rewrite trim_left_white. }
  assert (Hb : ∀ c r', r = c :: r' → may_begin c).
  { intros c r' ->. by eapply white_begins. }
  induction n as [|n IH]; intros s Hn.
  - destruct s; [|cbn in Hn; lia]. cbn. by rewrite Hnil.
  - destruct s as [|a s1]; [cbn; by rewrite Hnil|].
    cbn [app strings.trim_front].
    destruct (strings.asciiSpace a) eqn:Ha.
    { apply IH. cbn in Hn. lia. }
    destruct s1 as [|b s2].
    { cbn [app]. destruct r as [|b r2]; [done|].
      rewrite (space2_second a b) by eauto.
      destruct r2 as [|c r3]; [done|].
      by rewrite (space3_second a b c) by eauto. }
    cbn [app].
    destruct (strings.space2 a b) eqn:Hab.
    { apply IH. cbn in Hn. lia. }
    destruct s2 as [|c s3].
    { cbn [app]. destruct r as [|c r3]; [done|].
      by rewrite (space3_third a b c) by eauto. }
    cbn [app].
    destruct (strings.space3 a b c) eqn:Habc.
    { apply IH. cbn in Hn. lia. }
    done.
Qed.

Lemma trim_white l s r :
  white l → white r →
  strings.trim_right (strings.trim_left (l ++ s ++ r)) =
  strings.trim_right (strings.trim_left s).
Proof.
  intros Hl Hr. rewrite trim_left_white by done.
  rewrite (trim_left_app_white r Hr (length s) s) by done.
  destruct (strings.trim_left s) as [|t ts] eqn:Ht; [done|].
  by rewrite trim_right_white.
Qed.

Lemma list_ascii_of_string_app s1 s2 :
  list_ascii_of_string (s1 ++ s2) =
  list_ascii_of_string s1 ++ list_ascii_of_string s2.
Proof.
  induction s1 as [|c s1 IH]; [done|].
  change (String c s1 +:+ s2) with (String c (s1 +:+ s2)).
  cbn [list_ascii_of_string app]. by f_equal.
Qed.

Lemma TrimSpace_padded l s r :
  white_string l → white_string r →
  strings.TrimSpace (l ++ s ++ r) = strings.TrimSpace s.
Proof.
  intros Hl Hr. unfold strings.TrimSpace.
  by rewrite !list_ascii_of_string_app, trim_white.
Qed.

(** *** Splitting and joining *)

Lemma white_no_comma l : white l → ","%char ∉ l.
Proof.
  assert (Hc : N_of_ascii ","%char = 44%N) by reflexivity.
  induction 1 as [|a l Ha _ IH|a b l Hab _ IH|a b c l Habc _ IH];
    [apply not_elem_of_nil|..];
    repeat (apply not_elem_of_cons; split); try done;
    intros <-; rewrite ?Hc in *; bytes.
Qed.

Lemma no_comma_app s1 s2 : no_comma s1 → no_comma s2 → no_comma (s1 ++ s2).
Proof.
  unfold no_comma. rewrite list_ascii_of_string_app, not_elem_of_app. tauto.
Qed.

Lemma no_comma_padded p : well_padded p → no_comma (padded p).
Proof.
  intros (Hb & Ha & He). unfold padded.
  repeat apply no_comma_app; try done; by apply white_no_comma.
Qed.

Lemma Split_no_comma p : no_comma p → strings.Split p ","%char = [p].
Proof.
  unfold no_comma. induction p as [|c p IH]; [done|].
  cbn [list_ascii_of_string strings.Split].
  rewrite not_elem_of_cons. intros [Hc Hp].
  destruct (Ascii.eqb_spec c ","%char) as [->|_]; [done|].
  by rewrite IH.
Qed.

Lemma Split_app_comma p rest :
  no_comma p →
  strings.Split (p ++ String ","%char rest) ","%char =
  p :: strings.Split rest ","%char.
Proof.
  unfold no_comma. induction p as [|c p IH].
  - intros _. change ("" +:+ String "," rest) with (String ","%char rest).
    cbn [strings.Split]. by rewrite Ascii.eqb_refl.
  - cbn [list_ascii_of_string]. rewrite not_elem_of_cons. intros [Hc Hp].
    change (String c p +:+ String "," rest)
      with (String c (p +:+ String ","%char rest)).
    cbn [strings.Split].
    destruct (Ascii.eqb_spec c ","%char) as [->|_]; [done|].
    by rewrite IH.
Qed.

Lemma Split_Join ps :
  ps ≠ [] → Forall no_comma ps →
  strings.Split (strings.Join ps ",") ","%char = ps.
Proof.
  induction ps as [|p ps IH]; [done|]. intros _ Hall.
  apply Forall_cons in Hall as [Hp Hps].
  destruct ps as [|q ps].
  - cbn [strings.Join]. by apply Split_no_comma.
  - change (strings.Join (p :: q :: ps) ",")
      with (p +:+ String ","%char (strings.Join (q :: ps) ",")).
    rewrite Split_app_comma by done. by rewrite IH.
Qed.

(** *** The loop of [ParseExpectedCodes] *)

Lemma ParseExpectedCodes_loop es : ∀ acc,
  foldl (λ result p,
           let code := storage.scan_code p in
           if 0 <? code then result ++ [code] else result) acc es =
  acc ++ positive_codes es.
Proof.
  unfold positive_codes.
  induction es as [|e es IH]; intros acc; cbn [foldl map List.filter].
  - by rewrite app_nil_r.
  - rewrite IH. destruct (0 <? storage.scan_code e); [|done].
    by rewrite <- app_assoc.
Qed.

Lemma ParseExpectedCodes_codes codes :
  storage.ParseExpectedCodes codes =
  match positive_codes (entries codes) with
  | [] => [200]
  | found => found
  end.
Proof.
  unfold storage.ParseExpectedCodes, entries.
  destruct (String.eqb_spec codes "") as [->|_]; [done|].
  rewrite ParseExpectedCodes_loop, app_nil_l.
  by destruct (positive_codes _).
Qed.

Lemma scan_code_padded p :
  well_padded p → storage.scan_code (padded p) = storage.scan_code (entry p).
Proof.
  intros (Hb & Ha & _). unfold storage.scan_code, padded.
  by rewrite TrimSpace_padded.
Qed.

(** *** Numerals *)

Lemma all_digits_first c s :
  all_digits (String c s) = true → fmt.is_digit c = true.
Proof. cbn. by intros [? _]%andb_prop. Qed.

Lemma Sscanf_d_numeral p v :
  numeral p = Some v →
  fmt.Sscanf_d p =
  if (minInt64 <=? v) && (v <=? maxInt64) then Some v else None.
Proof.
  unfold numeral, fmt.Sscanf_d. intros Hn.
  destruct (match p with
            | EmptyString => (false, p)
            | String c r =>
                if byte 43 c then (false, r)
                else if byte 45 c then (true, r) else (false, p)
            end) as [negative rest].
  destruct rest as [|c rest]; [done|].
  destruct (all_digits (String c rest)) eqn:Hd; [|done].
  rewrite (all_digits_first _ _ Hd). by simplify_eq.
Qed.

Lemma Sscanf_d_not_number p :
  begins_with_number p = false → fmt.Sscanf_d p = None.
Proof.
  unfold begins_with_number, fmt.Sscanf_d.
  destruct p as [|c r]; [done|].
  destruct (byte 43 c); cbn [orb].
  { destruct r as [|d r]; [done|]. by intros ->. }
  destruct (byte 45 c).
  { destruct r as [|d r]; [done|]. by intros ->. }
  by intros ->.
Qed.

Lemma scan_code_unreadable_or_nonpositive e :
  unreadable_or_nonpositive e → storage.scan_code e ≤ 0.
Proof.
  unfold storage.scan_code. intros [Hb|(v & Hn & Hv)].
  - by rewrite Sscanf_d_not_number.
  - rewrite (Sscanf_d_numeral _ v Hn).
    by destruct ((minInt64 <=? v) && (v <=? maxInt64)).
Qed.

Lemma positive_codes_none es :
  Forall (λ e, storage.scan_code e ≤ 0) es → positive_codes es = [].
Proof.
  unfold positive_codes. induction 1 as [|e es He _ IH]; [done|].
  cbn [map List.filter]. by destruct (Z.ltb_spec 0 (storage.scan_code e)); [lia|].
Qed.

Lemma scan_code_positive_int e v :
  positive_int_entry e = Some v → storage.scan_code e = v ∧ 0 < v.
Proof.
  unfold positive_int_entry, positive_entry, storage.scan_code.
  destruct (numeral (strings.TrimSpace e)) as [n|] eqn:Hn; [|done].
  destruct (Z.ltb_spec 0 n); [|done].
  destruct (Z.leb_spec n maxInt64); [|done].
  intros [= <-]. rewrite (Sscanf_d_numeral _ n Hn).
  destruct (Z.leb_spec minInt64 n); [|unfold minInt64 in *; lia].
  by destruct (Z.leb_spec n maxInt64); [|lia].
Qed.

Lemma positive_int_entries_kept es :
  sublist (omap positive_int_entry es) (positive_codes es).
Proof.
  unfold positive_codes.
  induction es as [|e es IH]; [constructor|].
  cbn [map List.filter].
  change (omap positive_int_entry (e :: es))
    with (match positive_int_entry e with
          | Some v => v :: omap positive_int_entry es
          | None => omap positive_int_entry es
          end).
  destruct (positive_int_entry e) as [v|] eqn:He.
  - destruct (scan_code_positive_int e v He) as [-> Hv].
    destruct (Z.ltb_spec 0 v); [|lia]. by constructor.
  - destruct (0 <? storage.scan_code e); [by constructor|done].
Qed.

(** C6, as the code has it.  [ParseExpectedCodes] reads from every
    entry between the commas, white space around it apart, the number
    the entry begins with, an optional sign and decimal digits, without
    looking at what follows the digits; an entry that does not begin
    with a number, or whose number does not fit an [int], reads as 0.
    The result is the positive numbers read, in their order, or {200}
    when there is none.  So "200,201" gives {200, 201}; the empty
    string, and every input all of whose entries do not begin with a
    number or are a number that is not positive, give {200}; white space
    before and after the entries changes nothing; and every entry that
    is a positive integer no larger than the largest [int] appears in
    the result, in the order of the input.  "404abc" gives {404}, and
    the integer 99999999999999999999 alone gives {200}. *)
Theorem ParseExpectedCodes_reads_leading_numbers :
  storage.ParseExpectedCodes "200,201" = [200; 201] ∧
  storage.ParseExpectedCodes "" = [200] ∧
  (∀ codes : string,
     storage.ParseExpectedCodes codes =
     match positive_codes (entries codes) with
     | [] => [200]
     | found => found
     end) ∧
  (∀ codes : string,
     Forall unreadable_or_nonpositive (entries codes) →
     storage.ParseExpectedCodes codes = [200]) ∧
  (∀ ps : list Padded,
     Forall well_padded ps →
     storage.ParseExpectedCodes (strings.Join (map padded ps) ",") =
     storage.ParseExpectedCodes (strings.Join (map entry ps) ",")) ∧
  (∀ codes : string,
     sublist (omap positive_int_entry (entries codes))
             (storage.ParseExpectedCodes codes)) ∧
  storage.ParseExpectedCodes "404abc" = [404] ∧
  storage.ParseExpectedCodes "99999999999999999999" = [200].
Proof.
  split_and!.
  - vm_compute. reflexivity.
  - vm_compute. reflexivity.
  - apply ParseExpectedCodes_codes.
  - intros codes Hall. rewrite ParseExpectedCodes_codes.
    rewrite positive_codes_none; [done|].
    eapply Forall_impl; [exact Hall|].
    apply scan_code_unreadable_or_nonpositive.
  - intros ps Hps. rewrite !ParseExpectedCodes_codes. unfold entries.
    destruct ps as [|p ps]; [done|].
    rewrite !Split_Join.
    + unfold positive_codes. rewrite <- !list_fmap_compose.
      erewrite (Forall_fmap_ext_1 (storage.scan_code ∘ padded)); [done|].
      eapply Forall_impl; [exact Hps|]. intros q Hq. cbn.
      by apply scan_code_padded.
    + done.
    + apply Forall_fmap. eapply Forall_impl; [exact Hps|].
      by intros q (_ & _ & Hq).
    + done.
    + apply Forall_fmap. eapply Forall_impl; [exact Hps|].
      apply no_comma_padded.
  - intros codes. rewrite ParseExpectedCodes_codes.
    assert (H := positive_int_entries_kept (entries codes)).
    destruct (positive_codes (entries codes)); [|done].
    apply sublist_nil_r in H. rewrite H. apply sublist_nil_l.
  - vm_compute. reflexivity.
  - vm_compute. reflexivity.
Qed.

Lemma ParseExpectedCodes_reads_leading_numbers_witness :
  storage.ParseExpectedCodes " 200 ,201  " = [200; 201].
Proof.
  destruct ParseExpectedCodes_reads_leading_numbers
    as (H200 & _ & _ & _ & Hpad & _).
  rewrite <- H200.
  apply (Hpad [mkPadded " " "200" " "; mkPadded "" "201" "  "]).
  repeat constructor; cbn;
    try (apply not_elem_of_nil);
    repeat (apply not_elem_of_cons; split; [discriminate|]);
    try (apply not_elem_of_nil).
Defined.

(** C6, as it is stated.  "404abc" is no number, and the result is
    {404}, not {200}; 99999999999999999999 is a positive integer, and
    the result, {200}, does not have it. *)
Lemma ParseExpectedCodes_claim_fails :
  ¬ all_invalid_give_default ∧ ¬ valid_entries_kept.
Proof.
  split.
  - intros H. specialize (H "404abc").
    assert (He : entries "404abc" = ["404abc"])
      by (vm_compute; reflexivity).
    assert (Hp : positive_entry "404abc" = None)
      by (vm_compute; reflexivity).
    assert (Hr : storage.ParseExpectedCodes "404abc" = [404])
      by (vm_compute; reflexivity).
    rewrite He, Hr in H.
    assert (Habs : [404] = [200]); [|discriminate].
    apply H. apply Forall_cons_2; [exact Hp|apply Forall_nil_2].
  - intros H. specialize (H "99999999999999999999").
    assert (He : omap positive_entry (entries "99999999999999999999") =
                 [99999999999999999999])
      by (vm_compute; reflexivity).
    assert (Hr : storage.ParseExpectedCodes "99999999999999999999" = [200])
      by (vm_compute; reflexivity).
    rewrite He, Hr in H.
    inversion H as [| |x l1 l2 H']; subst. inversion H'.
Qed.

(** * Further properties *)

(** ** The record store *)

Section list_facts.
Context {A : Type}.
Implicit Types (p q : A → bool) (l : list A).

Lemma find_filter_implied p q l :
  (∀ x, p x = true → q x = true) →
  List.find p (List.filter q l) = List.find p l.
Proof.
  intros Hpq. induction l as [|a l IH]; [done|]. cbn.
  destruct (q a) eqn:Hq; cbn.
  - by destruct (p a).
  - destruct (p a) eqn:Hp; [|done]. apply Hpq in Hp. congruence.
Qed.

Lemma find_filter_excluded p q l :
  (∀ x, p x = true → q x = false) →
  List.find p (List.filter q l) = None.
Proof.
  intros Hpq. induction l as [|a l IH]; [done|]. cbn.
  destruct (q a) eqn:Hq; cbn; [|done].
  destruct (p a) eqn:Hp; [|done]. apply Hpq in Hp. congruence.
Qed.

Lemma filter_filter_implied p q l :
  (∀ x, p x = true → q x = true) →
  List.filter p (List.filter q l) = List.filter p l.
Proof.
  intros Hpq. induction l as [|a l IH]; [done|]. cbn.
  destruct (q a) eqn:Hq; cbn.
  - destruct (p a); by rewrite IH.
  - destruct (p a) eqn:Hp; [|done]. apply Hpq in Hp. congruence.
Qed.

Lemma Forall_filter_true p l : Forall (λ x, p x = true) (List.filter p l).
Proof.
  induction l as [|a l IH]; cbn; [done|].
  destruct (p a) eqn:Hp; [by constructor|done].
Qed.
End list_facts.

(** X1.  Deleting a monitor takes its row, its check results and its
    incidents out of the store, and nothing else. *)
Theorem DeleteMonitor_cascades :
  ∀ (id : N) (d : Store),
    let d' := Database.DeleteMonitor id d in
    Database.GetMonitor id d' = None ∧
    results_of id d' = [] ∧
    incidents_of id d' = [] ∧
    Database.GetActiveIncident id d' = None ∧
    ∀ other : N, other ≠ id →
      Database.GetMonitor other d' = Database.GetMonitor other d ∧
      results_of other d' = results_of other d ∧
      incidents_of other d' = incidents_of other d ∧
      Database.GetActiveIncident other d' = Database.GetActiveIncident other d.
Proof.
  intros id d d'. subst d'.
  unfold Database.GetMonitor, Database.GetActiveIncident, results_of,
    incidents_of, Database.DeleteMonitor, Database.is_active.
  cbn [monitor_rows check_result_rows incident_rows].
  split_and!.
  - apply find_filter_excluded. intros x ->. done.
  - apply (f_equal length) || idtac.
    induction (check_result_rows d) as [|a l IH]; [done|]. cbn.
    destruct (N.eqb_spec (CheckResult.MonitorID a) id); cbn; [done|].
    destruct (N.eqb_spec (CheckResult.MonitorID a) id); done.
  - induction (incident_rows d) as [|a l IH]; [done|]. cbn.
    destruct (N.eqb_spec (Incident.MonitorID a) id); cbn; [done|].
    destruct (N.eqb_spec (Incident.MonitorID a) id); done.
  - apply find_filter_excluded. intros x [-> _]%andb_prop.
    done.
  - intros other Hne. split_and!.
    + apply find_filter_implied. intros x ->%N.eqb_eq.
      apply negb_true_iff, N.eqb_neq. done.
    + apply filter_filter_implied. intros x ->%N.eqb_eq.
      apply negb_true_iff, N.eqb_neq. done.
    + apply filter_filter_implied. intros x ->%N.eqb_eq.
      apply negb_true_iff, N.eqb_neq. done.
    + apply find_filter_implied. intros x [->%N.eqb_eq _]%andb_prop.
      apply negb_true_iff, N.eqb_neq. done.
Qed.

Lemma find_map_row {A : Type} (p : A → bool) (f : A → A) (l : list A) :
  (∀ x, p (f x) = p x) →
  List.find p (map f l) = f <$> List.find p l.
Proof.
  intros Hp. induction l as [|a l IH]; [done|]. cbn.
  rewrite Hp. by destruct (p a).
Qed.

Lemma find_map_other {A : Type} (p : A → bool) (f : A → A) (l : list A) :
  (∀ x, p (f x) = p x) → (∀ x, p x = true → f x = x) →
  List.find p (map f l) = List.find p l.
Proof.
  intros Hp Hf. induction l as [|a l IH]; [done|]. cbn.
  rewrite Hp. destruct (p a) eqn:Ha; [by rewrite Hf|done].
Qed.

(** X2.  Toggling a monitor writes the flag of the monitor with that key and
    nothing else: the other columns of the row, the other rows, their
    order, the check results and the incidents stay; only a monitor
    toggled on is listed as enabled under that key, and toggling twice
    is toggling once. *)
Theorem ToggleMonitor_changes_the_flag_only :
  ∀ (id : N) (enabled : bool) (d : Store),
    let d' := Database.ToggleMonitor id enabled d in
    Database.GetMonitor id d' =
      Monitor.set_Enabled enabled <$> Database.GetMonitor id d ∧
    (∀ other : N, other ≠ id →
       Database.GetMonitor other d' = Database.GetMonitor other d) ∧
    map Monitor.ID (Database.ListMonitors d') =
      map Monitor.ID (Database.ListMonitors d) ∧
    check_result_rows d' = check_result_rows d ∧
    incident_rows d' = incident_rows d ∧
    (∀ m, m ∈ Database.ListEnabledMonitors d' → Monitor.ID m = id →
       enabled = true) ∧
    (∀ again : bool,
       Database.ToggleMonitor id again d' = Database.ToggleMonitor id again d).
Proof.
  intros id enabled d d'. subst d'.
  unfold Database.GetMonitor, Database.ListMonitors,
    Database.ListEnabledMonitors, Database.ToggleMonitor.
  cbn [monitor_rows check_result_rows incident_rows].
  split_and!; try reflexivity.
  - rewrite <- (find_map_row _ (Monitor.set_Enabled enabled)) by done.
    induction (monitor_rows d) as [|a l IH]; [done|]. cbn.
    destruct (N.eqb_spec (Monitor.ID a) id) as [He|Hne]; cbn.
    + by rewrite He, N.eqb_refl.
    + apply N.eqb_neq in Hne. by rewrite Hne.
  - intros other Hne. apply find_map_other.
    + intros x. by case_match.
    + intros x ->%N.eqb_eq. apply N.eqb_neq in Hne. by rewrite Hne.
  - rewrite map_map. apply map_ext. intros a. by case_match.
  - intros m Hin Hid. apply list_elem_of_In, filter_In in Hin as [Hin Hen].
    apply in_map_iff in Hin as (row & <- & _).
    destruct (N.eqb_spec (Monitor.ID row) id) as [_|Hne]; [done|].
    done.
  - intros again. f_equal. rewrite map_map. apply map_ext. intros a.
    destruct (N.eqb_spec (Monitor.ID a) id) as [He|Hne]; cbn.
    + apply N.eqb_eq in He. by rewrite He.
    + apply N.eqb_neq in Hne. by rewrite Hne.
Qed.

#[local] Instance newer_transitive : Transitive Database.newer.
Proof. unfold Database.newer. intros a b c ??. lia. Qed.

#[local] Instance newer_total : Total Database.newer.
Proof. unfold Database.newer. intros a b. lia. Qed.

(** X3.  For a positive limit, the recent check results of a monitor are
    results of that monitor, [limit] of them or all if there are fewer,
    the newest first, and no result that is left out is newer than one
    that is returned. *)
Theorem GetRecentCheckResults_newest_first :
  ∀ (monitorID : N) (limit : nat) (d : Store),
    (0 < limit)%nat →
    let recent := Database.GetRecentCheckResults monitorID limit d in
    length recent = (limit `min` length (results_of monitorID d))%nat ∧
    StronglySorted Database.newer recent ∧
    ∃ rest,
      recent ++ rest ≡ₚ results_of monitorID d ∧
      ∀ r x, r ∈ rest → x ∈ recent → Database.newer x r.
Proof.
  intros monitorID limit d _ recent. subst recent.
  unfold Database.GetRecentCheckResults. fold (results_of monitorID d).
  set (sorted := merge_sort Database.newer (results_of monitorID d)).
  assert (Hperm : sorted ≡ₚ results_of monitorID d)
    by apply merge_sort_Permutation.
  assert (Hsorted : StronglySorted Database.newer sorted)
    by (apply StronglySorted_merge_sort; apply _).
  rewrite <- (take_drop limit sorted) in Hsorted.
  split_and!.
  - by rewrite length_take, Hperm.
  - by apply StronglySorted_app_1_l in Hsorted.
  - exists (drop limit sorted). split; [by rewrite take_drop|].
    intros r x Hr Hx. by eapply StronglySorted_app_1_elem_of.
Qed.

Lemma GetRecentCheckResults_newest_first_witness :
  let d := mkStore []
             [CheckResult.mk 1 10 7 200 35 true "";
              CheckResult.mk 2 20 7 500 0 false "status 500";
              CheckResult.mk 3 30 8 200 12 true "";
              CheckResult.mk 4 40 7 200 31 true ""] [] in
  map CheckResult.ID (Database.GetRecentCheckResults 7 2 d) = [4; 2]%N ∧
  length (Database.GetRecentCheckResults 7 2 d) =
    (2 `min` length (results_of 7 d))%nat.
Proof.
  split; [vm_compute; reflexivity|].
  apply (GetRecentCheckResults_newest_first 7 2). lia.
Defined.

Lemma DeleteMonitor_cascades_witness :
  Database.GetMonitor 2 (Database.DeleteMonitor 2 two_monitors) = None ∧
  Database.GetMonitor 1 (Database.DeleteMonitor 2 two_monitors) =
    Some sample.api ∧
  results_of 1 (Database.DeleteMonitor 2 two_monitors) =
    results_of 1 two_monitors.
Proof.
  destruct (DeleteMonitor_cascades 2 two_monitors)
    as (Hgone & _ & _ & _ & Hothers).
  destruct (Hothers 1%N) as (Hrow & Hresults & _); [discriminate|].
  split_and!; [exact Hgone|exact Hrow|exact Hresults].
Defined.

Lemma ToggleMonitor_changes_the_flag_only_witness :
  Database.GetMonitor 1 (Database.ToggleMonitor 2 false two_monitors) =
    Some sample.api ∧
  Monitor.Enabled <$>
    Database.GetMonitor 2 (Database.ToggleMonitor 2 false two_monitors) =
    Some false.
Proof.
  destruct (ToggleMonitor_changes_the_flag_only 2 false two_monitors)
    as (Hrow & Hothers & _).
  split.
  - rewrite (Hothers 1%N); [reflexivity|discriminate].
  - rewrite Hrow. reflexivity.
Defined.

(** ** The history of check results *)

Section more_store_frames.
Variable d : Store.

Lemma check_result_rows_CreateCheckResult cr :
  check_result_rows (Database.CreateCheckResult cr d) =
  check_result_rows d ++
    [CheckResult.set_ID
       (next_key (check_result_seq d)
           (map CheckResult.ID (check_result_rows d))) cr].
Proof. reflexivity. Qed.

Lemma check_result_rows_UpdateMonitor m :
  check_result_rows (Database.UpdateMonitor m d) = check_result_rows d.
Proof. reflexivity. Qed.

Lemma check_result_rows_CreateIncident i :
  check_result_rows (Database.CreateIncident i d) = check_result_rows d.
Proof. reflexivity. Qed.

Lemma check_result_rows_ResolveIncident id t :
  check_result_rows (Database.ResolveIncident id t d) = check_result_rows d.
Proof. reflexivity. Qed.

Lemma check_result_rows_UpdateIncident i :
  check_result_rows (Database.UpdateIncident i d) = check_result_rows d.
Proof. reflexivity. Qed.

Lemma monitor_rows_CreateCheckResult cr :
  monitor_rows (Database.CreateCheckResult cr d) = monitor_rows d.
Proof. reflexivity. Qed.

Lemma monitor_rows_UpdateMonitor m :
  monitor_rows (Database.UpdateMonitor m d) =
  map (λ r, if N.eqb (Monitor.ID r) (Monitor.ID m) then m else r)
      (monitor_rows d).
Proof. reflexivity. Qed.

Lemma monitor_rows_CreateIncident i :
  monitor_rows (Database.CreateIncident i d) = monitor_rows d.
Proof. reflexivity. Qed.

Lemma monitor_rows_ResolveIncident id t :
  monitor_rows (Database.ResolveIncident id t d) = monitor_rows d.
Proof. reflexivity. Qed.

Lemma monitor_rows_UpdateIncident i :
  monitor_rows (Database.UpdateIncident i d) = monitor_rows d.
Proof. reflexivity. Qed.
End more_store_frames.

#[local] Hint Rewrite check_result_rows_CreateCheckResult
  check_result_rows_UpdateMonitor check_result_rows_CreateIncident
  check_result_rows_ResolveIncident check_result_rows_UpdateIncident
  monitor_rows_CreateCheckResult monitor_rows_UpdateMonitor
  monitor_rows_CreateIncident monitor_rows_ResolveIncident
  monitor_rows_UpdateIncident : store.

(** The row an evaluation of the checker appends. *)
Lemma evaluate_check_results m k w :
  check_result_rows (db (checker.evaluate m k w).2) =
  check_result_rows (db w) ++
    [match checker.outcome k with
     | checker.Succeeded statusCode responseTime =>
         CheckResult.mk
           (next_key (check_result_seq (db w))
           (map CheckResult.ID (check_result_rows (db w))))
           (checker.now k) (Monitor.ID m) statusCode responseTime true ""
     | checker.Failed statusCode errorMsg =>
         CheckResult.mk
           (next_key (check_result_seq (db w))
           (map CheckResult.ID (check_result_rows (db w))))
           (checker.now k) (Monitor.ID m) statusCode 0 false errorMsg
     end].
Proof.
  unfold checker.evaluate. destruct k as [[c rt|c e] t1 t2]; cbn.
  - tracker_cases; reflexivity.
  - tracker_cases; reflexivity.
Qed.

(** The monitor rows after an evaluation of the checker: the rows under
    the key of the monitor hold the copy the evaluation returns. *)
Lemma evaluate_monitor_rows m k w :
  monitor_rows (db (checker.evaluate m k w).2) =
  map (λ r, if N.eqb (Monitor.ID r) (Monitor.ID m)
            then (checker.evaluate m k w).1 else r)
      (monitor_rows (db w)).
Proof.
  unfold checker.evaluate. destruct k as [[c rt|c e] t1 t2]; cbn.
  - tracker_cases; reflexivity.
  - tracker_cases; reflexivity.
Qed.

(** X4.  The history is append-only.  A run of the checker on a monitor
    leaves the check results that were there in place and appends one
    row for each evaluation, in their order: a row of this monitor,
    created at the opening of the evaluation, successful if the probe
    was, with the status code of the probe, and with the response time
    of the probe if it succeeded and 0 if it failed. *)
Theorem run_appends_one_check_result_per_evaluation :
  ∀ (ks : list checker.Tick) (m : Monitor.t) (w : World),
    ∃ rows,
      check_result_rows (db (checker.run m ks w).2) =
        check_result_rows (db w) ++ rows ∧
      Forall (λ row, CheckResult.MonitorID row = Monitor.ID m) rows ∧
      map CheckResult.CreatedAt rows = map checker.now ks ∧
      map CheckResult.Success rows =
        map (λ k, succeeded (checker.outcome k)) ks ∧
      map CheckResult.StatusCode rows =
        map (λ k, outcome_code (checker.outcome k)) ks ∧
      map CheckResult.ResponseTime rows =
        map (λ k, match checker.outcome k with
                  | checker.Succeeded _ responseTime => responseTime
                  | checker.Failed _ _ => 0
                  end) ks.
Proof.
  induction ks as [|k ks IH]; intros m w.
  - exists []. cbn. by rewrite app_nil_r.
  - cbn [checker.run]. unfold mbind, M_bind. cbn [fst snd].
    destruct (IH (checker.evaluate m k w).1 (checker.evaluate m k w).2)
      as (rows & Hrows & Hid & Hat & Hok & Hcode & Hrt).
    rewrite evaluate_check_results, <- app_assoc in Hrows.
    rewrite evaluate_ID in Hid.
    eexists (_ :: rows). split; [exact Hrows|].
    cbn [map]. rewrite Hat, Hok, Hcode, Hrt.
    destruct (checker.outcome k); cbn;
      (split; [by constructor|done]).
Qed.

Lemma filter_length_le {A : Type} (p q : A → bool) (l : list A) :
  (∀ x, p x = true → q x = true) →
  (length (List.filter p l) ≤ length (List.filter q l))%nat.
Proof.
  intros Hpq. induction l as [|a l IH]; [done|]. cbn.
  destruct (p a) eqn:Hp.
  - rewrite (Hpq a Hp). cbn. lia.
  - destruct (q a); cbn; lia.
Qed.

(** X5.  The two counts of the statistics follow the evaluations.  The
    successful results never outnumber the results; an evaluation of the
    checker that opens at [since] or later counts once in the total of
    its monitor, and once among the successful ones exactly when the
    probe succeeded; it counts for no other monitor. *)
Theorem GetCheckResultStats_counts_each_evaluation :
  ∀ (m : Monitor.t) (k : checker.Tick) (since : Time) (w : World),
    since ≤ checker.now k →
    let before := Database.GetCheckResultStats (Monitor.ID m) since (db w) in
    let w' := (checker.evaluate m k w).2 in
    (before.2 ≤ before.1)%nat ∧
    Database.GetCheckResultStats (Monitor.ID m) since (db w') =
      (S before.1,
       if succeeded (checker.outcome k) then S before.2 else before.2) ∧
    ∀ other : N, other ≠ Monitor.ID m →
      Database.GetCheckResultStats other since (db w') =
      Database.GetCheckResultStats other since (db w).
Proof.
  intros m k since w Hsince before w'. subst before w'.
  unfold Database.GetCheckResultStats. cbn [fst snd].
  rewrite evaluate_check_results, !List.filter_app, !length_app.
  split_and!.
  - apply filter_length_le. by intros x [-> _]%andb_prop.
  - apply Z.leb_le in Hsince.
    destruct (checker.outcome k); cbn; unfold Database.counted; cbn;
      rewrite N.eqb_refl, Hsince; cbn; f_equal; lia.
  - intros other Hne. rewrite !List.filter_app, !length_app.
    assert (Hno : ∀ row, CheckResult.MonitorID row = Monitor.ID m →
                         Database.counted other since row = false).
    { intros row Hrow. unfold Database.counted. rewrite Hrow.
      assert (N.eqb (Monitor.ID m) other = false) as ->
        by (apply N.eqb_neq; congruence).
      done. }
    destruct (checker.outcome k); cbn; rewrite Hno by done; cbn;
      f_equal; lia.
Qed.

Lemma GetCheckResultStats_counts_each_evaluation_witness :
  Database.GetCheckResultStats (Monitor.ID sample.api)
    (sample.at_second 0)
    (db (checker.evaluate sample.api (sample.failing 10) sample.world).2) =
  (S (Database.GetCheckResultStats (Monitor.ID sample.api)
        (sample.at_second 0) (db sample.world)).1,
   (Database.GetCheckResultStats (Monitor.ID sample.api)
      (sample.at_second 0) (db sample.world)).2).
Proof.
  apply (GetCheckResultStats_counts_each_evaluation sample.api
           (sample.failing 10) (sample.at_second 0) sample.world).
  vm_compute. discriminate.
Defined.

(** ** The bookkeeping of an evaluation *)

Lemma find_map_replace {A : Type} (p : A → bool) (y : A) (l : list A) :
  p y = true →
  List.find p (map (λ x, if p x then y else x) l) =
  (λ _, y) <$> List.find p l.
Proof.
  intros Hy. induction l as [|a l IH]; [done|]. cbn.
  destruct (p a) eqn:Ha; [by rewrite Hy|by rewrite Ha].
Qed.

Lemma evaluate_configuration m k w :
  same_configuration m (checker.evaluate m k w).1 ∧
  Monitor.LastCheckAt (checker.evaluate m k w).1 = Some (checker.now k).
Proof.
  unfold checker.evaluate, same_configuration.
  destruct k as [[c rt|c e] t1 t2]; cbn.
  - rewrite recordSuccess_monitor. cbn. by split_and!.
  - tracker_cases; by split_and!.
Qed.

(** X6.  An evaluation writes the goroutine's copy of the monitor back.  If
    the store holds a row for the monitor, then after the evaluation the
    row is the copy the evaluation returns: it has the configuration of
    the copy the evaluation started from, whatever the row held, and the
    opening of the evaluation as the time of the last check.  The rows
    of the other monitors are as they were. *)
Theorem evaluate_writes_back_the_copy :
  ∀ (m : Monitor.t) (k : checker.Tick) (w : World) (row : Monitor.t),
    Database.GetMonitor (Monitor.ID m) (db w) = Some row →
    let m' := (checker.evaluate m k w).1 in
    let w' := (checker.evaluate m k w).2 in
    Database.GetMonitor (Monitor.ID m) (db w') = Some m' ∧
    same_configuration m m' ∧
    Monitor.LastCheckAt m' = Some (checker.now k) ∧
    ∀ other : N, other ≠ Monitor.ID m →
      Database.GetMonitor other (db w') = Database.GetMonitor other (db w).
Proof.
  intros m k w row Hrow m' w'. subst m' w'.
  destruct (evaluate_configuration m k w) as [Hcfg Hat].
  unfold Database.GetMonitor in *. rewrite evaluate_monitor_rows.
  split_and!; [|done|done|].
  - rewrite (find_map_replace (λ r, N.eqb (Monitor.ID r) (Monitor.ID m))).
    + by rewrite Hrow.
    + rewrite evaluate_ID. apply N.eqb_refl.
  - intros other Hne. apply find_map_other.
    + intros x. destruct (N.eqb_spec (Monitor.ID x) (Monitor.ID m)) as [He|];
        [|done].
      by rewrite evaluate_ID, He.
    + intros x ->%N.eqb_eq. apply N.eqb_neq in Hne. by rewrite Hne.
Qed.

Lemma evaluate_writes_back_the_copy_witness :
  Database.GetMonitor 1 (db (checker.evaluate sample.api (sample.failing 0)
                               sample.world).2) =
  Some (checker.evaluate sample.api (sample.failing 0) sample.world).1.
Proof.
  apply (evaluate_writes_back_the_copy sample.api (sample.failing 0)
           sample.world sample.api).
  reflexivity.
Defined.

(** X7.  A monitor switched off in the store while its goroutine runs is
    switched on again by the next evaluation, and one switched on is
    switched off: the flag the store holds after the evaluation is the
    flag of the goroutine's copy. *)
Theorem evaluate_undoes_ToggleMonitor :
  ∀ (m : Monitor.t) (k : checker.Tick) (w : World) (row : Monitor.t)
    (enabled : bool),
    Database.GetMonitor (Monitor.ID m) (db w) = Some row →
    let toggled :=
      mkWorld (Database.ToggleMonitor (Monitor.ID m) enabled (db w))
        (monitors w) (sent w) in
    Database.GetMonitor (Monitor.ID m) (db toggled) =
      Some (Monitor.set_Enabled enabled row) ∧
    Monitor.Enabled <$>
      Database.GetMonitor (Monitor.ID m)
        (db (checker.evaluate m k toggled).2) =
    Some (Monitor.Enabled m).
Proof.
  intros m k w row enabled Hrow toggled.
  assert (Htoggled : Database.GetMonitor (Monitor.ID m) (db toggled) =
                     Some (Monitor.set_Enabled enabled row)).
  { subst toggled. cbn [db].
    unfold Database.GetMonitor, Database.ToggleMonitor in *.
    cbn [monitor_rows].
    induction (monitor_rows (db w)) as [|a l IH]; [done|]. cbn in *.
    destruct (N.eqb_spec (Monitor.ID a) (Monitor.ID m)) as [He|Hne]; cbn.
    - rewrite He, N.eqb_refl. congruence.
    - apply N.eqb_neq in Hne. rewrite Hne. by apply IH. }
  split; [done|].
  destruct (evaluate_configuration m k toggled) as [(_&_&_&Hen&_) _].
  unfold Database.GetMonitor in *. rewrite evaluate_monitor_rows.
  rewrite (find_map_replace (λ r, N.eqb (Monitor.ID r) (Monitor.ID m))).
  - rewrite Htoggled. cbn. by rewrite Hen.
  - rewrite evaluate_ID. apply N.eqb_refl.
Qed.

Lemma evaluate_undoes_ToggleMonitor_witness :
  Monitor.Enabled <$>
    Database.GetMonitor 1
      (db (checker.evaluate sample.api (sample.succeeding 0)
             (mkWorld (Database.ToggleMonitor 1 false (db sample.world))
                (monitors sample.world) (sent sample.world))).2) =
  Some true.
Proof.
  apply (evaluate_undoes_ToggleMonitor sample.api (sample.succeeding 0)
           sample.world sample.api false).
  reflexivity.
Defined.

Lemma evaluate_counts m k w :
  Monitor.ConsecutiveFails (checker.evaluate m k w).1 =
    (if is_failure k then wrap64 (Monitor.ConsecutiveFails m + 1) else 0) ∧
  Monitor.CurrentStatus (checker.evaluate m k w).1 =
    (if is_failure k
     then if config.DefaultMaxFailures <=?
               wrap64 (Monitor.ConsecutiveFails m + 1)
          then "down" else Monitor.CurrentStatus m
     else "up").
Proof.
  unfold checker.evaluate, is_failure.
  destruct (checker.outcome k) as [c rt|c e].
  - by rewrite recordSuccess_monitor.
  - by rewrite recordFailure_fails, recordFailure_status.
Qed.

Lemma run_streak ks : ∀ m w c,
  Monitor.ConsecutiveFails m = c → 0 ≤ c →
  (Monitor.CurrentStatus m = "down" ↔ config.DefaultMaxFailures ≤ c) →
  c + Z.of_nat (length ks) ≤ maxInt64 →
  Monitor.ConsecutiveFails (checker.run m ks w).1 = foldl streak_step c ks ∧
  (Monitor.CurrentStatus (checker.run m ks w).1 = "down" ↔
   config.DefaultMaxFailures ≤ foldl streak_step c ks).
Proof.
  unfold config.DefaultMaxFailures.
  induction ks as [|k ks IH]; intros m w c Hc Hpos Hdown Hlen; [done|].
  cbn [checker.run foldl length] in *. unfold mbind, M_bind. cbn [fst snd].
  destruct (evaluate_counts m k w) as [Hfails Hstatus].
  unfold config.DefaultMaxFailures in Hstatus.
  rewrite Hc in Hfails, Hstatus.
  unfold maxInt64 in Hlen.
  apply IH; unfold streak_step, maxInt64.
  - rewrite Hfails. case_match; [|done].
    apply wrap64_small. unfold minInt64, maxInt64. lia.
  - case_match; lia.
  - rewrite Hstatus. destruct (is_failure k); [|split; [done|lia]].
    rewrite wrap64_small by (unfold minInt64, maxInt64; lia).
    destruct (Z.leb_spec 3 (c + 1)) as [Hge|Hlt]; [done|].
    rewrite Hdown. lia.
  - case_match; lia.
Qed.

(** X8.  The status follows the failures in a row.  From a monitor that is
    not down and has no failure counted, after any run of the checker
    the count of consecutive failures is the number of failed
    evaluations the run ends with, and the monitor is down exactly when
    that number is three or more. *)
Theorem run_status_follows_the_streak :
  ∀ (ks : list checker.Tick) (m : Monitor.t) (w : World),
    Monitor.ConsecutiveFails m = 0 →
    Monitor.CurrentStatus m ≠ "down" →
    Z.of_nat (length ks) ≤ maxInt64 →
    Monitor.ConsecutiveFails (checker.run m ks w).1 = streak ks ∧
    (Monitor.CurrentStatus (checker.run m ks w).1 = "down" ↔
     config.DefaultMaxFailures ≤ streak ks).
Proof.
  intros ks m w Hc Hs Hlen. by apply run_streak.
Qed.

Lemma run_status_follows_the_streak_witness :
  Monitor.ConsecutiveFails
    (checker.run sample.api sample.two_outages sample.world).1 =
  streak sample.two_outages ∧
  streak sample.two_outages = 3.
Proof.
  split; [|vm_compute; reflexivity].
  apply (run_status_follows_the_streak sample.two_outages sample.api
           sample.world).
  - reflexivity.
  - discriminate.
  - vm_compute. discriminate.
Defined.

(** ** Recoveries that are not announced *)

Lemma run_app ks1 : ∀ ks2 m w,
  checker.run m (ks1 ++ ks2) w =
  checker.run (checker.run m ks1 w).1 ks2 (checker.run m ks1 w).2.
Proof.
  induction ks1 as [|k ks1 IH]; intros ks2 m w; [done|].
  cbn [app checker.run]. unfold mbind, M_bind. cbn [fst snd]. apply IH.
Qed.

Lemma run_ID ks : ∀ m w, Monitor.ID (checker.run m ks w).1 = Monitor.ID m.
Proof.
  induction ks as [|k ks IH]; intros m w; [done|].
  cbn [checker.run]. unfold mbind, M_bind. cbn [fst snd].
  by rewrite IH, evaluate_ID.
Qed.

Lemma recoveries_app log1 log2 :
  recoveries (log1 ++ log2) = (recoveries log1 + recoveries log2)%nat.
Proof. unfold recoveries. by rewrite List.filter_app, length_app. Qed.

Lemma recordFailure_recoveries m statusCode errorMsg now later w :
  recoveries (sent (checker.recordFailure m statusCode errorMsg now later w).2)
  = recoveries (sent w).
Proof.
  tracker_cases; unfold recoveries;
    rewrite ?List.filter_app, ?length_app; cbn; lia.
Qed.

(** Saving a changed copy of the incident that was found keeps it the
    incident that is found. *)
Lemma find_active_save id i i' rows :
  find (Database.is_active id) rows = Some i →
  Database.is_active id i' = true →
  find (Database.is_active id)
    (map (λ r, if N.eqb (Incident.ID r) (Incident.ID i) then i' else r) rows)
  = Some i'.
Proof.
  intros Hfind Hact.
  induction rows as [|a rows IH]; [done|].
  cbn in Hfind. cbn [map find].
  destruct (N.eqb_spec (Incident.ID a) (Incident.ID i)) as [Heq|Hne].
  - by rewrite Hact.
  - destruct (Database.is_active id a) eqn:Ha; [congruence|by apply IH].
Qed.

Lemma find_app_Some {A : Type} (p : A → bool) (l1 l2 : list A) (x : A) :
  find p l1 = Some x → find p (l1 ++ l2) = Some x.
Proof.
  induction l1 as [|a l1 IH]; [done|]. cbn. by destruct (p a).
Qed.

Lemma recordFailure_found_flagged m statusCode errorMsg now later w :
  found_flagged (Monitor.ID m) (db w) →
  found_flagged (Monitor.ID m)
    (db (checker.recordFailure m statusCode errorMsg now later w).2).
Proof.
  intros (i & Hfind & Hflag).
  unfold found_flagged, Database.GetActiveIncident in *.
  rewrite recordFailure_incidents.
  unfold Database.GetActiveIncident. rewrite Hfind.
  repeat case_match.
  - exists (Incident.set_ErrorMessage errorMsg i). split; [|done].
    apply find_active_save; [done|].
    apply find_some in Hfind as [_ Hact]. exact Hact.
  - exists i. split; [|done]. by apply find_app_Some.
  - by exists i.
Qed.

Lemma recordSuccess_found_flagged m statusCode responseTime now later w :
  found_flagged (Monitor.ID m) (db w) →
  sent (checker.recordSuccess m statusCode responseTime now later w).2 =
  sent w.
Proof.
  intros (i & Hfind & Hflag).
  destruct (String.eqb_spec (Monitor.CurrentStatus m) "down") as [Hd|Hd].
  - by destruct (recordSuccess_already_notified m statusCode responseTime
                   now later w i Hd Hfind Hflag) as [-> _].
  - by destruct (recordSuccess_not_down m statusCode responseTime now later
                   w Hd) as [_ ->].
Qed.

Lemma run_failures_found_flagged ks : ∀ m w,
  forallb is_failure ks = true →
  found_flagged (Monitor.ID m) (db w) →
  found_flagged (Monitor.ID m) (db (checker.run m ks w).2) ∧
  recoveries (sent (checker.run m ks w).2) = recoveries (sent w).
Proof.
  induction ks as [|k ks IH]; intros m w Hf Hw; [done|].
  cbn in Hf. apply andb_prop in Hf as [Hk Hf].
  cbn [checker.run]. unfold mbind, M_bind. cbn [fst snd].
  assert (Hid := evaluate_ID m k w).
  unfold is_failure in Hk. unfold checker.evaluate in *.
  destruct (checker.outcome k) as [|c e]; [done|].
  set (r := checker.recordFailure m c e (checker.now k) (checker.later k) w)
    in *.
  destruct (IH r.1 r.2 Hf) as [Hflag Hsent].
  - rewrite Hid. by apply recordFailure_found_flagged.
  - rewrite Hid in Hflag. split; [done|].
    rewrite Hsent. apply recordFailure_recoveries.
Qed.

Lemma recordSuccess_announced m statusCode responseTime now later w incident :
  Monitor.CurrentStatus m = "down" →
  Database.GetActiveIncident (Monitor.ID m) (db w) = Some incident →
  Incident.RecoveryNotified incident = false →
  let r := checker.recordSuccess m statusCode responseTime now later w in
  sent r.2 =
    sent w ++ [mkSent now later
                 (NotifyRecovery (Monitor.Name m) (Monitor.URL m))] ∧
  found_flagged (Monitor.ID m) (db r.2).
Proof.
  intros Hd Hact Hflag r. subst r. apply String.eqb_eq in Hd.
  split.
  - tracker_cases; try congruence; try reflexivity;
      rewrite Hflag in *; discriminate.
  - exists (Incident.set_RecoveryNotified true incident). split; [|done].
    tracker_cases; try congruence;
      try (rewrite Hflag in *; discriminate).
    unfold Database.GetActiveIncident in *.
    autorewrite with store.
    change (Incident.ID (Incident.set_RecoveryNotified true incident))
      with (Incident.ID incident).
    by apply find_active_resolve_then_save.
Qed.

(** X9.  After a recovery that is announced, the next recovery of the monitor
    is not.  When a successful evaluation of a monitor that is down
    announces the recovery, and failed evaluations and then a successful
    one follow, these send no recovery notification, although three or
    more failed evaluations bring the monitor down again. *)
Theorem recovery_after_an_announced_one_is_silent :
  ∀ (m : Monitor.t) (k k' : checker.Tick) (ks : list checker.Tick)
    (w : World) (incident : Incident.t),
    Monitor.CurrentStatus m = "down" →
    Database.GetActiveIncident (Monitor.ID m) (db w) = Some incident →
    Incident.RecoveryNotified incident = false →
    is_failure k = false →
    forallb is_failure ks = true →
    is_failure k' = false →
    let first := checker.evaluate m k w in
    let outage := checker.run first.1 ks first.2 in
    let second := checker.evaluate outage.1 k' outage.2 in
    recoveries (sent first.2) = S (recoveries (sent w)) ∧
    ((3 ≤ length ks)%nat → Z.of_nat (length ks) ≤ maxInt64 →
     Monitor.CurrentStatus outage.1 = "down") ∧
    recoveries (sent second.2) = recoveries (sent first.2) ∧
    Monitor.CurrentStatus second.1 = "up".
Proof.
  intros m k k' ks w incident Hd Hact Hflag Hk Hks Hk' first outage second.
  assert (Hfirst : sent first.2 = sent w ++
            [mkSent (checker.now k) (checker.later k)
               (NotifyRecovery (Monitor.Name m) (Monitor.URL m))] ∧
          found_flagged (Monitor.ID m) (db first.2)).
  { subst first. unfold is_failure, checker.evaluate in *.
    destruct (checker.outcome k) as [c rt|]; [|done].
    by apply recordSuccess_announced with incident. }
  destruct Hfirst as [Hsent Hfound].
  assert (Hid : Monitor.ID first.1 = Monitor.ID m) by apply evaluate_ID.
  assert (Hup := evaluate_counts m k w). rewrite Hk in Hup.
  destruct Hup as [Hfails Hstatus]. fold first in Hfails, Hstatus.
  destruct (run_failures_found_flagged ks first.1 first.2 Hks)
    as [Hfound' Hsame]; [by rewrite Hid|].
  fold outage in Hfound', Hsame.
  split_and!.
  - rewrite Hsent, recoveries_app. cbn. lia.
  - intros Hlen Hmax.
    destruct (run_failures_fresh ks first.1 first.2 Hks) as [Hdown _].
    + by rewrite Hstatus.
    + rewrite Hfails. unfold config.DefaultMaxFailures. lia.
    + fold outage in Hdown. apply Hdown.
      rewrite Hfails. unfold config.DefaultMaxFailures. lia.
  - rewrite <- Hsame. subst second.
    unfold is_failure, checker.evaluate in *.
    destruct (checker.outcome k') as [c rt|]; [|done].
    f_equal. apply recordSuccess_found_flagged.
    subst outage. by rewrite run_ID in *.
  - subst second. destruct (evaluate_counts outage.1 k' outage.2) as [_ ->].
    by rewrite Hk'.
Qed.

Lemma recovery_after_an_announced_one_is_silent_witness :
  let first :=
    checker.evaluate sample.api_down (sample.succeeding 180)
      sample.world_down in
  let outage :=
    checker.run first.1
      [sample.failing 240; sample.failing 300; sample.failing 360] first.2 in
  let second := checker.evaluate outage.1 (sample.succeeding 420) outage.2 in
  recoveries (sent first.2) = 1%nat ∧
  Monitor.CurrentStatus outage.1 = "down" ∧
  recoveries (sent second.2) = 1%nat.
Proof.
  destruct (recovery_after_an_announced_one_is_silent sample.api_down
              (sample.succeeding 180) (sample.succeeding 420)
              [sample.failing 240; sample.failing 300; sample.failing 360]
              sample.world_down sample.outage)
    as (H1 & H2 & H3 & _); try reflexivity.
  cbv zeta. split_and!.
  - exact H1.
  - apply H2; [cbn; lia|vm_compute; discriminate].
  - rewrite H3. exact H1.
Defined.

(** ** When an evaluation notifies *)

(** X10.  An evaluation of the checker sends one notification at most, and
    only for a change it has a reason to report.  A down call is sent by
    a failed evaluation that leaves the monitor down, for a monitor that
    is scheduled and whose last down call opened five minutes or more
    before; it names the monitor and carries the error of the probe, and
    the opening of the evaluation becomes the time of the last down
    call.  A recovery call is sent by a successful evaluation of a
    monitor that was down, when the incident found for it had no
    recovery notified. *)
Theorem evaluate_notifies_only_for_a_reason :
  ∀ (m : Monitor.t) (k : checker.Tick) (w : World),
    let r := checker.evaluate m k w in
    sent r.2 = sent w ∨
    (∃ statusCode errorMsg ms,
       checker.outcome k = checker.Failed statusCode errorMsg ∧
       sent r.2 =
         sent w ++ [mkSent (checker.now k) (checker.later k)
                      (NotifyDown (Monitor.Name m) (Monitor.URL m) errorMsg)] ∧
       Monitor.CurrentStatus r.1 = "down" ∧
       monitors w !! Monitor.ID m = Some ms ∧
       cooldown ≤ checker.later k - lastNotified ms ∧
       lastNotified <$> monitors r.2 !! Monitor.ID m = Some (checker.now k)) ∨
    (∃ statusCode responseTime incident,
       checker.outcome k = checker.Succeeded statusCode responseTime ∧
       sent r.2 =
         sent w ++ [mkSent (checker.now k) (checker.later k)
                      (NotifyRecovery (Monitor.Name m) (Monitor.URL m))] ∧
       Monitor.CurrentStatus m = "down" ∧
       Database.GetActiveIncident (Monitor.ID m) (db w) = Some incident ∧
       Incident.RecoveryNotified incident = false).
Proof.
  intros m k w r. subst r. unfold checker.evaluate.
  destruct k as [[c rt|c e] t1 t2]; cbn [checker.outcome checker.now
    checker.later].
  - tracker_cases; try (by left).
    right. right. eexists c, rt, _. split_and!; try done.
    + by apply String.eqb_eq.
    + by apply negb_true_iff.
  - tracker_cases; try (by left).
    all: right; left; eexists c, e, _; split_and!; try done;
      [by apply gate_open|by rewrite lookup_alter; simplify_option_eq].
Qed.

(** ** What a probe comes to *)

Lemma statusOK_elem_of statusCode expectedCodes :
  checker.statusOK statusCode expectedCodes = true ↔
  statusCode ∈ expectedCodes.
Proof.
  unfold checker.statusOK. rewrite existsb_exists, list_elem_of_In.
  split.
  - by intros (x & Hin & ->%Z.eqb_eq).
  - intros Hin. exists statusCode. by rewrite Z.eqb_refl.
Qed.

(** X11.  The checker accepts a probe only when a response arrived
    whose body could be read and whose status code is one of the
    expected codes; and a response with a body of ASCII characters, for
    a monitor with keywords of ASCII characters, it accepts exactly
    when the status code is one of the expected codes and every keyword
    occurs in the body, upper case taken for lower case.  The status
    code is checked first: a response with a code that is not expected
    fails with the same error whatever its body.  The outcome carries
    the status code of the response, and 0 when no response arrived. *)
Theorem classify_checks_status_then_keywords :
  ∀ (m : Monitor.t) (x : checker.Exchange),
    let expectedCodes :=
      storage.ParseExpectedCodes (Monitor.ExpectedCodes m) in
    let keywords := storage.ParseKeywords (Monitor.Keywords m) in
    (∀ statusCode responseTime,
       checker.classify m x = checker.Succeeded statusCode responseTime →
       ∃ body,
         x = checker.Response statusCode responseTime body ∧
         statusCode ∈ expectedCodes) ∧
    (∀ statusCode responseTime body,
       x = checker.Response statusCode responseTime body →
       is_ascii body = true →
       Forall (λ keyword, is_ascii keyword = true) keywords →
       (checker.classify m x = checker.Succeeded statusCode responseTime ↔
        statusCode ∈ expectedCodes ∧
        Forall (λ keyword, matches keyword body) keywords)) ∧
    (∀ statusCode responseTime body body',
       x = checker.Response statusCode responseTime body →
       statusCode ∉ expectedCodes →
       succeeded (checker.classify m x) = false ∧
       checker.classify m (checker.Response statusCode responseTime body') =
       checker.classify m x) ∧
    outcome_code (checker.classify m x) =
      match x with
      | checker.RequestError _ | checker.DoError _ => 0
      | checker.ReadError statusCode _ => statusCode
      | checker.Response statusCode _ _ => statusCode
      end.
Proof.
  intros m x expectedCodes keywords. split_and!.
  - intros statusCode responseTime.
    destruct x as [e|e|c e|c rt body]; cbn; try done.
    fold expectedCodes keywords.
    destruct (checker.statusOK c expectedCodes) eqn:Hok; cbn; [|done].
    destruct (checker.missing_keyword keywords body) eqn:Hk; [done|].
    intros [= <- <-]. exists body. split; [done|].
    by apply statusOK_elem_of.
  - intros statusCode responseTime body -> _ _. cbn.
    fold expectedCodes keywords.
    rewrite <- statusOK_elem_of, <- missing_keyword_None_matches.
    destruct (checker.statusOK statusCode expectedCodes); cbn.
    + destruct (checker.missing_keyword keywords body); split;
        [done|by intros [_ ?]|done|done].
    + split; [done|by intros [? _]].
  - intros statusCode responseTime body body' -> Hcode. cbn.
    fold expectedCodes keywords.
    destruct (checker.statusOK statusCode expectedCodes) eqn:Hok.
    + by apply statusOK_elem_of in Hok.
    + done.
  - destruct x as [e|e|c e|c rt body]; cbn; try done.
    fold expectedCodes keywords.
    destruct (checker.statusOK c expectedCodes); cbn; [|done].
    by destruct (checker.missing_keyword keywords body).
Qed.

Lemma classify_checks_status_then_keywords_witness :
  succeeded
    (checker.classify sample.api_keywords
       (checker.Response 503 40 "ok, all systems ready")) = false.
Proof.
  destruct (classify_checks_status_then_keywords sample.api_keywords
              (checker.Response 503 40 "ok, all systems ready"))
    as (_ & _ & Hstatus & _).
  destruct (Hstatus 503 40 "ok, all systems ready" "") as [Hfails _].
  - reflexivity.
  - replace (storage.ParseExpectedCodes
               (Monitor.ExpectedCodes sample.api_keywords))
      with [200] by (vm_compute; reflexivity).
    intros Hin. apply list_elem_of_singleton in Hin. discriminate.
  - exact Hfails.
Defined.

Lemma tray_missing_keyword keywords body :
  tray.missing_keyword keywords body =
  checker.missing_keyword keywords body.
Proof. induction keywords as [|k ks IH]; cbn; [done|]. by rewrite IH. Qed.

(** X12.  The tray and the checker judge a probe alike.  On the same
    exchange with the same monitor, [checkMonitor] of the tray reports
    no error exactly when [performCheck] of the checker records a
    success, both give the same status code and, on success, the same
    response time.  They differ in two things.  After a failure that
    follows a response the tray keeps the measured time and the checker
    records 0.  And both give the context of the request the same
    timeout, which is the time the tray gives the exchange, but the
    client of the checker times out after thirty seconds: the checker
    gives the exchange the time the tray gives it when that is thirty
    seconds or less, and thirty seconds when it is more. *)
Theorem checkMonitor_agrees_with_classify :
  ∀ (mon : Monitor.t) (x : tray.Exchange),
    let p := tray.checkMonitor mon x in
    let o := checker.classify mon (as_checker_exchange x) in
    (tray.checkErr p = None ↔ succeeded o = true) ∧
    tray.statusCode p = outcome_code o ∧
    checker.request_timeout mon = tray.checkMonitor_timeout mon ∧
    checker.deadline mon =
      Z.min (tray.checkMonitor_timeout mon) (30 * Second) ∧
    (tray.checkMonitor_timeout mon ≤ 30 * Second →
     checker.deadline mon = tray.checkMonitor_timeout mon) ∧
    (30 * Second < tray.checkMonitor_timeout mon →
     checker.deadline mon = 30 * Second) ∧
    (succeeded o = true →
     o = checker.Succeeded (tray.statusCode p) (tray.responseTime p)) ∧
    tray.responseTime p =
      match x with
      | tray.RequestError _ | tray.DoError _ => 0
      | tray.ReadError _ responseTime _ => responseTime
      | tray.Response _ responseTime _ => responseTime
      end.
Proof.
  intros mon x p o. subst p o.
  assert (Hctx : checker.request_timeout mon = tray.checkMonitor_timeout mon)
    by reflexivity.
  assert (Hcut : checker.deadline mon =
                 Z.min (tray.checkMonitor_timeout mon) (30 * Second))
    by reflexivity.
  assert (Hle : tray.checkMonitor_timeout mon ≤ 30 * Second →
                checker.deadline mon = tray.checkMonitor_timeout mon)
    by (rewrite Hcut; lia).
  assert (Hgt : 30 * Second < tray.checkMonitor_timeout mon →
                checker.deadline mon = 30 * Second)
    by (rewrite Hcut; lia).
  destruct x as [e|e|c rt e|c rt body]; cbn;
    try (split; [done|]; split; [done|]; split; [done|]; split; [done|];
         split; [done|]; split; [done|]; by split).
  fold (checker.statusOK c
          (storage.ParseExpectedCodes (Monitor.ExpectedCodes mon))).
  rewrite tray_missing_keyword.
  destruct (checker.statusOK c _); cbn;
    [|split; [done|]; split; [done|]; split; [done|]; split; [done|];
      split; [done|]; split; [done|]; by split].
  destruct (checker.missing_keyword _ body); cbn;
    (split; [done|]; split; [done|]; split; [done|]; split; [done|];
     split; [done|]; split; [done|]; by split).
Qed.

Lemma checkMonitor_agrees_with_classify_witness :
  checker.classify sample.api (checker.Response 200 40 "") =
  checker.Succeeded
    (tray.statusCode (tray.checkMonitor sample.api (tray.Response 200 40 "")))
    (tray.responseTime
       (tray.checkMonitor sample.api (tray.Response 200 40 ""))).
Proof.
  destruct (checkMonitor_agrees_with_classify sample.api
              (tray.Response 200 40 ""))
    as (_ & _ & _ & _ & _ & _ & Hsame & _).
  apply Hsame. vm_compute. reflexivity.
Defined.

(** ** The scheduler *)

Lemma wrap64_range z : minInt64 ≤ wrap64 z ≤ maxInt64.
Proof.
  unfold wrap64, minInt64, maxInt64.
  assert (H := Z.mod_pos_bound (z + 2 ^ 63) (2 ^ 64)). lia.
Qed.

Lemma ticker_interval_at_least_a_second m :
  Second ≤ checker.ticker_interval m ≤ maxInt64.
Proof.
  unfold checker.ticker_interval.
  destruct (Z.ltb_spec (wrap64 (Monitor.CheckInterval m * Second)) Second)
    as [_|Hge].
  - rewrite wrap64_seconds by (unfold config.DefaultCheckInterval; lia).
    unfold config.DefaultCheckInterval, Second, maxInt64. lia.
  - split; [done|apply wrap64_range].
Qed.

(** X13.  The period [startMonitor] gives the ticker is a second at least,
    whatever the interval of the monitor, so that [time.NewTicker] has a
    positive period; it is the interval of the monitor when that is one
    second or more and its nanoseconds fit a [Duration], and the default
    of sixty seconds when the interval is zero or negative. *)
Theorem ticker_interval_is_a_valid_period :
  ∀ m : Monitor.t,
    Second ≤ checker.ticker_interval m ≤ maxInt64 ∧
    (1 ≤ Monitor.CheckInterval m ≤ 9223372036 →
     checker.ticker_interval m = Monitor.CheckInterval m * Second) ∧
    (-9223372036 ≤ Monitor.CheckInterval m ≤ 0 →
     checker.ticker_interval m = config.DefaultCheckInterval * Second).
Proof.
  intros m. split; [|split].
  - apply ticker_interval_at_least_a_second.
  - intros Hci. unfold checker.ticker_interval.
    rewrite wrap64_seconds by lia.
    destruct (Z.ltb_spec (Monitor.CheckInterval m * Second) Second)
      as [Hlt|_]; [|done].
    unfold Second in Hlt. lia.
  - apply ticker_interval_nonpositive.
Qed.

Lemma ticker_interval_is_a_valid_period_witness :
  checker.ticker_interval sample.api = 60 * Second ∧
  checker.ticker_interval (Monitor.set_CheckInterval (-5) sample.api) =
    60 * Second.
Proof.
  split.
  - destruct (ticker_interval_is_a_valid_period sample.api)
      as (_ & Hkept & _).
    apply Hkept. change (1 ≤ 60 ≤ 9223372036). lia.
  - destruct (ticker_interval_is_a_valid_period
                (Monitor.set_CheckInterval (-5) sample.api))
      as (_ & _ & Hdefault).
    apply Hdefault. change (-9223372036 ≤ -5 ≤ 0). lia.
Defined.

Lemma start_each_started ms : ∀ w,
  (checker.start_each ms w).1 =
  map (λ m, checker.mkGoroutine m (checker.ticker_interval m)) ms.
Proof.
  induction ms as [|m ms IH]; intros w; [done|].
  cbn [checker.start_each map]. unfold checker.startMonitor. run_m.
  by rewrite IH.
Qed.

Lemma start_each_lookup ms : ∀ w id,
  match monitors (checker.start_each ms w).2 !! id with
  | Some state =>
      (∃ m, m ∈ ms ∧ Monitor.ID m = id ∧
            state = mkMonitorState (checker.ticker_interval m) 0) ∨
      ((id ∉ map Monitor.ID ms) ∧ monitors w !! id = Some state)
  | None => (id ∉ map Monitor.ID ms) ∧ monitors w !! id = None
  end.
Proof.
  induction ms as [|m ms IH]; intros w id.
  - cbn. destruct (monitors w !! id); [right|]; split; try done;
      apply not_elem_of_nil.
  - cbn [checker.start_each]. unfold checker.startMonitor. run_m.
    set (w1 := mkWorld (db w)
                 (<[Monitor.ID m :=
                      mkMonitorState (checker.ticker_interval m) 0]>
                    (monitors w)) (sent w)).
    specialize (IH w1 id).
    destruct (monitors (checker.start_each ms w1).2 !! id) as [state|].
    + destruct IH as [(m' & Hin & Hid & Hst)|[Hnot Hstate]].
      * left. exists m'. split_and!; [by apply elem_of_cons; right|done|done].
      * subst w1. cbn [monitors] in Hstate.
        destruct (decide (Monitor.ID m = id)) as [He|Hne].
        -- left. exists m. rewrite He, lookup_insert_eq in Hstate.
           split_and!; [apply elem_of_cons; by left|done|congruence].
        -- right. rewrite lookup_insert_ne in Hstate by done.
           split; [|done]. cbn. apply not_elem_of_cons.
           split; [congruence|done].
    + destruct IH as [Hnot Hstate]. subst w1. cbn [monitors] in Hstate.
      destruct (decide (Monitor.ID m = id)) as [He|Hne].
      * by rewrite He, lookup_insert_eq in Hstate.
      * rewrite lookup_insert_ne in Hstate by done.
        split; [|done]. cbn. apply not_elem_of_cons.
        split; [congruence|done].
Qed.

Lemma check_at_ticks_check_results http ticks : ∀ m w,
  ∃ rows,
    check_result_rows (db (checker.check_at_ticks http m ticks w).2) =
    check_result_rows (db w) ++ rows.
Proof.
  induction ticks as [|tick ticks IH]; intros m w.
  - exists []. cbn. by rewrite app_nil_r.
  - cbn [checker.check_at_ticks]. unfold mbind, M_bind. cbn [fst snd].
    destruct (IH (checker.performCheck http m tick.1 tick.2 w).1
                 (checker.performCheck http m tick.1 tick.2 w).2)
      as (rows & Hrows).
    unfold checker.performCheck in *.
    rewrite evaluate_check_results, <- app_assoc in Hrows. eauto.
Qed.

(** The goroutine of a monitor records a check of it at once, in
    whatever state it finds the store. *)
Lemma runMonitor_checks_at_once http g first ticks w :
  ∃ row rows,
    check_result_rows (db (checker.runMonitor http g first ticks w).2) =
      check_result_rows (db w) ++ row :: rows ∧
    CheckResult.MonitorID row = Monitor.ID (checker.monitor g) ∧
    CheckResult.CreatedAt row = first.1.
Proof.
  unfold checker.runMonitor, mbind, M_bind. cbn [fst snd].
  destruct (check_at_ticks_check_results http ticks
              (checker.performCheck http (checker.monitor g)
                 first.1 first.2 w).1
              (checker.performCheck http (checker.monitor g)
                 first.1 first.2 w).2) as (rows & Hrows).
  unfold checker.performCheck in *.
  rewrite evaluate_check_results, <- app_assoc in Hrows.
  eexists _, rows. split; [exact Hrows|].
  cbn [checker.outcome checker.now].
  by destruct (checker.classify _ _).
Qed.

(** X14.  [Start] on a checker that has scheduled nothing yet starts
    the checks of the enabled monitors of the store and of no others.
    It starts one goroutine for each enabled monitor, in the order of
    their keys, with the period of the monitor; the entries it puts in
    the scheduler's map are those of the enabled monitors, each with the
    period of its monitor, which is a second at least, and with no down
    notification on record; a key under which no enabled monitor is
    stored has no entry.  Every goroutine it has started records a
    check of its monitor at once, whatever it finds in the store by
    then. *)
Theorem Start_schedules_the_enabled_monitors :
  ∀ w : World,
    monitors w = ∅ →
    let enabled := Database.ListEnabledMonitors (db w) in
    let started := (checker.Start w).1 in
    let scheduled := monitors (checker.Start w).2 in
    started =
      map (λ m, checker.mkGoroutine m (checker.ticker_interval m)) enabled ∧
    (∀ m, m ∈ enabled → is_Some (scheduled !! Monitor.ID m)) ∧
    (∀ id state, scheduled !! id = Some state →
       ∃ m, m ∈ enabled ∧ Monitor.ID m = id ∧
            Monitor.Enabled m = true ∧
            ticker state = checker.ticker_interval m ∧
            Second ≤ ticker state ∧
            lastNotified state = 0) ∧
    (∀ g http first ticks w0, g ∈ started →
       ∃ row rows,
         check_result_rows (db (checker.runMonitor http g first ticks w0).2) =
           check_result_rows (db w0) ++ row :: rows ∧
         CheckResult.MonitorID row = Monitor.ID (checker.monitor g) ∧
         CheckResult.CreatedAt row = first.1).
Proof.
  intros w Hempty enabled started scheduled. subst started scheduled.
  unfold checker.Start, mbind, M_bind, read_db. cbn [fst snd].
  fold enabled.
  split_and!.
  - apply start_each_started.
  - intros m Hin.
    assert (H := start_each_lookup enabled w (Monitor.ID m)).
    destruct (monitors (checker.start_each enabled w).2 !! Monitor.ID m);
      [done|].
    destruct H as [Hnot _]. exfalso. apply Hnot.
    apply list_elem_of_fmap. by exists m.
  - intros id state Hstate.
    assert (H := start_each_lookup enabled w id). rewrite Hstate in H.
    destruct H as [(m & Hin & Hid & ->)|[_ Hw]].
    + exists m. split_and!; try done.
      * subst enabled. unfold Database.ListEnabledMonitors in Hin.
        apply list_elem_of_In, filter_In in Hin. tauto.
      * apply ticker_interval_at_least_a_second.
    + by rewrite Hempty, lookup_empty in Hw.
  - intros g http first ticks w0 _. apply runMonitor_checks_at_once.
Qed.

Lemma Start_schedules_the_enabled_monitors_witness :
  is_Some
    (monitors (checker.Start (mkWorld two_monitors ∅ [])).2
       !! Monitor.ID sample.api).
Proof.
  destruct (Start_schedules_the_enabled_monitors (mkWorld two_monitors ∅ []))
    as (_ & Hall & _); [reflexivity|].
  apply Hall. apply elem_of_cons. by left.
Defined.

Lemma gate_open_from_zero later :
  cooldown ≤ later →
  Seconds_ge (Since later 0) config.NotificationCooldown = true.
Proof.
  unfold Seconds_ge, Since, Sub, cooldown, config.NotificationCooldown,
    Second, minInt64, maxInt64.
  intros H. apply Z.leb_le. lia.
Qed.

(** X15.  [UpdateMonitor] schedules the monitor afresh, or not at all:
    it is [RemoveMonitor], after which the monitor has no entry, and
    then [AddMonitor], which starts a goroutine for an enabled monitor
    only.  The entry of an enabled monitor is replaced by a new one,
    with the period of the monitor and no down notification on record;
    the entry of a monitor that is not enabled is removed; the other
    entries stay.  So the cooldown is forgotten: as long as the entry is
    as [UpdateMonitor] made it, a failed evaluation of the enabled
    monitor that finds it at the threshold, not down or down with an
    active incident, sends a down notification whatever was sent before;
    and while the monitor that is not enabled has no entry, a failed
    evaluation of it sends none. *)
Theorem UpdateMonitor_schedules_afresh :
  ∀ (m : Monitor.t) (w : World),
    let r := checker.UpdateMonitor m w in
    r = checker.AddMonitor m (checker.RemoveMonitor (Monitor.ID m) w).2 ∧
    monitors (checker.RemoveMonitor (Monitor.ID m) w).2 !! Monitor.ID m
      = None ∧
    r.1 =
      (if Monitor.Enabled m
       then Some (checker.mkGoroutine m (checker.ticker_interval m))
       else None) ∧
    monitors r.2 !! Monitor.ID m =
      (if Monitor.Enabled m
       then Some (mkMonitorState (checker.ticker_interval m) 0)
       else None) ∧
    (∀ other, other ≠ Monitor.ID m →
       monitors r.2 !! other = monitors w !! other) ∧
    (∀ k statusCode errorMsg w',
       Monitor.Enabled m = true →
       monitors w' !! Monitor.ID m = monitors r.2 !! Monitor.ID m →
       checker.outcome k = checker.Failed statusCode errorMsg →
       config.DefaultMaxFailures ≤ wrap64 (Monitor.ConsecutiveFails m + 1) →
       Monitor.CurrentStatus m ≠ "down" ∨
         is_Some (Database.GetActiveIncident (Monitor.ID m) (db w')) →
       cooldown ≤ checker.later k →
       sent (checker.evaluate m k w').2 =
       sent w' ++ [mkSent (checker.now k) (checker.later k)
                     (NotifyDown (Monitor.Name m) (Monitor.URL m) errorMsg)]) ∧
    (∀ k w',
       Monitor.Enabled m = false →
       monitors w' !! Monitor.ID m = monitors r.2 !! Monitor.ID m →
       is_failure k = true →
       sent (checker.evaluate m k w').2 = sent w').
Proof.
  intros m w r. subst r.
  assert (Hentry :
    monitors (checker.UpdateMonitor m w).2 !! Monitor.ID m =
    (if Monitor.Enabled m
     then Some (mkMonitorState (checker.ticker_interval m) 0)
     else None)).
  { unfold checker.UpdateMonitor, checker.RemoveMonitor,
      checker.startMonitor.
    destruct (Monitor.Enabled m); run_m.
    - apply lookup_insert_eq.
    - apply lookup_delete_eq. }
  split_and!.
  - reflexivity.
  - unfold checker.RemoveMonitor. run_m. apply lookup_delete_eq.
  - unfold checker.UpdateMonitor, checker.RemoveMonitor,
      checker.startMonitor.
    destruct (Monitor.Enabled m); reflexivity.
  - exact Hentry.
  - intros other Hne.
    unfold checker.UpdateMonitor, checker.RemoveMonitor,
      checker.startMonitor.
    destruct (Monitor.Enabled m); run_m.
    + rewrite lookup_insert_ne by done. by apply lookup_delete_ne.
    + by apply lookup_delete_ne.
  - intros k statusCode errorMsg w' Hen Hsame Hout Hthreshold Hreach Hlater.
    rewrite Hentry, Hen in Hsame. clear Hentry.
    unfold checker.evaluate. rewrite Hout.
    apply Z.leb_le in Hthreshold.
    apply gate_open_from_zero in Hlater.
    tracker_cases; try congruence; try reflexivity.
    all: destruct Hreach as [Hup|[i Hi]];
      [apply String.eqb_neq in Hup; destruct (String.eqb _ _); done
      |congruence].
  - intros k w' Hen Hsame Hk.
    rewrite Hentry, Hen in Hsame. clear Hentry.
    unfold checker.evaluate, is_failure in *.
    destruct (checker.outcome k) as [|c e]; [done|].
    tracker_cases; try reflexivity; congruence.
Qed.

Lemma UpdateMonitor_schedules_afresh_witness :
  map is_down_call
    (sent (checker.evaluate sample.api_failing (sample.failing 120)
             (checker.UpdateMonitor sample.api_failing sample.world).2).2) =
  [true].
Proof.
  destruct (UpdateMonitor_schedules_afresh sample.api_failing sample.world)
    as (_ & _ & _ & _ & _ & Hnext & _).
  rewrite (Hnext (sample.failing 120) 503
             "unexpected status code: got 503, expected one of [200]"
             (checker.UpdateMonitor sample.api_failing sample.world).2).
  - reflexivity.
  - reflexivity.
  - reflexivity.
  - reflexivity.
  - vm_compute. discriminate.
  - left. discriminate.
  - vm_compute. discriminate.
Defined.

(** ** The parsers of the configuration *)

Lemma ParseKeywords_loop es : ∀ acc,
  foldl (λ result p,
           let p := strings.TrimSpace p in
           if negb (String.eqb p "") then result ++ [p] else result)
        acc es =
  acc ++ List.filter (λ p, negb (String.eqb p ""))
           (map strings.TrimSpace es).
Proof.
  induction es as [|e es IH]; intros acc; cbn [foldl map List.filter].
  - by rewrite app_nil_r.
  - rewrite IH. destruct (negb (String.eqb (strings.TrimSpace e) ""));
      [|done].
    by rewrite <- app_assoc.
Qed.

Lemma ParseKeywords_trimmed_entries keywords :
  storage.ParseKeywords keywords = trimmed_entries keywords.
Proof.
  unfold storage.ParseKeywords, trimmed_entries.
  destruct (String.eqb_spec keywords "") as [->|_]; [done|].
  by rewrite ParseKeywords_loop.
Qed.

Lemma append_empty_r (s : string) : (s ++ "")%string = s.
Proof.
  induction s as [|c s IH]; [done|].
  change (String c s +:+ "") with (String c (s +:+ "")). by rewrite IH.
Qed.

Lemma TrimSpace_white s : white_string s → strings.TrimSpace s = "".
Proof.
  intros Hs.
  assert (H := TrimSpace_padded s "" "" Hs white_nil).
  change ("" +:+ "") with "" in H. by rewrite append_empty_r in H.
Qed.

(** X16.  The keywords of a monitor are the entries between the commas with
    the white space around them taken off, in their order, without the
    entries that are blank: no keyword is empty, white space around an
    entry changes nothing, and a list of blank entries gives no keyword
    at all, in which case the checker accepts every body. *)
Theorem ParseKeywords_trims_and_drops_blanks :
  (∀ keywords : string,
     storage.ParseKeywords keywords = trimmed_entries keywords) ∧
  (∀ keywords : string,
     Forall (λ keyword, keyword ≠ "") (storage.ParseKeywords keywords)) ∧
  (∀ ps : list Padded,
     Forall well_padded ps →
     storage.ParseKeywords (strings.Join (map padded ps) ",") =
     storage.ParseKeywords (strings.Join (map entry ps) ",")) ∧
  (∀ blanks : list string,
     Forall white_string blanks →
     storage.ParseKeywords (strings.Join blanks ",") = []) ∧
  (∀ (m : Monitor.t) (statusCode responseTime : Z) (body : string),
     storage.ParseKeywords (Monitor.Keywords m) = [] →
     statusCode ∈ storage.ParseExpectedCodes (Monitor.ExpectedCodes m) →
     checker.classify m (checker.Response statusCode responseTime body) =
     checker.Succeeded statusCode responseTime).
Proof.
  split_and!.
  - apply ParseKeywords_trimmed_entries.
  - intros keywords. rewrite ParseKeywords_trimmed_entries.
    unfold trimmed_entries. apply Forall_forall. intros k Hk.
    apply list_elem_of_In, filter_In in Hk as [_ Hk].
    apply negb_true_iff in Hk. by apply String.eqb_neq.
  - intros ps Hps. rewrite !ParseKeywords_trimmed_entries.
    unfold trimmed_entries.
    destruct ps as [|p ps]; [done|].
    rewrite !Split_Join.
    + f_equal. rewrite <- !list_fmap_compose.
      apply Forall_fmap_ext_1.
      eapply Forall_impl; [exact Hps|]. intros q (Hb & Ha & _). cbn.
      unfold padded. by apply TrimSpace_padded.
    + done.
    + apply Forall_fmap. eapply Forall_impl; [exact Hps|].
      by intros q (_ & _ & Hq).
    + done.
    + apply Forall_fmap. eapply Forall_impl; [exact Hps|].
      apply no_comma_padded.
  - intros blanks Hblanks. rewrite ParseKeywords_trimmed_entries.
    unfold trimmed_entries.
    destruct blanks as [|b blanks]; [done|].
    rewrite Split_Join.
    + induction Hblanks as [|x l Hx _ IH]; [done|].
      cbn [map List.filter]. by rewrite (TrimSpace_white x Hx).
    + done.
    + eapply Forall_impl; [exact Hblanks|].
      intros x Hx. by apply white_no_comma.
  - intros m statusCode responseTime body Hnone Hcode.
    cbn. apply statusOK_elem_of in Hcode. rewrite Hcode, Hnone. done.
Qed.

Lemma ParseKeywords_trims_and_drops_blanks_witness :
  storage.ParseKeywords " , " = [] ∧
  checker.classify (Monitor.set_Keywords " , " sample.api)
    (checker.Response 200 40 "anything") =
  checker.Succeeded 200 40.
Proof.
  destruct ParseKeywords_trims_and_drops_blanks
    as (_ & _ & _ & Hblank & Hfree).
  assert (Hnone : storage.ParseKeywords " , " = []).
  { apply (Hblank [" "; " "]).
    apply Forall_cons_2; [|apply Forall_cons_2; [|apply Forall_nil_2]];
      apply (white_ascii " "%char []); [reflexivity|constructor|
                                        reflexivity|constructor]. }
  split; [exact Hnone|].
  apply Hfree; [exact Hnone|].
  replace (storage.ParseExpectedCodes
             (Monitor.ExpectedCodes (Monitor.set_Keywords " , " sample.api)))
    with [200] by (vm_compute; reflexivity).
  apply elem_of_cons. by left.
Defined.

Lemma Sscanf_d_range p v :
  fmt.Sscanf_d p = Some v → minInt64 ≤ v ≤ maxInt64.
Proof.
  unfold fmt.Sscanf_d. intros H.
  repeat case_match; simplify_eq;
    match goal with
    | Hr : (_ <=? _) && (_ <=? _) = true |- _ =>
        apply andb_prop in Hr as [?%Z.leb_le ?%Z.leb_le]; lia
    end.
Qed.

(** X17.  The expected codes of a monitor are never none: whatever the
    configuration says there is a code that is accepted, and every code
    is a positive number that fits an [int]. *)
Theorem ParseExpectedCodes_gives_positive_codes :
  ∀ codes : string,
    storage.ParseExpectedCodes codes ≠ [] ∧
    Forall (λ code, 0 < code ≤ maxInt64) (storage.ParseExpectedCodes codes).
Proof.
  intros codes. rewrite ParseExpectedCodes_codes.
  assert (Hpos : Forall (λ code, 0 < code ≤ maxInt64)
                   (positive_codes (entries codes))).
  { unfold positive_codes. apply Forall_forall. intros c Hc.
    apply list_elem_of_In, filter_In in Hc as [Hin Hc].
    apply Z.ltb_lt in Hc. split; [done|].
    apply in_map_iff in Hin as (e & <- & _).
    unfold storage.scan_code in *.
    destruct (fmt.Sscanf_d (strings.TrimSpace e)) as [v|] eqn:Hv; cbn in *.
    - apply Sscanf_d_range in Hv. lia.
    - unfold maxInt64. lia. }
  destruct (positive_codes (entries codes)) as [|c cs]; [|done].
  split; [done|]. apply Forall_cons_2; [|done]. unfold maxInt64. lia.
Qed.

(** ** The tray check loop, beside the checker *)

Lemma check_one_check_results mon p now w :
  check_result_rows (db (tray.check_one mon p now w).2) =
  check_result_rows (db w) ++
    [CheckResult.mk
       (next_key (check_result_seq (db w))
           (map CheckResult.ID (check_result_rows (db w))))
       now (Monitor.ID mon) (tray.statusCode p) (tray.responseTime p)
       (match tray.checkErr p with None => true | Some _ => false end)
       (match tray.checkErr p with None => "" | Some e => e end)].
Proof. tray_cases; reflexivity. Qed.

Lemma check_one_monitor_rows mon p now later w :
  monitor_rows (db (tray.check_one mon p now w).2) =
  monitor_rows
    (db (checker.evaluate mon (checker.mkTick (outcome_of p) now later) w).2).
Proof.
  unfold checker.evaluate, outcome_of. cbn.
  destruct (tray.checkErr p) as [e|] eqn:He.
  - unfold tray.check_one. rewrite He.
    tracker_cases; tray_cases; try reflexivity; congruence.
  - unfold tray.check_one. rewrite He.
    tracker_cases; tray_cases; try reflexivity; congruence.
Qed.

Lemma check_one_keeps_the_books mon p now later w row :
  Database.GetMonitor (Monitor.ID mon) (db w) = Some row →
  Database.GetMonitor (Monitor.ID mon) (db (tray.check_one mon p now w).2) =
    Some (checker.evaluate mon (checker.mkTick (outcome_of p) now later) w).1
  ∧ Monitor.ID
      (checker.evaluate mon (checker.mkTick (outcome_of p) now later) w).1 =
    Monitor.ID mon.
Proof.
  intros Hrow. split; [|apply evaluate_ID].
  unfold Database.GetMonitor in *.
  rewrite (check_one_monitor_rows mon p now later w), evaluate_monitor_rows.
  rewrite (find_map_replace (λ r, N.eqb (Monitor.ID r) (Monitor.ID mon))).
  - by rewrite Hrow.
  - rewrite evaluate_ID. apply N.eqb_refl.
Qed.

(** X18.  The tray keeps the books of a monitor as the checker does.  One
    turn of the loop of the tray leaves the monitors of the store as an
    evaluation of the checker with the same outcome at the same time
    leaves them: the row of the monitor holds the count of consecutive
    failures, the status and the time of the last check the checker
    would have written. *)
Theorem check_one_keeps_the_books_of_the_checker :
  ∀ (mon : Monitor.t) (p : tray.Probe) (now later : Time) (w : World),
    let tray_w := (tray.check_one mon p now w).2 in
    let checker_r :=
      checker.evaluate mon (checker.mkTick (outcome_of p) now later) w in
    monitor_rows (db tray_w) = monitor_rows (db checker_r.2) ∧
    (∀ id, Database.GetMonitor id (db tray_w) =
           Database.GetMonitor id (db checker_r.2)) ∧
    (∀ row, Database.GetMonitor (Monitor.ID mon) (db w) = Some row →
            Database.GetMonitor (Monitor.ID mon) (db tray_w) =
            Some checker_r.1).
Proof.
  intros mon p now later w tray_w checker_r. subst tray_w checker_r.
  assert (Hrows := check_one_monitor_rows mon p now later w).
  split_and!.
  - exact Hrows.
  - intros id. unfold Database.GetMonitor. by rewrite Hrows.
  - intros row Hrow. unfold Database.GetMonitor in *.
    rewrite Hrows, evaluate_monitor_rows.
    rewrite (find_map_replace (λ r, N.eqb (Monitor.ID r) (Monitor.ID mon))).
    + by rewrite Hrow.
    + rewrite evaluate_ID. apply N.eqb_refl.
Qed.

Lemma check_one_keeps_the_books_of_the_checker_witness :
  Database.GetMonitor 1
    (db (tray.check_one sample.api_failing
           (tray.mkProbe 0 0 (Some "connection refused"))
           (sample.at_second 120) sample.world).2) =
  Some (checker.evaluate sample.api_failing (sample.failing_slowly 120)
          sample.world).1.
Proof.
  destruct (check_one_keeps_the_books_of_the_checker sample.api_failing
              (tray.mkProbe 0 0 (Some "connection refused"))
              (sample.at_second 120) (sample.at_second 121) sample.world)
    as (_ & _ & Hrow).
  apply (Hrow sample.api). reflexivity.
Defined.

Lemma check_one_monitor_rows_map mon p now w :
  ∃ mon', Monitor.ID mon' = Monitor.ID mon ∧
    monitor_rows (db (tray.check_one mon p now w).2) =
    map (λ r, if N.eqb (Monitor.ID r) (Monitor.ID mon) then mon' else r)
        (monitor_rows (db w)).
Proof.
  eexists. split; [|rewrite (check_one_monitor_rows mon p now now w);
                    apply evaluate_monitor_rows].
  apply evaluate_ID.
Qed.

Lemma check_each_check_results r mons : ∀ i w,
  ∃ rows,
    check_result_rows (db (tray.check_each r i mons w).2) =
      check_result_rows (db w) ++ rows ∧
    map CheckResult.MonitorID rows = map Monitor.ID mons ∧
    map CheckResult.CreatedAt rows = map (tray.clock r) (seq i (length mons)) ∧
    map CheckResult.Success rows =
      map (λ mon, negb (probe_failed (tray.probe r mon))) mons ∧
    map CheckResult.StatusCode rows =
      map (λ mon, tray.statusCode (tray.probe r mon)) mons ∧
    map CheckResult.ResponseTime rows =
      map (λ mon, tray.responseTime (tray.probe r mon)) mons.
Proof.
  induction mons as [|mon mons IH]; intros i w.
  - exists []. cbn. by rewrite app_nil_r.
  - cbn [tray.check_each]. unfold mbind, M_bind. cbn [fst snd].
    destruct (IH (S i) (tray.check_one mon (tray.probe r mon)
                          (tray.clock r i) w).2)
      as (rows & Hrows & Hid & Hat & Hok & Hcode & Hrt).
    rewrite check_one_check_results, <- app_assoc in Hrows.
    eexists (_ :: rows). split; [exact Hrows|].
    cbn [map length seq]. rewrite Hid, Hat, Hok, Hcode, Hrt.
    unfold probe_failed. cbn.
    by destruct (tray.checkErr (tray.probe r mon)).
Qed.

Lemma check_each_other_monitors r mons : ∀ i w id,
  id ∉ map Monitor.ID mons →
  Database.GetMonitor id (db (tray.check_each r i mons w).2) =
  Database.GetMonitor id (db w).
Proof.
  induction mons as [|mon mons IH]; intros i w id Hid; [done|].
  cbn [tray.check_each]. unfold mbind, M_bind. cbn [fst snd].
  cbn in Hid. apply not_elem_of_cons in Hid as [Hne Hid].
  rewrite IH by done.
  destruct (check_one_monitor_rows_map mon (tray.probe r mon)
              (tray.clock r i) w) as (mon' & Hmon' & Hrows).
  unfold Database.GetMonitor. rewrite Hrows.
  apply find_map_other.
  - intros x. destruct (N.eqb_spec (Monitor.ID x) (Monitor.ID mon)) as [He|];
      [|done].
    by rewrite Hmon', He.
  - intros x ->%N.eqb_eq. apply N.eqb_neq in Hne. by rewrite Hne.
Qed.

(** X19.  A round of the tray checks every enabled monitor once, and no
    other.  It appends one check result for each monitor that was
    enabled when the round began, in the order of their keys: a row of
    that monitor, created at the clock reading of its turn, with the
    status code and the response time [checkMonitor] returned and
    successful exactly when it returned no error.  The check results
    that were there stay, and the row of a monitor that was not enabled
    is not written. *)
Theorem checkAllMonitors_checks_each_enabled_monitor_once :
  ∀ (r : tray.Round) (w : World),
    let enabled := Database.ListEnabledMonitors (db w) in
    let w' := (tray.checkAllMonitors r w).2 in
    (∃ rows,
       check_result_rows (db w') = check_result_rows (db w) ++ rows ∧
       map CheckResult.MonitorID rows = map Monitor.ID enabled ∧
       map CheckResult.CreatedAt rows =
         map (tray.clock r) (seq 0 (length enabled)) ∧
       map CheckResult.Success rows =
         map (λ mon, negb (probe_failed (tray.probe r mon))) enabled ∧
       map CheckResult.StatusCode rows =
         map (λ mon, tray.statusCode (tray.probe r mon)) enabled ∧
       map CheckResult.ResponseTime rows =
         map (λ mon, tray.responseTime (tray.probe r mon)) enabled) ∧
    (∀ id, id ∉ map Monitor.ID enabled →
           Database.GetMonitor id (db w') = Database.GetMonitor id (db w)).
Proof.
  intros r w enabled w'. subst w'.
  unfold tray.checkAllMonitors, mbind, M_bind, read_db. cbn [fst snd].
  fold enabled.
  destruct enabled as [|mon mons] eqn:Hen.
  - cbn. split; [|done]. exists []. by rewrite app_nil_r.
  - cbn [length Nat.eqb]. split.
    + apply check_each_check_results.
    + intros id Hid. by apply check_each_other_monitors.
Qed.

Lemma checkAllMonitors_checks_each_enabled_monitor_once_witness :
  Database.GetMonitor 2
    (db (tray.checkAllMonitors (sample.answered 0)
           (mkWorld (Database.ToggleMonitor 2 false two_monitors) ∅ [])).2) =
  Database.GetMonitor 2 (Database.ToggleMonitor 2 false two_monitors).
Proof.
  destruct (checkAllMonitors_checks_each_enabled_monitor_once
              (sample.answered 0)
              (mkWorld (Database.ToggleMonitor 2 false two_monitors) ∅ []))
    as [_ Hothers].
  apply Hothers.
  change (2%N ∉ [1%N]). intros Hin. apply list_elem_of_singleton in Hin.
  discriminate.
Defined.

(** *** Down calls and recovery calls of the tray take turns *)

Lemma check_one_sent mon p now w :
  sent (tray.check_one mon p now w).2 =
  sent w ++
    match tray.checkErr p with
    | Some e =>
        if (config.DefaultMaxFailures <=?
              wrap64 (Monitor.ConsecutiveFails mon + 1))
           && negb (String.eqb (Monitor.CurrentStatus mon) "down")
        then [mkSent now now
                (NotifyDown (Monitor.Name mon) (Monitor.URL mon) e)]
        else []
    | None =>
        if String.eqb (Monitor.CurrentStatus mon) "down"
        then [mkSent now now
                (NotifyRecovery (Monitor.Name mon) (Monitor.URL mon))]
        else []
    end.
Proof. tray_cases; by rewrite ?app_nil_r. Qed.

Lemma alternating_snoc log s :
  alternating log →
  (∀ a, last log = Some a → is_down_call a ≠ is_down_call s) →
  alternating (log ++ [s]).
Proof.
  induction log as [|a log IH]; intros Halt Hlast; [done|].
  destruct Halt as [Hhead Halt].
  destruct log as [|b log].
  - cbn. split; [|done]. by apply Hlast.
  - cbn [app alternating] in *. split; [done|].
    apply IH; [done|]. intros c Hc. by apply Hlast.
Qed.

Lemma check_one_in_step mon p now w :
  monitor_rows (db w) = [mon] →
  in_step w → in_step (tray.check_one mon p now w).2.
Proof.
  intros Hrows (mon0 & Hrows0 & Halt & Hhead & Hdown).
  rewrite Hrows in Hrows0. injection Hrows0 as <-.
  assert (Hbooks := check_one_monitor_rows mon p now now w).
  rewrite evaluate_monitor_rows, Hrows in Hbooks. cbn in Hbooks.
  rewrite N.eqb_refl in Hbooks.
  destruct (evaluate_counts mon (checker.mkTick (outcome_of p) now now) w)
    as [_ Hstatus].
  set (mon' := (checker.evaluate mon
                  (checker.mkTick (outcome_of p) now now) w).1) in *.
  exists mon'. split; [done|].
  rewrite check_one_sent.
  unfold is_failure, outcome_of in Hstatus. cbn in Hstatus.
  destruct (tray.checkErr p) as [e|].
  - destruct (config.DefaultMaxFailures <=?
                wrap64 (Monitor.ConsecutiveFails mon + 1)); cbn.
    + destruct (String.eqb_spec (Monitor.CurrentStatus mon) "down")
        as [Hd|Hd]; cbn.
      * rewrite app_nil_r. split_and!; [done|done|].
        rewrite Hstatus. split; [intros _; by apply Hdown|done].
      * split_and!.
        -- apply alternating_snoc; [done|]. intros a Ha Heq. cbn in Heq.
           apply Hd, Hdown. by exists a.
        -- intros s. destruct (sent w) as [|a l] eqn:Hlog; cbn.
           ++ by intros [= <-].
           ++ intros [= <-]. by apply Hhead.
        -- rewrite Hstatus, last_snoc. split; [eauto|done].
    + rewrite app_nil_r. split_and!; [done|done|]. by rewrite Hstatus.
  - destruct (String.eqb_spec (Monitor.CurrentStatus mon) "down")
      as [Hd|Hd]; cbn.
    + apply Hdown in Hd as (a & Ha & Hcall).
      split_and!.
      * apply alternating_snoc; [done|]. intros a' Ha'. cbn.
        rewrite Ha in Ha'. injection Ha' as <-. by rewrite Hcall.
      * intros s. destruct (sent w) as [|b l] eqn:Hlog; [done|]. cbn.
        intros [= <-]. by apply Hhead.
      * rewrite Hstatus, last_snoc. split; [done|].
        by intros (s & [= <-] & Hs).
    + rewrite app_nil_r. split_and!; [done|done|].
      rewrite Hstatus. split; [done|]. intros Hlast. exfalso.
      by apply Hd, Hdown.
Qed.

Lemma checkAllMonitors_in_step r w :
  in_step w → in_step (tray.checkAllMonitors r w).2.
Proof.
  intros Hw. assert (Hw' := Hw). destruct Hw' as (mon & Hrows & _).
  unfold tray.checkAllMonitors, mbind, M_bind, read_db. cbn [fst snd].
  unfold Database.ListEnabledMonitors. rewrite Hrows. cbn.
  destruct (Monitor.Enabled mon); cbn; [|done].
  unfold mbind, M_bind. cbn [fst snd]. by apply check_one_in_step.
Qed.

Lemma runChecker_in_step rs : ∀ w,
  in_step w → in_step (tray.runChecker rs w).2.
Proof.
  induction rs as [|r rs IH]; intros w Hw; [done|].
  cbn [tray.runChecker]. unfold mbind, M_bind. cbn [fst snd].
  by apply IH, checkAllMonitors_in_step.
Qed.

(** X20.  The tray reports every change of status once.  Over a store with
    one monitor that is not down, from an empty log, whatever the rounds
    of the tray loop bring, the calls to the notifier alternate: the
    first is a down call, each down call is followed by a recovery call
    and each recovery call by a down call; and the monitor is down at
    the end exactly when the last call is a down call. *)
Theorem tray_calls_alternate :
  ∀ (rs : list tray.Round) (w : World) (mon : Monitor.t),
    monitor_rows (db w) = [mon] →
    Monitor.CurrentStatus mon ≠ "down" →
    sent w = [] →
    let w' := (tray.runChecker rs w).2 in
    alternating (sent w') ∧
    (∀ s, head (sent w') = Some s → is_down_call s = true) ∧
    ∃ mon', monitor_rows (db w') = [mon'] ∧
      (Monitor.CurrentStatus mon' = "down" ↔
       ∃ s, last (sent w') = Some s ∧ is_down_call s = true).
Proof.
  intros rs w mon Hrows Hup Hlog w'. subst w'.
  destruct (runChecker_in_step rs w) as (mon' & Hrows' & Halt & Hhead & Hdown).
  - exists mon. rewrite Hlog. split_and!; [done|done|done|].
    split; [done|]. by intros (s & [=] & _).
  - split_and!; [done|done|]. by exists mon'.
Qed.

Lemma tray_calls_alternate_witness :
  alternating (sent (tray.runChecker sample.flapping sample.world).2) ∧
  map is_down_call (sent (tray.runChecker sample.flapping sample.world).2) =
    [true; false; true].
Proof.
  split; [|vm_compute; reflexivity].
  destruct (tray_calls_alternate sample.flapping sample.world sample.api)
    as [Halt _]; [reflexivity|discriminate|reflexivity|].
  exact Halt.
Defined.

(** *** The summary of a round *)

Lemma tally_one_fields t p :
  0 ≤ tray.downCount t < maxInt64 → 0 ≤ tray.slowCount t < maxInt64 →
  0 ≤ tray.upCount t < maxInt64 →
  tray.tally_one t p =
  tray.mkTally
    (tray.hasDown t || probe_failed p)
    (tray.hasSlow t || probe_slow p)
    (tray.downCount t + if probe_failed p then 1 else 0)
    (tray.slowCount t + if probe_slow p then 1 else 0)
    (tray.upCount t + if probe_fast p then 1 else 0).
Proof.
  unfold maxInt64. intros Hd Hs Hu.
  unfold tray.tally_one, probe_slow, probe_fast, probe_failed.
  destruct t as [hd hs dc sc uc].
  cbn [tray.hasDown tray.hasSlow tray.downCount tray.slowCount
       tray.upCount] in *.
  destruct (tray.checkErr p) as [e|]; cbn [negb andb].
  - rewrite wrap64_small by (unfold minInt64, maxInt64; lia).
    by rewrite orb_true_r, orb_false_r, !Z.add_0_r.
  - destruct (1000 <? tray.responseTime p); cbn [negb];
      rewrite wrap64_small by (unfold minInt64, maxInt64; lia);
      by rewrite ?orb_true_r, ?orb_false_r, !Z.add_0_r.
Qed.

Lemma tally_counts ps : ∀ t,
  0 ≤ tray.downCount t → 0 ≤ tray.slowCount t → 0 ≤ tray.upCount t →
  tray.downCount t + tray.slowCount t + tray.upCount t
    + Z.of_nat (length ps) ≤ maxInt64 →
  foldl tray.tally_one t ps =
  tray.mkTally
    (tray.hasDown t || existsb probe_failed ps)
    (tray.hasSlow t || existsb probe_slow ps)
    (tray.downCount t + count_of probe_failed ps)
    (tray.slowCount t + count_of probe_slow ps)
    (tray.upCount t + count_of probe_fast ps).
Proof.
  unfold count_of.
  induction ps as [|p ps IH]; intros t Hd Hs Hu Hlen.
  - destruct t. cbn. by rewrite !orb_false_r, !Z.add_0_r.
  - cbn [foldl length] in *.
    rewrite tally_one_fields by (unfold maxInt64 in *; lia).
    rewrite IH;
      cbn [tray.hasDown tray.hasSlow tray.downCount tray.slowCount
           tray.upCount existsb List.filter].
    + rewrite <- !orb_assoc.
      destruct (probe_failed p), (probe_slow p), (probe_fast p);
        cbn [length]; f_equal; lia.
    + case_match; lia.
    + case_match; lia.
    + case_match; lia.
    + assert (Hone : (if probe_failed p then 1 else 0)
                     + (if probe_slow p then 1 else 0)
                     + (if probe_fast p then 1 else 0) = 1).
      { unfold probe_slow, probe_fast.
        by destruct (probe_failed p), (1000 <? tray.responseTime p). }
      lia.
Qed.

Lemma probes_partition ps :
  count_of probe_failed ps + count_of probe_slow ps + count_of probe_fast ps
  = Z.of_nat (length ps).
Proof.
  unfold count_of, probe_slow, probe_fast.
  induction ps as [|p ps IH]; [done|]. cbn [List.filter length].
  destruct (probe_failed p), (1000 <? tray.responseTime p);
    cbn [negb andb length]; lia.
Qed.

Lemma count_of_none f ps : existsb f ps = false → count_of f ps = 0.
Proof.
  unfold count_of. induction ps as [|p ps IH]; [done|]. cbn.
  destruct (f p); [done|]. cbn. apply IH.
Qed.

(** X21.  The summary of a round shows the worst that happened.  When
    monitors were checked, the status is red if a probe failed, yellow
    if none failed and one took more than a second, green otherwise.
    The message counts the failed and the quick probes under red, the
    slow and the quick ones under yellow, and all of them under green;
    failed, slow and quick probes together are the probes of the round,
    so that under red the slow ones are in neither count.  With no
    monitor to check the status is green. *)
Theorem summary_shows_the_worst_probe :
  ∀ ps : list tray.Probe,
    Z.of_nat (length ps) ≤ maxInt64 →
    ps ≠ [] →
    tray.summary ps =
      (if existsb probe_failed ps then
         ("red",
          fmt.Sprint_d (count_of probe_failed ps) ++ " down, "
          ++ fmt.Sprint_d (count_of probe_fast ps) ++ " up")
       else if existsb probe_slow ps then
         ("yellow",
          fmt.Sprint_d (count_of probe_slow ps) ++ " slow, "
          ++ fmt.Sprint_d (count_of probe_fast ps) ++ " up")
       else
         ("green",
          "All " ++ fmt.Sprint_d (Z.of_nat (length ps))
          ++ " monitors operational"))%string ∧
    count_of probe_failed ps + count_of probe_slow ps
      + count_of probe_fast ps = Z.of_nat (length ps) ∧
    tray.summary [] = ("green", "No monitors configured").
Proof.
  intros ps Hlen Hne. split_and!; [|apply probes_partition|done].
  unfold tray.summary, tray.tally.
  destruct ps as [|p ps]; [done|]. cbn [length Nat.eqb].
  rewrite tally_counts by (cbn [tray.downCount tray.slowCount tray.upCount
    length] in *; lia).
  cbn [tray.hasDown tray.hasSlow tray.downCount tray.slowCount tray.upCount
       orb].
  rewrite !Z.add_0_l.
  destruct (existsb probe_failed (p :: ps)) eqn:Hf; [done|].
  destruct (existsb probe_slow (p :: ps)) eqn:Hs; [done|].
  assert (H := probes_partition (p :: ps)).
  rewrite (count_of_none _ _ Hf), (count_of_none _ _ Hs) in H.
  rewrite !Z.add_0_l in H. by rewrite H.
Qed.

Lemma summary_shows_the_worst_probe_witness :
  tray.summary
    [tray.mkProbe 200 40 None; tray.mkProbe 200 1500 None;
     tray.mkProbe 0 0 (Some "connection refused")] =
  ("red", "1 down, 1 up").
Proof.
  destruct (summary_shows_the_worst_probe
              [tray.mkProbe 200 40 None; tray.mkProbe 200 1500 None;
               tray.mkProbe 0 0 (Some "connection refused")])
    as (Hsummary & _); [vm_compute; discriminate|discriminate|].
  rewrite Hsummary. vm_compute. reflexivity.
Defined.

(** X22.  The tray notifies exactly when the status changes.  One turn of the
    loop, for a monitor the store holds, sends a down call when it takes
    the monitor from not down to down, a recovery call when it takes it
    from down to up, and nothing otherwise: there is no cooldown and no
    look at the incidents. *)
Theorem check_one_notifies_exactly_on_a_change :
  ∀ (mon row : Monitor.t) (p : tray.Probe) (now : Time) (w : World),
    Database.GetMonitor (Monitor.ID mon) (db w) = Some row →
    let w' := (tray.check_one mon p now w).2 in
    ∃ mon',
      Database.GetMonitor (Monitor.ID mon) (db w') = Some mon' ∧
      let was_down := String.eqb (Monitor.CurrentStatus mon) "down" in
      let is_down := String.eqb (Monitor.CurrentStatus mon') "down" in
      sent w' =
        sent w ++
          if negb was_down && is_down then
            [mkSent now now
               (NotifyDown (Monitor.Name mon) (Monitor.URL mon)
                  (default "" (tray.checkErr p)))]
          else if was_down && negb is_down then
            [mkSent now now
               (NotifyRecovery (Monitor.Name mon) (Monitor.URL mon))]
          else [].
Proof.
  intros mon row p now w Hrow w'. subst w'.
  destruct (check_one_keeps_the_books mon p now now w row Hrow) as [Hrow' _].
  eexists. split; [exact Hrow'|]. cbv zeta.
  destruct (evaluate_counts mon (checker.mkTick (outcome_of p) now now) w)
    as [_ ->].
  rewrite check_one_sent.
  unfold is_failure, outcome_of. cbn.
  destruct (tray.checkErr p) as [e|]; cbn.
  - destruct (config.DefaultMaxFailures <=?
                wrap64 (Monitor.ConsecutiveFails mon + 1)); cbn.
    + by destruct (String.eqb (Monitor.CurrentStatus mon) "down").
    + by destruct (String.eqb (Monitor.CurrentStatus mon) "down").
  - by destruct (String.eqb (Monitor.CurrentStatus mon) "down").
Qed.

Lemma check_one_notifies_exactly_on_a_change_witness :
  ∃ mon',
    Database.GetMonitor 1
      (db (tray.check_one sample.api_failing
             (tray.mkProbe 0 0 (Some "connection refused"))
             (sample.at_second 120) sample.world).2) = Some mon' ∧
    Monitor.CurrentStatus mon' = "down".
Proof.
  destruct (check_one_notifies_exactly_on_a_change sample.api_failing
              sample.api (tray.mkProbe 0 0 (Some "connection refused"))
              (sample.at_second 120) sample.world)
    as (mon' & Hrow & _); [reflexivity|].
  exists mon'. split; [exact Hrow|].
  vm_compute in Hrow. injection Hrow as <-. reflexivity.
Defined.

(** *** The titles of the menu *)

Lemma set_titles_length r mons : ∀ i titles,
  length (tray.set_titles r i mons titles) = length titles.
Proof.
  induction mons as [|mon mons IH]; intros i titles; [done|].
  cbn [tray.set_titles]. by rewrite IH, length_insert.
Qed.

Lemma set_titles_lookup r mons : ∀ i titles j,
  tray.set_titles r i mons titles !! j =
  if decide ((i ≤ j < i + length mons)%nat ∧ (j < length titles)%nat)
  then (λ mon, tray.label mon (tray.probe r mon)) <$> mons !! (j - i)%nat
  else titles !! j.
Proof.
  induction mons as [|mon mons IH]; intros i titles j.
  - cbn. by rewrite decide_False by lia.
  - cbn [tray.set_titles length]. rewrite IH, length_insert.
    rewrite list_lookup_insert.
    destruct (decide (j = i)) as [->|Hne].
    + rewrite decide_False by lia. rewrite Nat.sub_diag. cbn.
      destruct (decide (i < length titles)%nat) as [Hi|Hi].
      * by rewrite !decide_True by lia.
      * rewrite !decide_False by lia. done.
    + rewrite (decide_False (P := i = j ∧ _)) by lia.
      destruct (decide (i < j)%nat) as [Hlt|Hge].
      * replace (j - i)%nat with (S (j - S i)) by lia. cbn.
        repeat case_decide; try done; lia.
      * by rewrite !decide_False by lia.
Qed.

(** X23.  The titles of the menu follow the positions, not the monitors.  The
    menu has one item for each monitor that was enabled when the tray
    started, and a round of checks never adds or removes an item: it
    writes the label of the monitor it checks in its [i]-th turn on the
    [i]-th item, whichever monitor the item was made for.  A monitor
    checked in a turn beyond the last item gets no title, and an item
    beyond the last turn keeps the title it had. *)
Theorem set_titles_follows_the_positions :
  ∀ (r : tray.Round) (at_start enabled : list Monitor.t),
    let titles := tray.loadMonitors at_start in
    let titles' := tray.set_titles r 0 enabled titles in
    length titles = length at_start ∧
    length titles' = length at_start ∧
    (∀ i mon, enabled !! i = Some mon → (i < length at_start)%nat →
       titles' !! i = Some (tray.label mon (tray.probe r mon))) ∧
    (∀ i, (length at_start ≤ i)%nat → titles' !! i = None) ∧
    (∀ i, (length enabled ≤ i)%nat → titles' !! i = titles !! i).
Proof.
  intros r at_start enabled titles titles'. subst titles titles'.
  assert (Hlen : length (tray.loadMonitors at_start) = length at_start)
    by apply length_map.
  split_and!.
  - done.
  - by rewrite set_titles_length.
  - intros i mon Hmon Hi. rewrite set_titles_lookup, Nat.sub_0_r, Hmon.
    apply lookup_lt_Some in Hmon as Hlt.
    by rewrite decide_True by lia.
  - intros i Hi. apply lookup_ge_None_2.
    rewrite set_titles_length. lia.
  - intros i Hi. rewrite set_titles_lookup.
    by rewrite decide_False by lia.
Qed.

Lemma set_titles_follows_the_positions_witness :
  tray.set_titles (sample.answered 0) 0 [sample.api]
    (tray.loadMonitors
       [Monitor.set_CurrentStatus "down" (Monitor.set_Name "web" sample.api);
        sample.api]) !! 0%nat =
  Some (tray.label sample.api (tray.mkProbe 200 40 None)).
Proof.
  destruct (set_titles_follows_the_positions (sample.answered 0)
              [Monitor.set_CurrentStatus "down"
                 (Monitor.set_Name "web" sample.api);
               sample.api]
              [sample.api]) as (_ & _ & Hturn & _).
  apply (Hturn 0%nat sample.api); [reflexivity|cbn; lia].
Defined.

(** ** Primary keys *)

Lemma next_key_above seq keys k : k ∈ keys → (k < next_key seq keys)%N.
Proof.
  intros Hk. apply largest_bound in Hk. unfold next_key. lia.
Qed.

Lemma ascending_snoc seq keys :
  ascending keys → ascending (keys ++ [next_key seq keys]).
Proof.
  intros H. apply StronglySorted_app_2; [|done|repeat constructor].
  intros x1 x2 Hx1 ->%list_elem_of_singleton. by apply next_key_above.
Qed.

Lemma ascending_filter {A : Type} (key : A → N) (p : A → bool) (l : list A) :
  ascending (map key l) → ascending (map key (List.filter p l)).
Proof.
  unfold ascending. induction l as [|a l IH]; [done|]. cbn.
  rewrite StronglySorted_cons. intros [Hall Hl].
  destruct (p a); [|by apply IH]. cbn.
  apply StronglySorted_cons. split; [|by apply IH].
  rewrite Forall_forall in *. intros k Hk. apply Hall.
  apply list_elem_of_fmap in Hk as (x & -> & Hx).
  apply list_elem_of_fmap. exists x. split; [done|].
  apply list_elem_of_In. apply list_elem_of_In, filter_In in Hx. tauto.
Qed.

Lemma map_key_replace {A : Type} (key : A → N) (id : N) (f : A → A)
    (l : list A) :
  (∀ x, key x = id → key (f x) = id) →
  map key (map (λ r, if N.eqb (key r) id then f r else r) l) = map key l.
Proof.
  intros Hf. rewrite map_map. apply map_ext. intros a.
  destruct (N.eqb_spec (key a) id) as [He|]; [|done].
  by rewrite Hf, He.
Qed.

Section keyed_operations.
Variable d : Store.
Hypothesis Hd : store_keyed d.

Lemma CreateCheckResult_keyed cr :
  store_keyed (Database.CreateCheckResult cr d).
Proof.
  destruct Hd as [Hm Hc Hi].
  unfold Database.CreateCheckResult.
  split; cbn [monitor_rows check_result_rows incident_rows monitor_seq
              check_result_seq incident_seq]; try done.
  rewrite map_app. cbn. by apply ascending_snoc.
Qed.

Lemma CreateIncident_keyed i : store_keyed (Database.CreateIncident i d).
Proof.
  destruct Hd as [Hm Hc Hi].
  unfold Database.CreateIncident.
  split; cbn [monitor_rows check_result_rows incident_rows monitor_seq
              check_result_seq incident_seq]; try done.
  rewrite map_app. cbn. by apply ascending_snoc.
Qed.

Lemma UpdateMonitor_keyed m : store_keyed (Database.UpdateMonitor m d).
Proof.
  destruct Hd as [Hm Hc Hi].
  unfold Database.UpdateMonitor.
  split; cbn [monitor_rows check_result_rows incident_rows monitor_seq
              check_result_seq incident_seq]; try done;
    by rewrite (map_key_replace Monitor.ID (Monitor.ID m) (λ _, m)).
Qed.

Lemma UpdateIncident_keyed i : store_keyed (Database.UpdateIncident i d).
Proof.
  destruct Hd as [Hm Hc Hi].
  unfold Database.UpdateIncident.
  split; cbn [monitor_rows check_result_rows incident_rows monitor_seq
              check_result_seq incident_seq]; try done;
    by rewrite (map_key_replace Incident.ID (Incident.ID i) (λ _, i)).
Qed.

Lemma ResolveIncident_keyed id t :
  store_keyed (Database.ResolveIncident id t d).
Proof.
  destruct Hd as [Hm Hc Hi].
  unfold Database.ResolveIncident.
  split; cbn [monitor_rows check_result_rows incident_rows monitor_seq
              check_result_seq incident_seq]; try done;
    by rewrite (map_key_replace Incident.ID id
                  (Incident.set_ResolvedAt (Some t))).
Qed.

Lemma ToggleMonitor_keyed id enabled :
  store_keyed (Database.ToggleMonitor id enabled d).
Proof.
  destruct Hd as [Hm Hc Hi].
  unfold Database.ToggleMonitor.
  split; cbn [monitor_rows check_result_rows incident_rows monitor_seq
              check_result_seq incident_seq]; try done;
    by rewrite (map_key_replace Monitor.ID id (Monitor.set_Enabled enabled)).
Qed.

Lemma DeleteMonitor_keyed id : store_keyed (Database.DeleteMonitor id d).
Proof.
  destruct Hd as [Hm Hc Hi].
  unfold Database.DeleteMonitor.
  split; cbn [monitor_rows check_result_rows incident_rows monitor_seq
              check_result_seq incident_seq];
    by apply ascending_filter.
Qed.
End keyed_operations.

Create HintDb keyed.
#[local] Hint Resolve CreateCheckResult_keyed CreateIncident_keyed
  UpdateMonitor_keyed UpdateIncident_keyed ResolveIncident_keyed : keyed.

Lemma evaluate_keyed m k w :
  store_keyed (db w) → store_keyed (db (checker.evaluate m k w).2).
Proof.
  intros Hw. unfold checker.evaluate.
  destruct k as [[c rt|c e] t1 t2]; cbn.
  - tracker_cases; eauto 8 with keyed.
  - tracker_cases; eauto 8 with keyed.
Qed.

Lemma run_keyed ks : ∀ m w,
  store_keyed (db w) → store_keyed (db (checker.run m ks w).2).
Proof.
  induction ks as [|k ks IH]; intros m w Hw; [done|].
  cbn [checker.run]. unfold mbind, M_bind. cbn [fst snd].
  by apply IH, evaluate_keyed.
Qed.

Lemma check_one_keyed mon p now w :
  store_keyed (db w) → store_keyed (db (tray.check_one mon p now w).2).
Proof. intros Hw. tray_cases; eauto 8 with keyed. Qed.

Lemma check_each_keyed r mons : ∀ i w,
  store_keyed (db w) → store_keyed (db (tray.check_each r i mons w).2).
Proof.
  induction mons as [|mon mons IH]; intros i w Hw; [done|].
  cbn [tray.check_each]. unfold mbind, M_bind. cbn [fst snd].
  by apply IH, check_one_keyed.
Qed.

Lemma runChecker_keyed rs : ∀ w,
  store_keyed (db w) → store_keyed (db (tray.runChecker rs w).2).
Proof.
  induction rs as [|r rs IH]; intros w Hw; [done|].
  cbn [tray.runChecker]. unfold mbind, M_bind. cbn [fst snd].
  apply IH. unfold tray.checkAllMonitors, mbind, M_bind, read_db.
  cbn [fst snd]. case_match; [done|by apply check_each_keyed].
Qed.

Lemma find_first_of_ascending {A : Type} (key : A → N) (p : A → bool)
    (l : list A) (x y : A) :
  ascending (map key l) → find p l = Some x → y ∈ l → p y = true →
  (key x ≤ key y)%N.
Proof.
  unfold ascending. induction l as [|a l IH]; [done|]. cbn.
  rewrite StronglySorted_cons. intros [Hall Hl] Hfind Hy Hp.
  apply elem_of_cons in Hy as [Hya|Hy].
  - subst a. rewrite Hp in Hfind. injection Hfind as Hx. subst x. lia.
  - destruct (p a).
    + injection Hfind as Hx. subst x. rewrite Forall_forall in Hall.
      assert (key a < key y)%N; [|lia].
      apply Hall, list_elem_of_fmap. by exists y.
    + by apply IH.
Qed.

Lemma ascending_NoDup keys : ascending keys → NoDup keys.
Proof.
  unfold ascending. induction keys as [|a keys IH]; [constructor|].
  rewrite StronglySorted_cons. intros [Hall Hl].
  apply NoDup_cons. split; [|by apply IH].
  intros Hin. rewrite Forall_forall in Hall. specialize (Hall a Hin). lia.
Qed.

(** X24.  The tables stay in the order of their primary keys.  When the keys
    of the monitors, of the check results and of the incidents are
    strictly ascending, they are so after every run of the checker on
    a monitor of the store, after every sequence of rounds of the tray,
    after [DeleteMonitor] and after [ToggleMonitor]: a new row gets a
    key above all others and no operation changes the key of a row.  So no two rows share a key,
    and the incident [GetActiveIncident] finds is the unresolved
    incident of the monitor with the least key. *)
Theorem primary_keys_stay_ascending :
  ∀ w : World,
    store_keyed (db w) →
    (∀ m ks, is_Some (Database.GetMonitor (Monitor.ID m) (db w)) →
             store_keyed (db (checker.run m ks w).2)) ∧
    (∀ rs, store_keyed (db (tray.runChecker rs w).2)) ∧
    (∀ id, store_keyed (Database.DeleteMonitor id (db w))) ∧
    (∀ id enabled, store_keyed (Database.ToggleMonitor id enabled (db w))) ∧
    NoDup (map Monitor.ID (monitor_rows (db w))) ∧
    NoDup (map Incident.ID (incident_rows (db w))) ∧
    (∀ id found other,
       Database.GetActiveIncident id (db w) = Some found →
       other ∈ Database.active_incidents id (db w) →
       (Incident.ID found ≤ Incident.ID other)%N).
Proof.
  intros w Hw. split_and!.
  - intros m ks _. by apply run_keyed.
  - intros rs. by apply runChecker_keyed.
  - intros id. by apply DeleteMonitor_keyed.
  - intros id enabled. by apply ToggleMonitor_keyed.
  - destruct Hw as [Hm _ _]. by apply ascending_NoDup.
  - destruct Hw as [_ _ Hi]. by apply ascending_NoDup.
  - intros id found other Hfound Hother. destruct Hw as [_ _ Hi].
    unfold Database.GetActiveIncident, Database.active_incidents in *.
    apply list_elem_of_In, filter_In in Hother as [Hin Hact].
    eapply find_first_of_ascending; eauto. by apply list_elem_of_In.
Qed.

Lemma primary_keys_stay_ascending_witness :
  store_keyed
    (db (checker.run sample.api sample.two_outages sample.world).2).
Proof.
  destruct (primary_keys_stay_ascending sample.world) as [Hrun _].
  - split; cbn; repeat constructor.
  - apply Hrun. by exists sample.api.
Defined.

(** ** Monitors added through the settings window *)

(** X25.  The settings window adds monitors that can be checked as they are
    configured.  A request without a URL is refused.  Otherwise the
    monitor handed to the store is enabled, has the URL of the request,
    a name, expected codes, an interval and a timeout of a second at
    least, those of the request when they are positive; and, as long as
    their nanoseconds fit a [Duration], the tray gives its probes
    exactly that timeout, and the checker gives the ticker that period
    and the context of the request that timeout: neither a default nor
    a deadline in the past takes their place.  The exchange of the
    checker is cut at that timeout or, when the timeout is more than
    thirty seconds, at the thirty seconds of the timeout of its
    client. *)
Theorem handleAddMonitor_builds_a_checkable_monitor :
  ∀ req : tray.AddRequest.t,
    (tray.AddRequest.URL req = "" → tray.handleAddMonitor_monitor req = None) ∧
    (tray.AddRequest.URL req ≠ "" →
     ∃ m,
       tray.handleAddMonitor_monitor req = Some m ∧
       Monitor.Enabled m = true ∧
       Monitor.URL m = tray.AddRequest.URL req ∧
       Monitor.Name m ≠ "" ∧
       Monitor.ExpectedCodes m ≠ "" ∧
       Monitor.Keywords m = tray.AddRequest.Keywords req ∧
       1 ≤ Monitor.CheckInterval m ∧ 1 ≤ Monitor.Timeout m ∧
       (0 < tray.AddRequest.Interval req →
        Monitor.CheckInterval m = tray.AddRequest.Interval req) ∧
       (0 < tray.AddRequest.Timeout req →
        Monitor.Timeout m = tray.AddRequest.Timeout req) ∧
       (tray.AddRequest.Interval req ≤ 9223372036 →
        checker.ticker_interval m = Monitor.CheckInterval m * Second) ∧
       (tray.AddRequest.Timeout req ≤ 9223372036 →
        tray.checkMonitor_timeout m = Monitor.Timeout m * Second ∧
        checker.request_timeout m = Monitor.Timeout m * Second ∧
        0 < checker.request_timeout m ∧
        checker.deadline m =
          Z.min (Monitor.Timeout m * Second) (30 * Second) ∧
        0 < checker.deadline m)).
Proof.
  intros [name url interval timeout codes keywords].
  unfold tray.handleAddMonitor_monitor, tray.handleAddMonitor_interval,
    tray.handleAddMonitor_timeout.
  cbn [tray.AddRequest.URL tray.AddRequest.Name tray.AddRequest.Interval
       tray.AddRequest.Timeout tray.AddRequest.ExpectedCodes
       tray.AddRequest.Keywords].
  split.
  - by intros ->.
  - intros Hurl. apply String.eqb_neq in Hurl as Hurl'. rewrite Hurl'.
    eexists. split; [reflexivity|].
    cbn [Monitor.Enabled Monitor.URL Monitor.Name Monitor.ExpectedCodes
         Monitor.Keywords Monitor.CheckInterval Monitor.Timeout].
    assert (Hi : 1 ≤ (if interval <=? 0 then 60 else interval))
      by (destruct (Z.leb_spec interval 0); lia).
    assert (Ht : 1 ≤ (if timeout <=? 0 then 10 else timeout))
      by (destruct (Z.leb_spec timeout 0); lia).
    split_and!; try done.
    + by destruct (String.eqb_spec name "").
    + by destruct (String.eqb_spec codes "").
    + intros Hpos. destruct (Z.leb_spec interval 0); [lia|done].
    + intros Hpos. destruct (Z.leb_spec timeout 0); [lia|done].
    + intros Hmax. unfold checker.ticker_interval.
      cbn [Monitor.CheckInterval].
      set (i := if interval <=? 0 then 60 else interval) in *.
      assert (i ≤ 9223372036) by (subst i; destruct (interval <=? 0); lia).
      rewrite wrap64_seconds by lia.
      destruct (Z.ltb_spec (i * Second) Second) as [Hlt|_]; [|done].
      unfold Second in Hlt. lia.
    + intros Hmax.
      unfold checker.deadline, checker.client_Timeout,
        tray.checkMonitor_timeout, checker.request_timeout.
      cbn [Monitor.Timeout].
      set (t := if timeout <=? 0 then 10 else timeout) in *.
      assert (t ≤ 9223372036) by (subst t; destruct (timeout <=? 0); lia).
      rewrite wrap64_seconds by lia.
      destruct (Z.eqb_spec (t * Second) 0) as [H0|_];
        unfold Second in *; [lia|].
      split; [done|]. split; [done|]. split; [lia|]. split; [done|lia].
Qed.

Lemma handleAddMonitor_builds_a_checkable_monitor_witness :
  ∃ m,
    tray.handleAddMonitor_monitor
      (tray.AddRequest.mk "" "http://api.test/health" 0 (-1) "" "") = Some m ∧
    checker.request_timeout m = Monitor.Timeout m * Second.
Proof.
  destruct (handleAddMonitor_builds_a_checkable_monitor
              (tray.AddRequest.mk "" "http://api.test/health" 0 (-1) "" ""))
    as [_ Hbuilt].
  destruct Hbuilt as (m & Hm & _ & _ & _ & _ & _ & _ & _ & _ & _ & _ & Ht);
    [discriminate|].
  exists m. split; [exact Hm|].
  destruct Ht as (_ & Hctx & _); [cbn; lia|exact Hctx].
Defined.
